(** * code_graph: a static call graph analyzer (myast.py)

    Shallow embedding of the graph store, the identifier scheme, the
    name resolver, the syntax-tree walker, the project scaffolder and
    the DOT serializer of [myast.py], with the properties of the
    specification proved over that embedding. *)

From Stdlib Require Import List String Ascii ZArith Bool Arith Lia.
From Stdlib Require Import DecimalString.
Import ListNotations.
Open Scope string_scope.

(** ** Python string primitives used by the program *)

(** The double quote character, and a one-character string made of it. *)
Definition dquote : ascii := Ascii.ascii_of_nat 34.
Definition dq : string := String dquote EmptyString.
Definition backslash : ascii := Ascii.ascii_of_nat 92.
Definition newline : ascii := Ascii.ascii_of_nat 10.

(** [str.replace('"', '\\"')]: every double quote gets a backslash. *)
Fixpoint escape_quotes (s : string) : string :=
  match s with
  | EmptyString => EmptyString
  | String c s' =>
      if Ascii.eqb c dquote
      then String backslash (String dquote (escape_quotes s'))
      else String c (escape_quotes s')
  end.

(** [sep.join(parts)]. *)
Fixpoint join (sep : string) (parts : list string) : string :=
  match parts with
  | [] => ""
  | [p] => p
  | p :: ps => p ++ sep ++ join sep ps
  end.

(** [c in s] for a one-character needle. *)
Fixpoint contains_char (c : ascii) (s : string) : bool :=
  match s with
  | EmptyString => false
  | String d s' => Ascii.eqb d c || contains_char c s'
  end.

(** [s.count(c)] for a one-character needle. *)
Fixpoint count_char (c : ascii) (s : string) : Z :=
  match s with
  | EmptyString => 0
  | String d s' => ((if Ascii.eqb d c then 1 else 0) + count_char c s')%Z
  end.

(** [s.endswith(c)] for a one-character needle. *)
Fixpoint ends_with_char (c : ascii) (s : string) : bool :=
  match s with
  | EmptyString => false
  | String d EmptyString => Ascii.eqb d c
  | String _ s' => ends_with_char c s'
  end.

(** [s.rsplit(c, 1)[-1]]: what follows the last occurrence of [c], the
    whole string when [c] does not occur. *)
Fixpoint after_last (c : ascii) (s : string) : string :=
  match s with
  | EmptyString => EmptyString
  | String d s' =>
      if contains_char c s' then after_last c s'
      else if Ascii.eqb d c then s' else String d s'
  end.

(** [str(n)] for an integer. *)
Definition str_of_Z (z : Z) : string := NilZero.string_of_int (Z.to_int z).

(** ** Data model: nodes, edges, the graph store *)

Inductive NodeKind := KDir | KFile | KClass | KFunction.
Inductive Party := P1st | P3rd.
Inductive EdgeKind := Imports | Calls | Has | Is.

Definition NodeKind_str (k : NodeKind) : string :=
  match k with
  | KDir => "dir" | KFile => "file" | KClass => "class" | KFunction => "function"
  end.

Definition Party_str (p : Party) : string :=
  match p with P1st => "1st" | P3rd => "3rd" end.

Definition EdgeKind_str (k : EdgeKind) : string :=
  match k with
  | Imports => "imports" | Calls => "calls" | Has => "has" | Is => "is"
  end.

Definition EdgeKind_eqb (a b : EdgeKind) : bool :=
  match a, b with
  | Imports, Imports | Calls, Calls | Has, Has | Is, Is => true
  | _, _ => false
  end.

(** class Node: [id], [kind], [label], [party], [loc]. *)
Record Node := mkNode {
  id : string;
  kind : NodeKind;
  label : string;
  party : Party;
  loc : Z
}.

(** class Edge: [src], [dst], [kind]. *)
Record Edge := mkEdge {
  src : string;
  dst : string;
  ekind : EdgeKind
}.

(** class Graph.  [nodes] is a Python dict keyed by node id; it is only
    ever extended, and it is iterated in insertion order, so it is kept
    as the list of its values in insertion order (each value carries its
    key in [id]).  [edges] is the Python list. *)
Record Graph := mkGraph {
  nodes : list Node;
  edges : list Edge
}.

Definition Graph_empty : Graph := mkGraph [] [].

(** [self.nodes[i]] / [i in self.nodes]. *)
Definition get_node (ns : list Node) (i : string) : option Node :=
  find (fun n => String.eqb (id n) i) ns.

Definition has_node (ns : list Node) (i : string) : bool :=
  match get_node ns i with Some _ => true | None => false end.

(** Graph.add_node *)
Definition add_node (i : string) (k : NodeKind) (l : string) (p : Party)
    (sz : Z) (g : Graph) : Graph :=
  if has_node (nodes g) i then g
  else mkGraph (nodes g ++ [mkNode i k l p sz]) (edges g).

(** Graph.add_edge *)
Definition add_edge (s d : string) (k : EdgeKind) (g : Graph) : Graph :=
  mkGraph (nodes g) (edges g ++ [mkEdge s d k]).

(** One later call of [add_node], with its five arguments. *)
Definition add_node_call : Type :=
  (string * NodeKind * string * Party * Z)%type.

Definition run_add_node (g : Graph) (c : add_node_call) : Graph :=
  let '(i, k, l, p, sz) := c in add_node i k l p sz g.

(** ** Syntax trees

    The parser is an external collaborator; the embedding keeps, of the
    tree it returns, the node classes the visitor distinguishes.  Every
    other class (Module, If, Return, Expr, Lambda, arguments, keyword,
    ...) is [Other] with its child nodes in field order.  Child nodes
    are listed as [ast.iter_child_nodes] yields them; the leaves that
    carry no node of their own (expression contexts, aliases) are left
    out. *)
#[local] Unset Elimination Schemes.
Inductive ast : Type :=
| Import (names : list string)          (* alias.name of each alias *)
| ImportFrom (module : option string)
| ClassDef (name : string) (lineno : Z) (end_lineno : option Z)
           (bases : list ast)           (* field [bases] *)
           (rest : list ast)            (* keywords, body, decorator_list *)
| FunctionDef (is_async : bool)         (* FunctionDef / AsyncFunctionDef *)
           (name : string) (lineno : Z) (end_lineno : option Z)
           (children : list ast)        (* args, body, decorator_list, returns *)
| Call (func : ast) (args : list ast)   (* args, then keywords *)
| Name (ident : string)
| Attribute (value : ast) (attr : string)
| Other (children : list ast).
#[local] Set Elimination Schemes.

(** ast.iter_child_nodes *)
Definition iter_child_nodes (n : ast) : list ast :=
  match n with
  | Import _ | ImportFrom _ | Name _ => []
  | ClassDef _ _ _ bases rest => bases ++ rest
  | FunctionDef _ _ _ _ cs => cs
  | Call f args => f :: args
  | Attribute v _ => [v]
  | Other cs => cs
  end.

(** [isinstance(child, (ast.FunctionDef, ast.AsyncFunctionDef, ast.ClassDef))] *)
Definition is_def (n : ast) : bool :=
  match n with
  | ClassDef _ _ _ _ _ | FunctionDef _ _ _ _ _ => true
  | _ => false
  end.

(** _resolve_name.  [if val:] is false for [None] and for the empty
    string. *)
Fixpoint _resolve_name (e : ast) : option string :=
  match e with
  | Name i => Some i
  | Attribute v a =>
      match _resolve_name v with
      | Some (String _ _ as val) => Some (val ++ "." ++ a)
      | _ => Some a
      end
  | _ => None
  end.

(** [(node.end_lineno or node.lineno) - node.lineno + 1]: [or] takes its
    right operand when the left one is [None] or [0]. *)
Definition def_loc (lineno : Z) (end_lineno : option Z) : Z :=
  ((match end_lineno with
    | Some e => if (e =? 0)%Z then lineno else e
    | None => lineno
    end) - lineno + 1)%Z.

(** ** The visitor *)

(** A source file of the run: its path relative to the root, as the
    tuple [rel.parts], and the text read from it. *)
Record SourceFile := mkSourceFile {
  rel : list string;
  source : string
}.

(** [str(rel)] *)
Definition rel_str (parts : list string) : string := join "/" parts.

(** class CallGraphVisitor: the shared graph, the file's relative path
    and id, and the scope stack (a Python list, top at the end). *)
Record Visitor := mkVisitor {
  graph : Graph;
  rel_path : list string;
  file_id : string;
  _scope : list string
}.

(** CallGraphVisitor.__init__ *)
Definition CallGraphVisitor (g : Graph) (f : SourceFile) : Visitor :=
  mkVisitor g (rel f) ("file:" ++ rel_str (rel f)) [].

Definition on_graph (f : Graph -> Graph) (v : Visitor) : Visitor :=
  mkVisitor (f (graph v)) (rel_path v) (file_id v) (_scope v).

(** [self._scope.append(i)] and [self._scope.pop()] *)
Definition push (i : string) (v : Visitor) : Visitor :=
  mkVisitor (graph v) (rel_path v) (file_id v) (_scope v ++ [i])%list.

Definition pop (v : Visitor) : Visitor :=
  mkVisitor (graph v) (rel_path v) (file_id v) (removelast (_scope v)).

(** _current_scope_id *)
Definition _current_scope_id (v : Visitor) : string :=
  last (_scope v) (file_id v).

(** _make_id *)
Definition _make_id (k : string) (name : string) (v : Visitor) : string :=
  _current_scope_id v ++ "::" ++ k ++ ":" ++ name.

Definition is_function_or_class (k : NodeKind) : bool :=
  match k with KFunction | KClass => true | _ => false end.

(** [name.rsplit(".", 1)[-1] if "." in name else name] *)
Definition short_name_of (name : string) : string :=
  if contains_char "." name then after_last "." name else name.

(** The second loop of _resolve_target: the ids of the matching nodes,
    split into [same_file] and [other], each in iteration order. *)
Definition split_matches (fid short_name : string) (ns : list Node)
  : list string * list string :=
  fold_left
    (fun (acc : list string * list string) n =>
       if String.eqb (label n) short_name && is_function_or_class (kind n)
       then if String.prefix fid (id n)
            then ((fst acc ++ [id n])%list, snd acc)
            else (fst acc, (snd acc ++ [id n])%list)
       else acc)
    ns ([], []).

(** _resolve_target: the returned id, and the visitor whose graph may
    have gained the placeholder. *)
Definition _resolve_target (name : string) (v : Visitor) : string * Visitor :=
  let short_name := short_name_of name in
  match find (fun n => String.eqb (label n) name
                       && is_function_or_class (kind n))
             (nodes (graph v)) with
  | Some n => (id n, v)
  | None =>
      let '(same_file, other) :=
        split_matches (file_id v) short_name (nodes (graph v)) in
      match same_file with
      | i :: _ => (i, v)
      | [] =>
          match other with
          | i :: _ => (i, v)
          | [] =>
              let placeholder_id := "function:" ++ name in
              (placeholder_id,
               on_graph (add_node placeholder_id KFunction short_name P3rd 0) v)
          end
      end
  end.

(** _handle_call, on the [func] field of the call node. *)
Definition _handle_call (func : ast) (v : Visitor) : Visitor :=
  match _resolve_name func with
  | None => v
  | Some called =>
      let '(target_id, v1) := _resolve_target called v in
      on_graph (add_edge (_current_scope_id v1) target_id Calls) v1
  end.

(** The body of the loop of _walk_body_for_calls for one child, given
    the function to recurse with. *)
Definition walk_child (rec : ast -> Visitor -> Visitor) (child : ast)
    (v : Visitor) : Visitor :=
  match child with
  | ClassDef _ _ _ _ _ | FunctionDef _ _ _ _ _ => v
  | Call f _ => rec child (_handle_call f v)
  | _ => rec child v
  end.

(** _walk_body_for_calls *)
Fixpoint _walk_body_for_calls (n : ast) (v : Visitor) {struct n} : Visitor :=
  let each :=
    fix each (cs : list ast) (v : Visitor) {struct cs} : Visitor :=
      match cs with
      | [] => v
      | c :: cs' => each cs' (walk_child _walk_body_for_calls c v)
      end in
  match n with
  | Import _ | ImportFrom _ | Name _ => v
  | ClassDef _ _ _ bases rest => each rest (each bases v)
  | FunctionDef _ _ _ _ cs => each cs v
  | Call f args => each args (walk_child _walk_body_for_calls f v)
  | Attribute val _ => walk_child _walk_body_for_calls val v
  | Other cs => each cs v
  end.

(** visit_Import *)
Definition visit_Import (names : list string) (v : Visitor) : Visitor :=
  fold_left
    (fun v alias_name =>
       let mod_id := "file:" ++ alias_name in
       let v1 := on_graph (add_node mod_id KFile alias_name P3rd 0) v in
       on_graph (add_edge (_current_scope_id v1) mod_id Imports) v1)
    names v.

(** visit_ImportFrom *)
Definition visit_ImportFrom (module : option string) (v : Visitor) : Visitor :=
  match module with
  | None => v
  | Some m =>
      let mod_id := "file:" ++ m in
      let v1 := on_graph (add_node mod_id KFile m P3rd 0) v in
      on_graph (add_edge (_current_scope_id v1) mod_id Imports) v1
  end.

(** The loop over [node.bases] of visit_ClassDef, for one base. *)
Definition visit_base (cls_id : string) (v : Visitor) (base : ast) : Visitor :=
  match _resolve_name base with
  | Some (String _ _ as base_name) =>
      let base_id := "class:" ++ base_name in
      let v1 := on_graph (add_node base_id KClass base_name P3rd 0) v in
      on_graph (add_edge cls_id base_id Is) v1
  | _ => v
  end.

(** NodeVisitor.visit, with visit_Import, visit_ImportFrom,
    visit_ClassDef, visit_FunctionDef / visit_AsyncFunctionDef (both
    _visit_function) and generic_visit for every other class. *)
Fixpoint visit (n : ast) (v : Visitor) {struct n} : Visitor :=
  let generic_visit :=
    fix generic_visit (cs : list ast) (v : Visitor) {struct cs} : Visitor :=
      match cs with
      | [] => v
      | c :: cs' => generic_visit cs' (visit c v)
      end in
  match n with
  | Import names => visit_Import names v
  | ImportFrom m => visit_ImportFrom m v
  | ClassDef name l e bases rest =>
      let cls_id := _make_id "class" name v in
      let v1 := on_graph (add_node cls_id KClass name P1st (def_loc l e)) v in
      let v2 := on_graph (add_edge (_current_scope_id v1) cls_id Has) v1 in
      let v3 := fold_left (visit_base cls_id) bases v2 in
      let v4 := push cls_id v3 in
      let v5 := generic_visit rest (generic_visit bases v4) in
      pop v5
  | FunctionDef _ name l e cs =>
      let func_id := _make_id "function" name v in
      let v1 := on_graph (add_node func_id KFunction name P1st (def_loc l e)) v in
      let v2 := on_graph (add_edge (_current_scope_id v1) func_id Has) v1 in
      let v3 := push func_id v2 in
      let v4 := _walk_body_for_calls n v3 in
      let v5 := generic_visit cs v4 in
      pop v5
  | Call f args => generic_visit args (visit f v)
  | Name _ => v
  | Attribute val _ => visit val v
  | Other cs => generic_visit cs v
  end.

(** [source.count("\n") + (1 if source and not source.endswith("\n") else 0)] *)
Definition file_loc (source : string) : Z :=
  (count_char newline source
   + (match source with
      | EmptyString => 0
      | _ => if ends_with_char newline source then 0 else 1
      end))%Z.

Section Run.

(** [ast.parse]: [None] stands for the SyntaxError it raises. *)
Variable ast_parse : string -> option ast.

(** CallGraphVisitor(graph, filepath, root).analyze(), as the graph it
    leaves behind. *)
Definition analyze (f : SourceFile) (g : Graph) : Graph :=
  let v := CallGraphVisitor g f in
  match ast_parse (source f) with
  | None => graph v
  | Some tree =>
      let v1 := on_graph (add_node (file_id v) KFile (last (rel_path v) "")
                                   P1st (file_loc (source f))) v in
      let v2 := push (file_id v1) v1 in
      let v3 := visit tree v2 in
      graph (pop v3)
  end.

(** ** Project scaffolder *)

(** The inner loop of build_graph's first pass, for one index [i] into
    the directory parts; the state is the graph and [dirs_seen]. *)
Definition scaffold_dir (parts : list string) (st : Graph * list string)
    (i : nat) : Graph * list string :=
  let '(g, dirs_seen) := st in
  let dir_path := join "/" (firstn (i + 1) parts) in
  let dir_id := "dir:" ++ dir_path in
  if existsb (String.eqb dir_id) dirs_seen then st
  else
    let g1 := add_node dir_id KDir (nth i parts "") P1st 0 g in
    let g2 := if (0 <? i)%nat
              then add_edge ("dir:" ++ join "/" (firstn i parts)) dir_id Has g1
              else g1 in
    (g2, dir_id :: dirs_seen).

(** The outer loop of the first pass, for one file. *)
Definition scaffold_file (st : Graph * list string) (f : SourceFile)
    : Graph * list string :=
  let parts := removelast (rel f) in
  let st1 := fold_left (scaffold_dir parts) (seq 0 (List.length parts)) st in
  let file_id := "file:" ++ rel_str (rel f) in
  let dir_path := join "/" parts in
  match dir_path with
  | EmptyString => st1
  | _ => (add_edge ("dir:" ++ dir_path) file_id Has (fst st1), snd st1)
  end.

Definition scaffold (py_files : list SourceFile) : Graph :=
  fst (fold_left scaffold_file py_files (Graph_empty, [])).

(** build_graph, from the list of discovered files on. *)
Definition build_graph (py_files : list SourceFile) : Graph :=
  fold_left (fun g f => analyze f g) py_files (scaffold py_files).

End Run.

(** ** The run, with the exceptions the walk of a file lets through

    [analyze] catches the SyntaxError of [ast.parse] and nothing else:
    any other exception the parser raises (a ValueError for a source
    that holds a null byte, a RecursionError for an expression nested
    too deep, a MemoryError) leaves [analyze], and leaves the loop of
    [build_graph], which has no handler: the run ends there. *)
Inductive parse_outcome : Type :=
| Parsed (tree : ast)
| Raises_SyntaxError
| Raises_other.

Section RunOutcomes.

(** [ast.parse], with every way it can end. *)
Variable parse : string -> parse_outcome.

(** The parser as the try/except of [analyze] sees it when nothing but
    a SyntaxError is raised. *)
Definition as_option (s : string) : option ast :=
  match parse s with
  | Parsed tree => Some tree
  | _ => None
  end.

(** CallGraphVisitor(graph, filepath, root).analyze(): the graph it
    leaves behind, or [None] when an exception leaves it. *)
Definition analyze_or_raise (f : SourceFile) (g : Graph) : option Graph :=
  let v := CallGraphVisitor g f in
  match parse (source f) with
  | Raises_other => None
  | Raises_SyntaxError => Some (graph v)
  | Parsed tree =>
      let v1 := on_graph (add_node (file_id v) KFile (last (rel_path v) "")
                                   P1st (file_loc (source f))) v in
      let v2 := push (file_id v1) v1 in
      let v3 := visit tree v2 in
      Some (graph (pop v3))
  end.

(** The second loop of build_graph: the first exception ends it. *)
Definition analyze_all (py_files : list SourceFile) (g : Graph) : option Graph :=
  fold_left
    (fun (og : option Graph) f =>
       match og with
       | Some g => analyze_or_raise f g
       | None => None
       end)
    py_files (Some g).

(** build_graph, from the list of discovered files on: the graph, or
    [None] when the run ends with an exception. *)
Definition build_graph_or_raise (py_files : list SourceFile) : option Graph :=
  analyze_all py_files (scaffold py_files).

End RunOutcomes.

(** ** Serializer *)

(** Node.dot_id *)
Definition Node_dot_id (n : Node) : string :=
  dq ++ escape_quotes (id n) ++ dq.

Definition shape (k : NodeKind) : string :=
  match k with
  | KDir => "folder" | KFile => "note" | KClass => "box" | KFunction => "ellipse"
  end.

Definition color_1st (k : NodeKind) : string :=
  match k with
  | KDir => "#cccccc" | KFile => "#aaddff"
  | KClass => "#ffddaa" | KFunction => "#ddffdd"
  end.

Definition color_3rd (k : NodeKind) : string :=
  match k with
  | KDir => "#e0e0e0" | KFile => "#d0d0d0"
  | KClass => "#d0d0d0" | KFunction => "#d0d0d0"
  end.

(** The fill color [c] of Node.dot_attrs. *)
Definition fillcolor (n : Node) : string :=
  (match party n with P1st => color_1st | P3rd => color_3rd end) (kind n).

(** The style of an edge kind in Edge.dot_attrs. *)
Definition styles (k : EdgeKind) : string :=
  match k with
  | Imports => "style=dashed color=" ++ dq ++ "#6666cc" ++ dq
               ++ " fontcolor=" ++ dq ++ "#6666cc" ++ dq
  | Calls => "color=" ++ dq ++ "#cc3333" ++ dq
             ++ " fontcolor=" ++ dq ++ "#cc3333" ++ dq
  | Has => "style=dotted color=" ++ dq ++ "#666666" ++ dq
           ++ " fontcolor=" ++ dq ++ "#666666" ++ dq
  | Is => "style=bold color=" ++ dq ++ "#33aa33" ++ dq
          ++ " fontcolor=" ++ dq ++ "#33aa33" ++ dq
  end.

(** Edge.dot_attrs *)
Definition Edge_dot_attrs (e : Edge) : string :=
  "[label=" ++ dq ++ EdgeKind_str (ekind e) ++ dq ++ " " ++ styles (ekind e) ++ "]".

(** [self.nodes[i]]: [None] stands for the KeyError of a missing key. *)
Definition nodes_getitem (ns : list Node) (i : string) : option Node :=
  get_node ns i.

Fixpoint mapM {A B : Type} (f : A -> option B) (l : list A) : option (list B) :=
  match l with
  | [] => Some []
  | a :: l' =>
      match f a with
      | None => None
      | Some b =>
          match mapM f l' with
          | None => None
          | Some bs => Some (b :: bs)
          end
      end
  end.

Section Serializer.

(** The texts of [f"{w:.2f}"] and [f"{h:.2f}"] for a node's [loc]: float
    arithmetic and float formatting, kept abstract. *)
Variable width_text height_text : Z -> string.

(** Node.dot_attrs *)
Definition Node_dot_attrs (n : Node) : string :=
  "[label=" ++ dq ++ label n ++ dq
  ++ " shape=" ++ shape (kind n)
  ++ " style=filled fillcolor=" ++ dq ++ fillcolor n ++ dq
  ++ " party=" ++ dq ++ Party_str (party n) ++ dq
  ++ " loc=" ++ str_of_Z (loc n)
  ++ " width=" ++ width_text (loc n)
  ++ " height=" ++ height_text (loc n) ++ "]".

(** [self.nodes[i].dot_id() if i in self.nodes else f'"{i}"'] *)
Definition endpoint (ns : list Node) (i : string) : option string :=
  if has_node ns i
  then match nodes_getitem ns i with
       | Some n => Some (Node_dot_id n)
       | None => None
       end
  else Some (dq ++ i ++ dq).

Definition node_line (n : Node) : string :=
  "  " ++ Node_dot_id n ++ " " ++ Node_dot_attrs n ++ ";".

Definition edge_line (ns : list Node) (e : Edge) : option string :=
  match endpoint ns (src e) with
  | None => None
  | Some s =>
      match endpoint ns (dst e) with
      | None => None
      | Some d => Some ("  " ++ s ++ " -> " ++ d ++ " " ++ Edge_dot_attrs e ++ ";")
      end
  end.

Definition dot_header : list string :=
  ["digraph callgraph {"; "  rankdir=LR;";
   "  node [fontname=Helvetica fontsize=10];";
   "  edge [fontname=Helvetica fontsize=8];"; ""].

(** Graph.write_dot, as the list [lines] and as the text written to the
    file; [None] stands for an exception. *)
Definition write_dot_lines (g : Graph) : option (list string) :=
  match mapM (edge_line (nodes g)) (edges g) with
  | None => None
  | Some els =>
      Some (dot_header ++ map node_line (nodes g) ++ [""] ++ els ++ ["}"])%list
  end.

Definition write_dot (g : Graph) : option string :=
  match write_dot_lines g with
  | None => None
  | Some lines =>
      Some (join (String newline "") lines ++ String newline "")
  end.

End Serializer.

(** ** Definitions that follow the words of the specification *)

(** The last dotted segment of a name: the last of the pieces between
    its dots. *)
Fixpoint dotted_segments (cur : string) (s : string) : list string :=
  match s with
  | EmptyString => [cur]
  | String c s' =>
      if Ascii.eqb c "."
      then cur :: dotted_segments "" s'
      else dotted_segments (cur ++ String c "") s'
  end.

Definition last_dotted_segment (name : string) : string :=
  last (dotted_segments "" name) "".

(** The id is nested under the file's id: it starts with it. *)
Definition nested_under (fid i : string) : bool := String.prefix fid i.

(** Target resolution as the specification orders it. *)
Definition resolve_target_spec (name : string) (v : Visitor) : string * Visitor :=
  let ns := nodes (graph v) in
  let class_or_function n := is_function_or_class (kind n) in
  match find (fun n => String.eqb (label n) name && class_or_function n) ns with
  | Some n => (id n, v)
  | None =>
      let seg := last_dotted_segment name in
      match find (fun n => String.eqb (label n) seg && class_or_function n
                           && nested_under (file_id v) (id n)) ns with
      | Some n => (id n, v)
      | None =>
          match find (fun n => String.eqb (label n) seg && class_or_function n) ns with
          | Some n => (id n, v)
          | None =>
              ("function:" ++ name,
               on_graph (add_node ("function:" ++ name) KFunction seg P3rd 0) v)
          end
      end
  end.

(** The [func] fields of the call expressions reachable from a node
    without crossing a nested function or class definition, in the
    order a depth-first walk meets them. *)
Fixpoint reachable_calls (n : ast) : list ast :=
  let below (c : ast) : list ast :=
    match c with
    | ClassDef _ _ _ _ _ | FunctionDef _ _ _ _ _ => []
    | Call f _ => f :: reachable_calls c
    | _ => reachable_calls c
    end in
  let all :=
    fix all (cs : list ast) : list ast :=
      match cs with
      | [] => []
      | c :: cs' => (below c ++ all cs')%list
      end in
  match n with
  | Import _ | ImportFrom _ | Name _ => []
  | ClassDef _ _ _ bases rest => (all bases ++ all rest)%list
  | FunctionDef _ _ _ _ cs => all cs
  | Call f args => (below f ++ all args)%list
  | Attribute val _ => below val
  | Other cs => all cs
  end.

(** The lines of a text: the pieces that end in a newline, and the
    last piece when it is not empty. *)
Fixpoint text_lines (cur : string) (s : string) : list string :=
  match s with
  | EmptyString => match cur with EmptyString => [] | _ => [cur] end
  | String c s' =>
      if Ascii.eqb c newline
      then cur :: text_lines "" s'
      else text_lines (cur ++ String c "") s'
  end.

Definition line_count (s : string) : Z := Z.of_nat (List.length (text_lines "" s)).

(** A name as the parser gives it to a definition: it holds no colon
    and no dot. *)
Definition ident_ok (s : string) : bool :=
  negb (contains_char ":" s) && negb (contains_char "." s).

(** A dotted module name as the parser gives it to an import: it holds
    no colon and no slash. *)
Definition module_ok (s : string) : bool :=
  negb (contains_char ":" s) && negb (contains_char "/" s).

(** The names of a tree are those of a parsed program. *)
Fixpoint names_ok (n : ast) : bool :=
  let all :=
    fix all (cs : list ast) : bool :=
      match cs with
      | [] => true
      | c :: cs' => names_ok c && all cs'
      end in
  match n with
  | Import names => forallb module_ok names
  | ImportFrom (Some m) => module_ok m
  | ImportFrom None => true
  | ClassDef name _ _ bases rest => ident_ok name && all bases && all rest
  | FunctionDef _ name _ _ cs => ident_ok name && all cs
  | Call f args => names_ok f && all args
  | Name _ => true
  | Attribute val _ => names_ok val
  | Other cs => all cs
  end.

(** [p.endswith(".py")]: the last three characters, read backwards. *)
Definition ends_py (s : string) : bool :=
  match rev (list_ascii_of_string s) with
  | "y"%char :: "p"%char :: "."%char :: _ => true
  | _ => false
  end.

(** The tree holds a function definition somewhere. *)
Fixpoint has_function (n : ast) : bool :=
  let any :=
    fix any (cs : list ast) : bool :=
      match cs with
      | [] => false
      | c :: cs' => has_function c || any cs'
      end in
  match n with
  | Import _ | ImportFrom _ | Name _ => false
  | ClassDef _ _ _ bases rest => any bases || any rest
  | FunctionDef _ _ _ _ _ => true
  | Call f args => has_function f || any args
  | Attribute val _ => has_function val
  | Other cs => any cs
  end.

(** ** The two loops over child nodes, as folds *)

(** The loop of _walk_body_for_calls over a list of children. *)
Definition walk_children (cs : list ast) (v : Visitor) : Visitor :=
  fold_left (fun v c => walk_child _walk_body_for_calls c v) cs v.

(** NodeVisitor.generic_visit over a list of children. *)
Definition generic_visit (cs : list ast) (v : Visitor) : Visitor :=
  fold_left (fun v c => visit c v) cs v.

(** The calls met below one child of a walked node. *)
Definition calls_below (c : ast) : list ast :=
  match c with
  | ClassDef _ _ _ _ _ | FunctionDef _ _ _ _ _ => []
  | Call f _ => f :: reachable_calls c
  | _ => reachable_calls c
  end.

(** _handle_call over a list of callee expressions, in order. *)
Definition handle_calls (fs : list ast) (v : Visitor) : Visitor :=
  fold_left (fun v f => _handle_call f v) fs v.

(** ** Invariants of the run *)

(** The id [i] is in the store, as a function node. *)
Definition is_fun_node (ns : list Node) (i : string) : Prop :=
  exists n, get_node ns i = Some n /\ kind n = KFunction.

(** Every calls edge starts at the id of a function node of the store. *)
Definition calls_ok (g : Graph) : Prop :=
  forall e, In e (edges g) -> ekind e = Calls -> is_fun_node (nodes g) (src e).

(** The id [_make_id] gives a definition of kind [k]: a scope id under a
    file, then "::k:" and a name of the program. *)
Definition own_def (k i : string) : Prop :=
  exists s nm, i = s ++ "::" ++ k ++ ":" ++ nm
               /\ String.prefix "file:" s = true /\ ident_ok nm = true.

(** What the ids of the nodes of each kind look like; [own] holds the
    ids of the files walked so far. *)
Definition node_ok (own : list string) (n : Node) : Prop :=
  match kind n with
  | KDir => String.prefix "dir:" (id n) = true
  | KFile => In (id n) own
             \/ (exists m, id n = "file:" ++ m /\ module_ok m = true)
  | KClass => String.prefix "class:" (id n) = true \/ own_def "class" (id n)
  | KFunction => String.prefix "function:" (id n) = true
                 \/ own_def "function" (id n)
  end.

(** The file id and every scope id of the visitor start with "file:". *)
Definition scope_ok (v : Visitor) : Prop :=
  String.prefix "file:" (file_id v) = true
  /\ Forall (fun s => String.prefix "file:" s = true) (_scope v).

(** A node the walker adds: never a directory, and, when the scope
    ids start with "file:" ([S]) and the names of the tree are those
    of a parsed program ([W]), of a known shape. *)
Definition walker_node (S W : Prop) (n : Node) : Prop :=
  kind n <> KDir /\ (S -> W -> node_ok [] n).

(** An edge the walker adds: its source is a scope id or a class id
    and, when it is a calls edge, it satisfies [P]. *)
Definition walker_edge (S : Prop) (P : string -> Prop) (e : Edge) : Prop :=
  (S -> String.prefix "file:" (src e) = true)
  /\ (ekind e = Calls -> P (src e)).

(** What one stretch of the walk does to the visitor: the file id, the
    path and the scope stack are as before, nodes and edges are only
    appended. *)
Definition step (S W : Prop) (P : string -> Prop) (v v' : Visitor) : Prop :=
  file_id v' = file_id v
  /\ rel_path v' = rel_path v
  /\ _scope v' = _scope v
  /\ exists ns es,
       nodes (graph v') = (nodes (graph v) ++ ns)%list
       /\ edges (graph v') = (edges (graph v) ++ es)%list
       /\ Forall (walker_node S W) ns
       /\ Forall (walker_edge S P) es.

(** The ids of the files of a run, and of those that parse. *)
Definition file_id_of (f : SourceFile) : string := "file:" ++ rel_str (rel f).

(** The callee expression resolves to a dotted name. *)
Definition resolvable (f : ast) : bool :=
  match _resolve_name f with Some _ => true | None => false end.

(** The targets [_handle_call] resolves for a list of callee
    expressions handled in order from the visitor [v]. *)
Fixpoint call_targets (fs : list ast) (v : Visitor) : list string :=
  match fs with
  | [] => []
  | f :: fs' =>
      match _resolve_name f with
      | None => call_targets fs' v
      | Some called =>
          fst (_resolve_target called v) :: call_targets fs' (_handle_call f v)
      end
  end.

Definition is_calls (e : Edge) : bool := EdgeKind_eqb (ekind e) Calls.

(** The file parses. *)
Definition parses (ast_parse : string -> option ast) (f : SourceFile) : bool :=
  match ast_parse (source f) with Some _ => true | None => false end.

(** The callee expressions of the calls that lie in the body of some
    function definition of the tree: for each function definition, the
    calls reachable from it, then those of the definitions nested in
    it. *)
Fixpoint function_calls (n : ast) : list ast :=
  let all :=
    fix all (cs : list ast) : list ast :=
      match cs with
      | [] => []
      | c :: cs' => (function_calls c ++ all cs')%list
      end in
  match n with
  | Import _ | ImportFrom _ | Name _ => []
  | ClassDef _ _ _ bases rest => (all bases ++ all rest)%list
  | FunctionDef _ _ _ _ cs => (reachable_calls n ++ all cs)%list
  | Call f args => (function_calls f ++ all args)%list
  | Attribute val _ => function_calls val
  | Other cs => all cs
  end.

(** The number of calls edges of a store. *)
Definition calls_count (g : Graph) : nat := List.length (filter is_calls (edges g)).

(** A node the scaffolder adds, and an edge it adds for the files
    [files]. *)
Definition dir_node (n : Node) : Prop :=
  kind n = KDir /\ party n = P1st /\ String.prefix "dir:" (id n) = true.

Definition scaffold_edge (files : list SourceFile) (e : Edge) : Prop :=
  ekind e = Has /\ String.prefix "dir:" (src e) = true
  /\ (String.prefix "dir:" (dst e) = true
      \/ exists f, In f files /\ dst e = file_id_of f
                   /\ join "/" (removelast (rel f)) <> "").

(** What the run assumes of its input: the discovered files are the
    ".py" files the scaffolder globs for, and the trees the parser
    returns carry names of a parsed program. *)
Definition run_ok (ast_parse : string -> option ast) (files : list SourceFile) : Prop :=
  (forall f, In f files -> ends_py (rel_str (rel f)) = true)
  /\ (forall f tree, In f files -> ast_parse (source f) = Some tree ->
        names_ok tree = true).

(** The ids of the files of a run that parse. *)
Definition own_ids (ast_parse : string -> option ast) (files : list SourceFile)
  : list string :=
  map file_id_of (filter (parses ast_parse) files).

(** The visitor's scope ids and the nodes of its store have the known
    shapes. *)
Definition store_ok (own : list string) (v : Visitor) : Prop :=
  scope_ok v /\ Forall (node_ok own) (nodes (graph v)).

(** A store grows: nodes and edges are appended, the new ones with the
    properties [PN] and [PE]. *)
Definition grows (PN : Node -> Prop) (PE : Edge -> Prop) (g g' : Graph) : Prop :=
  exists ns es,
    nodes g' = (nodes g ++ ns)%list /\ edges g' = (edges g ++ es)%list
    /\ Forall PN ns /\ Forall PE es.

(** A path part holds no slash. *)
Definition slash_free (s : string) : Prop := contains_char "/" s = false.

(** The directory with the parts [l] has its node and, when it is not
    at the top, the has edge from its parent directory. *)
Definition dir_done (g : Graph) (l : list string) : Prop :=
  (exists n, get_node (nodes g) ("dir:" ++ join "/" l) = Some n /\ kind n = KDir)
  /\ (2 <= List.length l ->
      In (mkEdge ("dir:" ++ join "/" (removelast l)) ("dir:" ++ join "/" l) Has)
         (edges g)).

(** The state of the scaffolder's loops: every node is a directory
    node, and every id of [dirs_seen] is a directory that is done. *)
Definition scaffold_inv (st : Graph * list string) : Prop :=
  Forall dir_node (nodes (fst st))
  /\ forall d, In d (snd st) ->
       exists l, l <> [] /\ Forall slash_free l
                 /\ d = "dir:" ++ join "/" l /\ dir_done (fst st) l.

(** ** A small project, to run the definitions on *)

(** A parser that knows three texts. *)
Definition demo_parse (s : string) : option ast :=
  if String.eqb s "def f(): g(h())"
  then Some (Other [FunctionDef false "f" 1%Z (Some 1%Z)
                      [Other []; Other [Call (Name "g") [Call (Name "h") []]]]])
  else if String.eqb s "import os"
  then Some (Other [Import ["os"]])
  else if String.eqb s "g()"
  then Some (Other [Other [Call (Name "g") []]])
  else None.

Definition demo_good : SourceFile := mkSourceFile ["pkg"; "good.py"] "def f(): g(h())".
Definition demo_bad : SourceFile := mkSourceFile ["pkg"; "bad.py"] "def f(:".
Definition demo_deep : SourceFile := mkSourceFile ["a"; "b"; "c.py"] "import os".
Definition demo_deep_bad : SourceFile := mkSourceFile ["a"; "b"; "c.py"] "import (".
Definition demo_root : SourceFile := mkSourceFile ["top.py"] "g()".

(** A parser that raises a ValueError on a source that holds a null
    byte, and otherwise a SyntaxError where [demo_parse] has no tree. *)
Definition nul : ascii := Ascii.ascii_of_nat 0.

Definition demo_parse_outcome (s : string) : parse_outcome :=
  if contains_char nul s then Raises_other
  else match demo_parse s with
       | Some tree => Parsed tree
       | None => Raises_SyntaxError
       end.

Definition demo_nul : SourceFile :=
  mkSourceFile ["pkg"; "nul.py"] (String nul "x = 1").

(** ** What a walk does to the visitor, in general *)

(** The visitor [v'] comes from [v] by a stretch of the walk: same file
    id, path and scope stack; nodes with [PN] and edges with [PE]
    appended, [PE] being read against the nodes of the store the
    stretch ends in. *)
Definition evolves (PN : Node -> Prop) (PE : list Node -> Edge -> Prop)
    (v v' : Visitor) : Prop :=
  file_id v' = file_id v
  /\ rel_path v' = rel_path v
  /\ _scope v' = _scope v
  /\ exists ns es,
       nodes (graph v') = (nodes (graph v) ++ ns)%list
       /\ edges (graph v') = (edges (graph v) ++ es)%list
       /\ Forall PN ns
       /\ Forall (PE (nodes (graph v'))) es.

(** ** Edges and their endpoints *)

(** A node whose id starts with "function:" is a function node. *)
Definition placeholder_kind (n : Node) : Prop :=
  String.prefix "function:" (id n) = true -> kind n = KFunction.

(** Both ends of the edge have a node among [ns], and a calls edge
    ends at a function or class node. *)
Definition anchored (ns : list Node) (e : Edge) : Prop :=
  has_node ns (src e) = true
  /\ has_node ns (dst e) = true
  /\ (ekind e = Calls ->
      exists n, In n ns /\ id n = dst e
                /\ is_function_or_class (kind n) = true).

(** The scope ids start with "file:", the current scope has its node,
    and the ids that start with "function:" are those of function
    nodes. *)
Definition live (v : Visitor) : Prop :=
  scope_ok v
  /\ has_node (nodes (graph v)) (_current_scope_id v) = true
  /\ Forall placeholder_kind (nodes (graph v)).

(** The state of the scaffolder's loops, for the endpoints of its
    edges: the ids of [dirs_seen] have their nodes, and every edge
    starts at a node and ends at a node or at the id of a file of
    [files]. *)
Definition scaffold_anchored (files : list SourceFile)
    (st : Graph * list string) : Prop :=
  (forall d, In d (snd st) -> has_node (nodes (fst st)) d = true)
  /\ (forall e, In e (edges (fst st)) ->
        ekind e = Has
        /\ has_node (nodes (fst st)) (src e) = true
        /\ (has_node (nodes (fst st)) (dst e) = true
            \/ exists f, In f files
                 /\ e = mkEdge ("dir:" ++ join "/" (removelast (rel f)))
                               (file_id_of f) Has)).


(** ** The shapes of ids and edges *)

(** The file lies in a directory below the root, as the root
    build_graph chooses makes every discovered file. *)
Definition below_root (f : SourceFile) : Prop := 2 <= List.length (rel f).

(** What a node is, read off its id: an id that starts with "class:"
    or "function:" is that of a placeholder, and so is, in a run whose
    files lie below the root ([B]), one made of "file:" and a module
    name. *)
Definition external_shape (B : Prop) (n : Node) : Prop :=
  (forall b, id n = "class:" ++ b -> n = mkNode ("class:" ++ b) KClass b P3rd 0)
  /\ (forall x, id n = "function:" ++ x ->
        n = mkNode ("function:" ++ x) KFunction (short_name_of x) P3rd 0)
  /\ (B -> forall m, id n = "file:" ++ m -> module_ok m = true ->
        n = mkNode ("file:" ++ m) KFile m P3rd 0).

(** What a node is, read off its party: an own node has an id under
    "dir:" or "file:"; an external node is not a directory, has size 0
    and the id made of its kind, a colon and the name it stands for,
    its label being that name (the short name, for a function). *)
Definition origin_shape (n : Node) : Prop :=
  match party n with
  | P1st => String.prefix "dir:" (id n) = true \/ String.prefix "file:" (id n) = true
  | P3rd =>
      loc n = 0%Z /\ kind n <> KDir
      /\ exists x, id n = NodeKind_str (kind n) ++ ":" ++ x
                   /\ label n = match kind n with
                                | KFunction => short_name_of x
                                | _ => x
                                end
  end.

Definition node_shape (B : Prop) (n : Node) : Prop :=
  external_shape B n /\ origin_shape n.

(** What an edge of the walk looks like, by its kind. *)
Definition edge_shape (ns : list Node) (e : Edge) : Prop :=
  String.prefix "file:" (src e) = true
  /\ match ekind e with
     | Imports => exists m, dst e = "file:" ++ m
     | Is => (exists s name, src e = s ++ "::class:" ++ name)
             /\ exists b, dst e = "class:" ++ b
     | Has => exists k name, (k = KClass \/ k = KFunction)
                /\ dst e = src e ++ "::" ++ NodeKind_str k ++ ":" ++ name
     | Calls => True
     end.

(** The edge goes to a strictly longer id. *)
Definition lengthens (e : Edge) : Prop :=
  String.length (src e) < String.length (dst e).

(** ** The store as a dict *)

(** No two nodes of the store have the same id: the list of nodes is
    the list of values of a dict keyed by id. *)
Definition unique_ids (g : Graph) : Prop := NoDup (map id (nodes g)).

(** ** The scaffolder's nodes and edges *)

(** A directory node as the scaffolder makes it: for a directory
    above some discovered file, the id is "dir:" and the path of the
    directory, the label the last part of that path. *)
Definition dir_node_of (files : list SourceFile) (n : Node) : Prop :=
  exists f l rest,
    In f files /\ l <> [] /\ removelast (rel f) = (l ++ rest)%list
    /\ n = mkNode ("dir:" ++ join "/" l) KDir (last l "") P1st 0.

(** The state of the scaffolder's loops after the files [done]: no
    edge occurs twice, the ids of [dirs_seen] are directory ids, and
    every edge ends at an id of [dirs_seen] or at the id of a file of
    [done]. *)
Definition scaffold_fresh (done : list SourceFile) (st : Graph * list string) : Prop :=
  NoDup (edges (fst st))
  /\ Forall (fun d => String.prefix "dir:" d = true) (snd st)
  /\ forall e, In e (edges (fst st)) ->
       In (dst e) (snd st) \/ exists f, In f done /\ dst e = file_id_of f.

(** ** The summary of main *)

Definition NodeKind_eqb (a b : NodeKind) : bool :=
  match a, b with
  | KDir, KDir | KFile, KFile | KClass, KClass | KFunction, KFunction => true
  | _, _ => false
  end.

(** A dict with integer values, as the list of its items in insertion
    order: [d.get(k, default)] and [d[k] = c]. *)
Fixpoint dict_get {K : Type} (eqb : K -> K -> bool) (d : list (K * Z)) (k : K)
    (default : Z) : Z :=
  match d with
  | [] => default
  | (k', c) :: d' => if eqb k' k then c else dict_get eqb d' k default
  end.

Fixpoint dict_set {K : Type} (eqb : K -> K -> bool) (d : list (K * Z)) (k : K)
    (c : Z) : list (K * Z) :=
  match d with
  | [] => [(k, c)]
  | (k', c') :: d' =>
      if eqb k' k then (k', c) :: d' else (k', c') :: dict_set eqb d' k c
  end.

(** The loops [for x in xs: by_kind[x.kind] = by_kind.get(x.kind, 0) + 1]. *)
Definition count_by {A K : Type} (eqb : K -> K -> bool) (key : A -> K)
    (xs : list A) : list (K * Z) :=
  fold_left (fun d x => dict_set eqb d (key x) (dict_get eqb d (key x) 0 + 1)%Z)
            xs [].

Definition n_by_kind (g : Graph) : list (NodeKind * Z) :=
  count_by NodeKind_eqb kind (nodes g).

Definition e_by_kind (g : Graph) : list (EdgeKind * Z) :=
  count_by EdgeKind_eqb ekind (edges g).

(** The sum of the values of a dict. *)
Definition dict_total {K : Type} (d : list (K * Z)) : Z :=
  fold_right Z.add 0%Z (map snd d).
(** ** Graph store: lookup lemmas *)

Lemma get_node_app ns ms i :
  get_node (ns ++ ms) i =
  match get_node ns i with Some n => Some n | None => get_node ms i end.
Proof.
  unfold get_node. induction ns as [|n ns IH]; simpl; [reflexivity|].
  destruct (String.eqb (id n) i); [reflexivity|exact IH].
Qed.

Lemma get_node_id ns i n : get_node ns i = Some n -> id n = i.
Proof.
  unfold get_node. intros H. apply find_some in H.
  destruct H as [_ H]. now apply String.eqb_eq.
Qed.

Lemma get_node_In ns i n : get_node ns i = Some n -> In n ns.
Proof. unfold get_node. intros H. now apply find_some in H. Qed.

Lemma get_node_None ns i :
  get_node ns i = None <-> (forall n, In n ns -> id n <> i).
Proof.
  unfold get_node. split.
  - intros H n Hn E. apply (find_none _ _ H) in Hn.
    apply String.eqb_neq in Hn. contradiction.
  - intros H. induction ns as [|n ns IH]; simpl; [reflexivity|].
    destruct (String.eqb_spec (id n) i) as [E|E].
    + exfalso. apply (H n); [now left|exact E].
    + apply IH. intros m Hm. apply H. now right.
Qed.

Lemma add_node_present i k l p sz g n :
  get_node (nodes g) i = Some n -> add_node i k l p sz g = g.
Proof. intros H. unfold add_node, has_node. now rewrite H. Qed.

Lemma add_node_absent i k l p sz g :
  get_node (nodes g) i = None ->
  add_node i k l p sz g = mkGraph (nodes g ++ [mkNode i k l p sz]) (edges g).
Proof. intros H. unfold add_node, has_node. now rewrite H. Qed.

Lemma add_node_keeps i k l p sz g j n :
  get_node (nodes g) j = Some n ->
  get_node (nodes (add_node i k l p sz g)) j = Some n.
Proof.
  intros H. unfold add_node. destruct (has_node (nodes g) i); [exact H|].
  simpl. rewrite get_node_app. now rewrite H.
Qed.

Lemma add_node_gets i k l p sz g :
  get_node (nodes g) i = None ->
  get_node (nodes (add_node i k l p sz g)) i = Some (mkNode i k l p sz).
Proof.
  intros H. rewrite (add_node_absent _ _ _ _ _ _ H). simpl.
  rewrite get_node_app, H. unfold get_node. simpl.
  now rewrite String.eqb_refl.
Qed.

Lemma add_node_edges i k l p sz g :
  edges (add_node i k l p sz g) = edges g.
Proof. unfold add_node. now destruct (has_node (nodes g) i). Qed.

Lemma run_add_nodes_keep cs : forall g j n,
  get_node (nodes g) j = Some n ->
  get_node (nodes (fold_left run_add_node cs g)) j = Some n.
Proof.
  induction cs as [|c cs IH]; intros g j n H; simpl; [exact H|].
  apply IH. destruct c as [[[[i k] l] p] sz]. simpl.
  now apply add_node_keeps.
Qed.

Lemma add_node_nodes_app i k l p sz g :
  exists extra, nodes (add_node i k l p sz g) = (nodes g ++ extra)%list
                /\ (extra = [] \/ (extra = [mkNode i k l p sz]
                                   /\ get_node (nodes g) i = None)).
Proof.
  unfold add_node, has_node.
  destruct (get_node (nodes g) i) eqn:E.
  - exists []. rewrite app_nil_r. auto.
  - exists [mkNode i k l p sz]. simpl. auto.
Qed.

Lemma add_node_has i k l p sz g :
  exists n, get_node (nodes (add_node i k l p sz g)) i = Some n.
Proof.
  destruct (get_node (nodes g) i) as [n|] eqn:E.
  - exists n. now apply add_node_keeps.
  - eexists. now apply add_node_gets.
Qed.

(** ** Strings as lists of characters *)

Lemma list_of_append (a b : string) :
  list_ascii_of_string (a ++ b)
  = (list_ascii_of_string a ++ list_ascii_of_string b)%list.
Proof. induction a as [|c a IH]; simpl; [reflexivity|now rewrite IH]. Qed.

Lemma list_of_string_inj (a b : string) :
  list_ascii_of_string a = list_ascii_of_string b -> a = b.
Proof.
  intros H. rewrite <- (string_of_list_ascii_of_string a).
  rewrite <- (string_of_list_ascii_of_string b). now rewrite H.
Qed.

Lemma append_assoc (a b c : string) : (a ++ b) ++ c = a ++ (b ++ c).
Proof. induction a as [|x a IH]; simpl; [reflexivity|now rewrite IH]. Qed.

Lemma append_nil_r (a : string) : a ++ "" = a.
Proof. induction a as [|x a IH]; simpl; [reflexivity|now rewrite IH]. Qed.

Lemma append_inv_head (a b c : string) : a ++ b = a ++ c -> b = c.
Proof. induction a as [|x a IH]; simpl; intros H; [exact H|]. injection H. exact IH. Qed.

Lemma length_append (a b : string) :
  String.length (a ++ b) = String.length a + String.length b.
Proof. induction a as [|x a IH]; simpl; [reflexivity|now rewrite IH]. Qed.

Lemma prefix_append (p s : string) : String.prefix p (p ++ s) = true.
Proof.
  induction p as [|c p IH]; simpl; [now destruct s|].
  destruct (ascii_dec c c) as [_|N]; [exact IH|now elim N].
Qed.

Lemma prefix_inv (p s : string) :
  String.prefix p s = true -> exists r, s = p ++ r.
Proof.
  revert s. induction p as [|c p IH]; intros s H.
  - exists s. reflexivity.
  - destruct s as [|d s]; simpl in H; [discriminate|].
    destruct (ascii_dec c d) as [E|N]; [|discriminate].
    destruct (IH _ H) as [r Hr]. exists r. simpl. now rewrite E, Hr.
Qed.

Lemma prefix_trans (a b c : string) :
  String.prefix a b = true -> String.prefix b c = true -> String.prefix a c = true.
Proof.
  intros H1 H2. apply prefix_inv in H1. apply prefix_inv in H2.
  destruct H1 as [r1 ->]. destruct H2 as [r2 ->].
  rewrite append_assoc. apply prefix_append.
Qed.

Lemma contains_char_append c (a b : string) :
  contains_char c (a ++ b) = contains_char c a || contains_char c b.
Proof.
  induction a as [|x a IH]; simpl; [reflexivity|].
  rewrite IH. now rewrite orb_assoc.
Qed.

(** ** Induction over syntax trees *)

Lemma ast_ind (P : ast -> Prop)
  (HImport : forall names, P (Import names))
  (HImportFrom : forall m, P (ImportFrom m))
  (HClassDef : forall name l e bases rest,
      Forall P bases -> Forall P rest -> P (ClassDef name l e bases rest))
  (HFunctionDef : forall a name l e cs,
      Forall P cs -> P (FunctionDef a name l e cs))
  (HCall : forall f args, P f -> Forall P args -> P (Call f args))
  (HName : forall i, P (Name i))
  (HAttribute : forall val a, P val -> P (Attribute val a))
  (HOther : forall cs, Forall P cs -> P (Other cs)) :
  forall n, P n.
Proof.
  fix IH 1. intros n.
  assert (IHs : forall cs, Forall P cs).
  { intros cs. induction cs as [|c cs IHcs]; constructor.
    - apply IH.
    - exact IHcs. }
  destruct n.
  - apply HImport.
  - apply HImportFrom.
  - apply HClassDef; apply IHs.
  - apply HFunctionDef; apply IHs.
  - apply HCall; [apply IH|apply IHs].
  - apply HName.
  - apply HAttribute; apply IH.
  - apply HOther; apply IHs.
Qed.

(** ** The walkers, unfolded one level *)

Lemma walk_children_app cs ds v :
  walk_children (cs ++ ds) v = walk_children ds (walk_children cs v).
Proof. unfold walk_children. now rewrite fold_left_app. Qed.

Lemma generic_visit_app cs ds v :
  generic_visit (cs ++ ds) v = generic_visit ds (generic_visit cs v).
Proof. unfold generic_visit. now rewrite fold_left_app. Qed.

Lemma _walk_body_for_calls_eq n v :
  _walk_body_for_calls n v = walk_children (iter_child_nodes n) v.
Proof.
  assert (E : forall cs v,
    (fix each (cs : list ast) (v : Visitor) {struct cs} : Visitor :=
       match cs with
       | [] => v
       | c :: cs' => each cs' (walk_child _walk_body_for_calls c v)
       end) cs v = walk_children cs v).
  { induction cs as [|c cs IH]; intros w; [reflexivity|]. simpl. now rewrite IH. }
  destruct n; simpl; try reflexivity.
  rewrite walk_children_app. now rewrite !E.
Qed.

Lemma visit_eq n v :
  visit n v =
  match n with
  | Import names => visit_Import names v
  | ImportFrom m => visit_ImportFrom m v
  | ClassDef name l e bases rest =>
      let cls_id := _make_id "class" name v in
      let v1 := on_graph (add_node cls_id KClass name P1st (def_loc l e)) v in
      let v2 := on_graph (add_edge (_current_scope_id v1) cls_id Has) v1 in
      let v3 := fold_left (visit_base cls_id) bases v2 in
      pop (generic_visit (bases ++ rest) (push cls_id v3))
  | FunctionDef _ name l e cs =>
      let func_id := _make_id "function" name v in
      let v1 := on_graph (add_node func_id KFunction name P1st (def_loc l e)) v in
      let v2 := on_graph (add_edge (_current_scope_id v1) func_id Has) v1 in
      pop (generic_visit cs (_walk_body_for_calls n (push func_id v2)))
  | Call f args => generic_visit (f :: args) v
  | Name _ => v
  | Attribute val _ => generic_visit [val] v
  | Other cs => generic_visit cs v
  end.
Proof.
  assert (E : forall cs v,
    (fix generic_visit (cs : list ast) (v : Visitor) {struct cs} : Visitor :=
       match cs with
       | [] => v
       | c :: cs' => generic_visit cs' (visit c v)
       end) cs v = generic_visit cs v).
  { induction cs as [|c cs IH]; intros w; [reflexivity|]. simpl. now rewrite IH. }
  destruct n; try reflexivity.
  cbn zeta. rewrite generic_visit_app. rewrite <- !E. reflexivity.
Qed.

Lemma reachable_calls_eq n :
  reachable_calls n = flat_map calls_below (iter_child_nodes n).
Proof.
  assert (E : forall cs,
    (fix all (cs : list ast) : list ast :=
       match cs with
       | [] => []
       | c :: cs' =>
           (match c with
            | ClassDef _ _ _ _ _ | FunctionDef _ _ _ _ _ => []
            | Call f _ => f :: reachable_calls c
            | _ => reachable_calls c
            end ++ all cs')%list
       end) cs = flat_map calls_below cs).
  { induction cs as [|c cs IH]; [reflexivity|]. rewrite IH. reflexivity. }
  destruct n; try reflexivity.
  - cbn [iter_child_nodes]. rewrite flat_map_app, <- !E. reflexivity.
  - cbn [iter_child_nodes flat_map]. rewrite app_nil_r. reflexivity.
Qed.
(** ** Steps of the walk *)

Lemma step_refl S W P v : step S W P v v.
Proof.
  repeat split. exists [], []. rewrite !app_nil_r. repeat split; constructor.
Qed.

Lemma step_trans S W P v1 v2 v3 :
  step S W P v1 v2 -> step S W P v2 v3 -> step S W P v1 v3.
Proof.
  intros (F1 & R1 & S1 & ns1 & es1 & N1 & E1 & FN1 & FE1)
         (F2 & R2 & S2 & ns2 & es2 & N2 & E2 & FN2 & FE2).
  repeat split; try congruence.
  exists (ns1 ++ ns2)%list, (es1 ++ es2)%list.
  rewrite N2, N1, E2, E1, !app_assoc.
  repeat split; apply Forall_app; split; assumption.
Qed.

Lemma step_weaken S W (P Q : string -> Prop) v v' :
  (forall s, P s -> Q s) -> step S W P v v' -> step S W Q v v'.
Proof.
  intros PQ (F1 & R1 & S1 & ns1 & es1 & N1 & E1 & FN1 & FE1).
  repeat split; try assumption.
  exists ns1, es1. repeat split; try assumption.
  eapply Forall_impl; [|exact FE1].
  intros e [A B]. split; [exact A|]. intros K. apply PQ. now apply B.
Qed.

Lemma step_current S W P v v' :
  step S W P v v' -> _current_scope_id v' = _current_scope_id v.
Proof.
  intros (F1 & R1 & S1 & _). unfold _current_scope_id. now rewrite F1, S1.
Qed.

Lemma step_scope_ok S W P v v' : step S W P v v' -> scope_ok v -> scope_ok v'.
Proof.
  intros (F1 & R1 & S1 & _) [A B]. unfold scope_ok. now rewrite F1, S1.
Qed.

Lemma scope_ok_current v :
  scope_ok v -> String.prefix "file:" (_current_scope_id v) = true.
Proof.
  intros [A B]. unfold _current_scope_id.
  destruct (_scope v) as [|s ss] eqn:E using rev_ind; [exact A|].
  rewrite last_last. apply Forall_app in B. destruct B as [_ B].
  now inversion B.
Qed.

Lemma step_add_node S W P i k l p sz v :
  walker_node S W (mkNode i k l p sz) ->
  step S W P v (on_graph (add_node i k l p sz) v).
Proof.
  intros H. repeat split.
  destruct (add_node_nodes_app i k l p sz (graph v)) as (extra & E & C).
  exists extra, []. simpl. rewrite E, add_node_edges, app_nil_r.
  repeat split; [|constructor].
  destruct C as [->|[-> _]]; repeat constructor; apply H.
Qed.

Lemma step_add_edge S W (P : string -> Prop) s d k v :
  (S -> String.prefix "file:" s = true) -> (k = Calls -> P s) ->
  step S W P v (on_graph (add_edge s d k) v).
Proof.
  intros H1 H2. repeat split.
  exists [], [mkEdge s d k]. simpl. rewrite app_nil_r.
  repeat split; repeat constructor; assumption.
Qed.

Lemma fold_step {A} S W P (f : Visitor -> A -> Visitor) (Q : A -> Prop) (I : Visitor -> Prop) l :
  (forall a v, Q a -> I v -> step S W P v (f v a) /\ I (f v a)) ->
  Forall Q l -> forall v, I v -> step S W P v (fold_left f l v) /\ I (fold_left f l v).
Proof.
  intros Hf HQ. induction HQ as [|a l Ha Hl IH]; intros v Hv; simpl.
  - split; [apply step_refl|exact Hv].
  - destruct (Hf a v Ha Hv) as [S1 I1].
    destruct (IH _ I1) as [S2 I2]. split; [|exact I2].
    eapply step_trans; eassumption.
Qed.
Lemma ast_children_ind (P : ast -> Prop) :
  (forall n, Forall P (iter_child_nodes n) -> P n) -> forall n, P n.
Proof.
  intros H. induction n using ast_ind; apply H; simpl; auto.
  - apply Forall_app. now split.
Qed.

Lemma push_pop_step S W P i v v' :
  step S W P (push i v) v' -> step S W P v (pop v').
Proof.
  intros (F1 & R1 & S1 & ns & es & N1 & E1 & FN & FE).
  repeat split; try assumption.
  - simpl. rewrite S1. simpl. apply removelast_last.
  - exists ns, es. repeat split; assumption.
Qed.

Lemma current_push i v : _current_scope_id (push i v) = i.
Proof. unfold _current_scope_id. simpl. apply last_last. Qed.

Lemma scope_ok_push i v :
  scope_ok v -> String.prefix "file:" i = true -> scope_ok (push i v).
Proof.
  intros [A B] H. split; [exact A|]. simpl. apply Forall_app. split; [exact B|].
  now constructor.
Qed.

Lemma prefix_file_append (s t : string) :
  String.prefix "file:" s = true -> String.prefix "file:" (s ++ t) = true.
Proof.
  intros H. apply prefix_inv in H. destruct H as [r ->].
  rewrite append_assoc. apply prefix_append.
Qed.

Lemma _resolve_target_step S W P name v :
  step S W P v (snd (_resolve_target name v)).
Proof.
  unfold _resolve_target.
  destruct (find _ (nodes (graph v))); [apply step_refl|].
  destruct (split_matches _ _ _) as [[|i sf] [|j ot]]; try apply step_refl.
  simpl. apply step_add_node. split; [discriminate|].
  intros _ _. left. apply (prefix_append "function:" name).
Qed.

Lemma _handle_call_step S W f v :
  (S -> scope_ok v) ->
  step S W (eq (_current_scope_id v)) v (_handle_call f v).
Proof.
  intros HS. unfold _handle_call.
  destruct (_resolve_name f) as [called|]; [|apply step_refl].
  pose proof (_resolve_target_step S W (eq (_current_scope_id v)) called v) as H.
  destruct (_resolve_target called v) as [t v1]. simpl in H.
  eapply step_trans; [exact H|].
  apply step_add_edge.
  - intros w. apply scope_ok_current. eapply step_scope_ok; eauto.
  - intros _. symmetry. eapply step_current; eauto.
Qed.

Lemma _walk_body_for_calls_step S W n : forall v,
  (S -> scope_ok v) ->
  step S W (eq (_current_scope_id v)) v (_walk_body_for_calls n v).
Proof.
  induction n as [n IH] using ast_children_ind. intros v HS.
  rewrite _walk_body_for_calls_eq. unfold walk_children.
  refine (proj1 (fold_step S W (eq (_current_scope_id v))
           (fun v c => walk_child _walk_body_for_calls c v)
           (fun c => forall v, (S -> scope_ok v) ->
               step S W (eq (_current_scope_id v)) v (_walk_body_for_calls c v))
           (fun w => _current_scope_id w = _current_scope_id v
                     /\ (S -> scope_ok w)) _ _ IH v _)); [|now split].
  intros c w Hc [Hcur Hw].
  assert (Hh : forall f, step S W (eq (_current_scope_id v)) w (_handle_call f w)).
  { intros f. rewrite <- Hcur. now apply _handle_call_step. }
  assert (K : forall w', step S W (eq (_current_scope_id v)) w w' ->
              step S W (eq (_current_scope_id v)) w (_walk_body_for_calls c w')
              /\ _current_scope_id (_walk_body_for_calls c w') = _current_scope_id v
              /\ (S -> scope_ok (_walk_body_for_calls c w'))).
  { intros w' Hs.
    assert (Hw' : S -> scope_ok w') by (intros x; eapply step_scope_ok; eauto).
    assert (C' : _current_scope_id w' = _current_scope_id v)
      by (rewrite <- Hcur; eapply step_current; eauto).
    pose proof (Hc w' Hw') as H1. rewrite C' in H1.
    split; [eapply step_trans; eauto|]. split.
    - rewrite <- C'. eapply step_current; eauto.
    - intros x. eapply step_scope_ok; eauto. }
  destruct c; simpl; try (apply K; apply step_refl);
    try (split; [apply step_refl|now split]).
  apply K. apply Hh.
Qed.
Lemma names_ok_children n :
  names_ok n = true -> Forall (fun c => names_ok c = true) (iter_child_nodes n).
Proof.
  assert (E : forall cs,
    (fix all (cs : list ast) : bool :=
       match cs with
       | [] => true
       | c :: cs' => names_ok c && all cs'
       end) cs = true -> Forall (fun c => names_ok c = true) cs).
  { induction cs as [|c cs IH]; intros H; constructor;
      apply andb_true_iff in H; destruct H; auto. }
  destruct n; simpl; intros H; auto.
  - apply andb_true_iff in H. destruct H as [H H2].
    apply andb_true_iff in H. destruct H as [_ H1].
    apply Forall_app. split; auto.
  - apply andb_true_iff in H. destruct H as [_ H]. auto.
Qed.

Lemma names_ok_ClassDef name l e bases rest :
  names_ok (ClassDef name l e bases rest) = true -> ident_ok name = true.
Proof.
  simpl. intros H. apply andb_true_iff in H. destruct H as [H _].
  apply andb_true_iff in H. now destruct H.
Qed.

Lemma names_ok_FunctionDef a name l e cs :
  names_ok (FunctionDef a name l e cs) = true -> ident_ok name = true.
Proof. simpl. intros H. apply andb_true_iff in H. now destruct H. Qed.

Lemma Forall_and_imp {A} (W : Prop) (P Q : A -> Prop) l :
  Forall P l -> (W -> Forall Q l) -> Forall (fun a => P a /\ (W -> Q a)) l.
Proof.
  induction 1 as [|a l Ha Hl IH]; intros H; constructor.
  - split; [exact Ha|]. intros w. specialize (H w). now inversion H.
  - apply IH. intros w. specialize (H w). now inversion H.
Qed.

Lemma _make_id_eq k name v :
  _make_id k name v = _current_scope_id v ++ "::" ++ k ++ ":" ++ name.
Proof. reflexivity. Qed.

Lemma _make_id_longer k name v :
  String.length (_current_scope_id v) < String.length (_make_id k name v).
Proof. rewrite _make_id_eq, !length_append. simpl. lia. Qed.

Lemma _make_id_prefix k name v :
  scope_ok v -> String.prefix "file:" (_make_id k name v) = true.
Proof.
  intros H. rewrite _make_id_eq. apply prefix_file_append.
  now apply scope_ok_current.
Qed.

Lemma _make_id_own_def k name v :
  scope_ok v -> ident_ok name = true -> own_def k (_make_id k name v).
Proof.
  intros H1 H2. exists (_current_scope_id v), name. repeat split; auto.
  now apply scope_ok_current.
Qed.

Lemma import_step S W (P : string -> Prop) m v :
  (W -> module_ok m = true) -> (S -> scope_ok v) ->
  step S W P v
    (on_graph (add_edge (_current_scope_id (on_graph (add_node ("file:" ++ m) KFile m P3rd 0) v))
                        ("file:" ++ m) Imports)
              (on_graph (add_node ("file:" ++ m) KFile m P3rd 0) v)).
Proof.
  intros Hm Hs.
  apply step_trans with (on_graph (add_node ("file:" ++ m) KFile m P3rd 0) v).
  - apply step_add_node. split; [discriminate|].
    intros _ w. right. exists m. split; [reflexivity|auto].
  - apply step_add_edge; [|discriminate].
    intros w. apply scope_ok_current. apply (Hs w).
Qed.

Lemma visit_Import_step S W P names v :
  (W -> forallb module_ok names = true) -> (S -> scope_ok v) ->
  step S W P v (visit_Import names v).
Proof.
  intros Hn Hs. unfold visit_Import.
  refine (proj1 (fold_step S W P _ (fun m => W -> module_ok m = true)
                   (fun w => S -> scope_ok w) names _ _ v Hs)).
  - intros m w Hm Hw. split.
    + now apply import_step.
    + intros x. eapply step_scope_ok; [|apply (Hw x)].
      apply (import_step S W P m w Hm Hw).
  - apply Forall_forall. intros m Hin w.
    specialize (Hn w). rewrite forallb_forall in Hn. now apply Hn.
Qed.

Lemma visit_ImportFrom_step S W P m v :
  (W -> names_ok (ImportFrom m) = true) -> (S -> scope_ok v) ->
  step S W P v (visit_ImportFrom m v).
Proof.
  intros Hn Hs. destruct m as [m|]; [|apply step_refl].
  now apply import_step.
Qed.

Lemma visit_base_step S W (P : string -> Prop) cls_id v base :
  (S -> String.prefix "file:" cls_id = true) ->
  step S W P v (visit_base cls_id v base).
Proof.
  intros H. unfold visit_base.
  destruct (_resolve_name base) as [[|c s]|]; try apply step_refl.
  apply step_trans with
    (on_graph (add_node ("class:" ++ String c s) KClass (String c s) P3rd 0) v).
  - apply step_add_node. split; [discriminate|].
    intros _ _. left. apply (prefix_append "class:").
  - apply step_add_edge; [exact H|discriminate].
Qed.

Lemma visit_bases_step S W (P : string -> Prop) cls_id bases v :
  (S -> String.prefix "file:" cls_id = true) ->
  step S W P v (fold_left (visit_base cls_id) bases v).
Proof.
  intros H.
  refine (proj1 (fold_step S W P _ (fun _ => True) (fun _ => True) bases _ _ v I)).
  - intros b w _ _. split; [|exact I]. now apply visit_base_step.
  - apply Forall_forall. auto.
Qed.

(** The property of [visit] proved by induction over the tree. *)
Lemma generic_visit_step S W cs : forall v,
  Forall (fun c => forall v, (W -> names_ok c = true) -> (S -> scope_ok v) ->
            step S W (fun s => String.length (_current_scope_id v) < String.length s)
                 v (visit c v)) cs ->
  (W -> Forall (fun c => names_ok c = true) cs) -> (S -> scope_ok v) ->
  step S W (fun s => String.length (_current_scope_id v) < String.length s)
       v (generic_visit cs v).
Proof.
  intros v IH Hn Hs. unfold generic_visit.
  refine (proj1 (fold_step S W _ (fun v c => visit c v) _
                   (fun w => _current_scope_id w = _current_scope_id v
                             /\ (S -> scope_ok w))
                   cs _ (Forall_and_imp W _ _ cs IH Hn) v _)); [|now split].
  intros c w [Hc Hcn] [Hcur Hw].
  pose proof (Hc w Hcn Hw) as H1. rewrite Hcur in H1.
  split; [exact H1|]. split.
  - rewrite <- Hcur. eapply step_current; eauto.
  - intros x. eapply step_scope_ok; eauto.
Qed.

Lemma visit_step S W n : forall v,
  (W -> names_ok n = true) -> (S -> scope_ok v) ->
  step S W (fun s => String.length (_current_scope_id v) < String.length s)
       v (visit n v).
Proof.
  induction n as [n IH] using ast_children_ind. intros v Hn Hs.
  assert (Hcs : W -> Forall (fun c => names_ok c = true) (iter_child_nodes n))
    by (intros w; apply names_ok_children; auto).
  rewrite visit_eq. destruct n.
  - apply visit_Import_step; auto.
  - apply visit_ImportFrom_step; auto.
  - (* ClassDef *)
    cbn zeta. set (cls_id := _make_id "class" name v).
    assert (Hp : S -> String.prefix "file:" cls_id = true)
      by (intros w; apply _make_id_prefix; auto).
    set (v1 := on_graph (add_node cls_id KClass name P1st (def_loc lineno end_lineno)) v).
    set (v2 := on_graph (add_edge (_current_scope_id v1) cls_id Has) v1).
    set (v3 := fold_left (visit_base cls_id) bases v2).
    assert (S1 : step S W (fun s => String.length (_current_scope_id v) < String.length s) v v3).
    { apply step_trans with v1; [|apply step_trans with v2].
      - apply step_add_node. split; [discriminate|].
        intros s w. right. apply _make_id_own_def; auto.
        eapply names_ok_ClassDef; eauto.
      - apply step_add_edge; [|discriminate].
        intros w. apply scope_ok_current. apply (Hs w).
      - apply visit_bases_step. exact Hp. }
    eapply step_trans; [exact S1|].
    apply push_pop_step with cls_id.
    eapply step_weaken;
      [|apply generic_visit_step; [exact IH|exact Hcs|]].
    + intros s. cbv beta. rewrite current_push.
      pose proof (_make_id_longer "class" name v) as L. fold cls_id in L. lia.
    + intros w. apply scope_ok_push; auto. eapply step_scope_ok; eauto.
  - (* FunctionDef *)
    cbn zeta. set (func_id := _make_id "function" name v).
    assert (Hp : S -> String.prefix "file:" func_id = true)
      by (intros w; apply _make_id_prefix; auto).
    set (v1 := on_graph (add_node func_id KFunction name P1st (def_loc lineno end_lineno)) v).
    set (v2 := on_graph (add_edge (_current_scope_id v1) func_id Has) v1).
    assert (S1 : step S W (fun s => String.length (_current_scope_id v) < String.length s) v v2).
    { apply step_trans with v1.
      - apply step_add_node. split; [discriminate|].
        intros s w. right. apply _make_id_own_def; auto.
        eapply names_ok_FunctionDef; eauto.
      - apply step_add_edge; [|discriminate].
        intros w. apply scope_ok_current. apply (Hs w). }
    eapply step_trans; [exact S1|].
    apply push_pop_step with func_id.
    assert (Hs3 : S -> scope_ok (push func_id v2)).
    { intros w. apply scope_ok_push; auto. }
    pose proof (_make_id_longer "function" name v) as L. fold func_id in L.
    pose proof (_walk_body_for_calls_step S W
                  (FunctionDef is_async name lineno end_lineno children)
                  (push func_id v2) Hs3) as SW.
    rewrite current_push in SW.
    eapply step_trans.
    + eapply step_weaken; [|exact SW].
      intros s <-. exact L.
    + assert (C4 : _current_scope_id
                     (_walk_body_for_calls
                        (FunctionDef is_async name lineno end_lineno children)
                        (push func_id v2)) = func_id).
      { erewrite step_current; [|exact SW]. apply current_push. }
      eapply step_weaken;
        [|apply generic_visit_step; [exact IH|exact Hcs|]].
      * intros s. cbv beta. rewrite C4. lia.
      * intros w. eapply step_scope_ok; [exact SW|auto].
  - apply generic_visit_step; auto.
  - apply step_refl.
  - apply generic_visit_step; auto.
  - apply generic_visit_step; auto.
Qed.
(** ** Name resolver *)

Lemma dotted_segments_nonempty cur s : dotted_segments cur s <> [].
Proof.
  revert cur. induction s as [|c s IH]; intros cur; simpl; [discriminate|].
  destruct (Ascii.eqb c "."); [discriminate|apply IH].
Qed.

Lemma last_dotted_segments cur s :
  last (dotted_segments cur s) "" =
  if contains_char "." s then after_last "." s else cur ++ s.
Proof.
  revert cur. induction s as [|c s IH]; intros cur.
  - simpl. now rewrite append_nil_r.
  - simpl. destruct (Ascii.eqb c ".") eqn:E; simpl.
    + pose proof (dotted_segments_nonempty "" s) as NE.
      destruct (dotted_segments "" s) as [|x l] eqn:D; [contradiction|].
      rewrite <- D, IH. simpl. now destruct (contains_char "." s).
    + rewrite IH. destruct (contains_char "." s); [reflexivity|].
      rewrite append_assoc. reflexivity.
Qed.

Lemma short_name_is_last_segment name :
  short_name_of name = last_dotted_segment name.
Proof.
  unfold short_name_of, last_dotted_segment. rewrite last_dotted_segments.
  reflexivity.
Qed.

Lemma split_matches_filter fid short ns :
  split_matches fid short ns =
  (map id (filter (fun n => String.eqb (label n) short
                            && is_function_or_class (kind n)
                            && String.prefix fid (id n)) ns),
   map id (filter (fun n => String.eqb (label n) short
                            && is_function_or_class (kind n)
                            && negb (String.prefix fid (id n))) ns)).
Proof.
  unfold split_matches.
  set (p1 := fun n => _ && String.prefix fid (id n)).
  set (p2 := fun n => _ && negb (String.prefix fid (id n))).
  assert (G : forall ns acc,
    fold_left
      (fun (acc : list string * list string) n =>
         if String.eqb (label n) short && is_function_or_class (kind n)
         then if String.prefix fid (id n)
              then ((fst acc ++ [id n])%list, snd acc)
              else (fst acc, (snd acc ++ [id n])%list)
         else acc) ns acc
    = ((fst acc ++ map id (filter p1 ns))%list,
       (snd acc ++ map id (filter p2 ns))%list)).
  { clear ns. induction ns as [|n ns IH]; intros [a b]; simpl.
    - now rewrite !app_nil_r.
    - rewrite IH. unfold p1, p2.
      destruct (String.eqb (label n) short && is_function_or_class (kind n));
        [|reflexivity].
      destruct (String.prefix fid (id n)); simpl; now rewrite <- !app_assoc. }
  rewrite G. reflexivity.
Qed.

Lemma find_map_filter (p : Node -> bool) ns :
  match map id (filter p ns) with
  | i :: _ => Some i
  | [] => None
  end = option_map id (find p ns).
Proof.
  induction ns as [|n ns IH]; simpl; [reflexivity|].
  destruct (p n); [reflexivity|exact IH].
Qed.

Lemma find_without_nested (m q : Node -> bool) ns :
  find (fun n => m n && q n) ns = None ->
  find (fun n => m n && negb (q n)) ns = find m ns.
Proof.
  induction ns as [|n ns IH]; simpl; [reflexivity|].
  destruct (m n), (q n); simpl; try discriminate; auto.
Qed.
(** ** The call scan of a function body *)

Lemma handle_calls_app fs gs v :
  handle_calls (fs ++ gs) v = handle_calls gs (handle_calls fs v).
Proof. unfold handle_calls. now rewrite fold_left_app. Qed.

Lemma walk_is_handle_calls n : forall v,
  _walk_body_for_calls n v = handle_calls (reachable_calls n) v.
Proof.
  induction n as [n IH] using ast_children_ind. intros v.
  rewrite _walk_body_for_calls_eq, reachable_calls_eq.
  revert v. induction IH as [|c cs Hc Hcs IHcs]; intros v; [reflexivity|].
  change (walk_children (c :: cs) v)
    with (walk_children cs (walk_child _walk_body_for_calls c v)).
  rewrite IHcs. cbn [flat_map]. rewrite handle_calls_app. f_equal.
  destruct c; simpl; try apply Hc; try reflexivity.
Qed.

Lemma _resolve_target_frame name v :
  edges (graph (snd (_resolve_target name v))) = edges (graph v)
  /\ file_id (snd (_resolve_target name v)) = file_id v
  /\ _scope (snd (_resolve_target name v)) = _scope v.
Proof.
  unfold _resolve_target.
  destruct (find _ (nodes (graph v))); [auto|].
  destruct (split_matches _ _ _) as [[|i sf] [|j ot]]; simpl; auto.
  now rewrite add_node_edges.
Qed.

Lemma _handle_call_edges f v :
  edges (graph (_handle_call f v)) =
  (edges (graph v) ++
   match _resolve_name f with
   | Some called =>
       [mkEdge (_current_scope_id v) (fst (_resolve_target called v)) Calls]
   | None => []
   end)%list.
Proof.
  unfold _handle_call. destruct (_resolve_name f) as [called|];
    [|now rewrite app_nil_r].
  destruct (_resolve_target_frame called v) as (E & F & Sc).
  destruct (_resolve_target called v) as [t v1]. simpl in *.
  unfold _current_scope_id. now rewrite E, F, Sc.
Qed.

Lemma _handle_call_current f v :
  _current_scope_id (_handle_call f v) = _current_scope_id v.
Proof.
  apply (step_current False False (eq (_current_scope_id v))).
  apply _handle_call_step. intros [].
Qed.

Lemma handle_calls_edges fs : forall v,
  edges (graph (handle_calls fs v)) =
  (edges (graph v)
   ++ map (fun t => mkEdge (_current_scope_id v) t Calls) (call_targets fs v))%list.
Proof.
  induction fs as [|f fs IH]; intros v; simpl.
  - now rewrite app_nil_r.
  - change (handle_calls (f :: fs) v) with (handle_calls fs (_handle_call f v)).
    rewrite IH, _handle_call_edges, _handle_call_current.
    destruct (_resolve_name f) as [called|] eqn:E.
    + rewrite <- app_assoc. reflexivity.
    + rewrite app_nil_r. f_equal. f_equal.
      unfold _handle_call. now rewrite E.
Qed.

Lemma call_targets_length fs : forall v,
  List.length (call_targets fs v) = List.length (filter resolvable fs).
Proof.
  induction fs as [|f fs IH]; intros v; simpl; [reflexivity|].
  unfold resolvable at 1. destruct (_resolve_name f); simpl; now rewrite IH.
Qed.

Lemma reachable_calls_child_call n f args :
  In (Call f args) (iter_child_nodes n) -> In f (reachable_calls n).
Proof.
  intros H. rewrite reachable_calls_eq. apply in_flat_map.
  exists (Call f args). split; [exact H|]. now left.
Qed.

Lemma reachable_calls_child n c :
  In c (iter_child_nodes n) -> is_def c = false ->
  incl (reachable_calls c) (reachable_calls n).
Proof.
  intros H D x Hx. rewrite reachable_calls_eq. apply in_flat_map.
  exists c. split; [exact H|].
  destruct c; simpl in *; try discriminate; auto.
Qed.
(** ** Sizes *)

Lemma text_lines_length s : forall cur,
  Z.of_nat (List.length (text_lines cur s)) =
  (count_char newline s
   + match s with
     | EmptyString => match cur with EmptyString => 0 | _ => 1 end
     | _ => if ends_with_char newline s then 0 else 1
     end)%Z.
Proof.
  induction s as [|c s IH]; intros cur.
  - simpl. now destruct cur.
  - cbn [text_lines count_char].
    destruct (Ascii.eqb c newline) eqn:E.
    + cbn [List.length]. rewrite Nat2Z.inj_succ, IH.
      destruct s as [|d s]; [simpl; rewrite E; reflexivity|].
      cbn [ends_with_char]. lia.
    + rewrite IH. destruct s as [|d s].
      * simpl. rewrite E. now destruct cur.
      * cbn [ends_with_char]. lia.
Qed.

Lemma file_loc_is_line_count s : file_loc s = line_count s.
Proof.
  unfold file_loc, line_count. rewrite text_lines_length.
  destruct s; reflexivity.
Qed.

Lemma step_get_node S W P v v' i n :
  step S W P v v' ->
  get_node (nodes (graph v)) i = Some n ->
  get_node (nodes (graph v')) i = Some n.
Proof.
  intros (_ & _ & _ & ns & es & N & _) H.
  rewrite N, get_node_app. now rewrite H.
Qed.

Lemma visit_free n v :
  step False False (fun _ => True) v (visit n v).
Proof.
  eapply step_weaken; [|apply visit_step; intros []]. auto.
Qed.

Lemma generic_visit_free cs v :
  step False False (fun _ => True) v (generic_visit cs v).
Proof.
  eapply step_weaken; [|apply generic_visit_step; try (intros [])]; [auto|].
  apply Forall_forall. intros c _ w. apply visit_step.
Qed.

Lemma walk_free n v :
  step False False (fun _ => True) v (_walk_body_for_calls n v).
Proof.
  eapply step_weaken; [|apply _walk_body_for_calls_step; intros []]. auto.
Qed.

Lemma visit_FunctionDef_rest a name l e cs v :
  let func_id := _make_id "function" name v in
  step False False (fun _ => True)
    (on_graph (add_node func_id KFunction name P1st (def_loc l e)) v)
    (visit (FunctionDef a name l e cs) v).
Proof.
  intros func_id. rewrite visit_eq. cbn zeta. fold func_id.
  set (v1 := on_graph (add_node func_id KFunction name P1st (def_loc l e)) v).
  apply step_trans with (on_graph (add_edge (_current_scope_id v1) func_id Has) v1).
  - apply step_add_edge; [intros []|discriminate].
  - apply push_pop_step with func_id.
    eapply step_trans; [apply walk_free|apply generic_visit_free].
Qed.

Lemma visit_ClassDef_rest name l e bases rest v :
  let cls_id := _make_id "class" name v in
  step False False (fun _ => True)
    (on_graph (add_node cls_id KClass name P1st (def_loc l e)) v)
    (visit (ClassDef name l e bases rest) v).
Proof.
  intros cls_id. rewrite visit_eq. cbn zeta. fold cls_id.
  set (v1 := on_graph (add_node cls_id KClass name P1st (def_loc l e)) v).
  set (v2 := on_graph (add_edge (_current_scope_id v1) cls_id Has) v1).
  apply step_trans with v2; [|apply step_trans with (fold_left (visit_base cls_id) bases v2)].
  - apply step_add_edge; [intros []|discriminate].
  - apply visit_bases_step. intros [].
  - apply push_pop_step with cls_id. apply generic_visit_free.
Qed.

Lemma analyze_unparsed ast_parse f g :
  ast_parse (source f) = None -> analyze ast_parse f g = g.
Proof. intros H. unfold analyze. now rewrite H. Qed.

Lemma analyze_parsed ast_parse f g tree :
  ast_parse (source f) = Some tree ->
  analyze ast_parse f g =
  graph (pop (visit tree
     (push (file_id_of f)
        (on_graph (add_node (file_id_of f) KFile (last (rel f) "") P1st
                            (file_loc (source f)))
                  (CallGraphVisitor g f))))).
Proof. intros H. unfold analyze. now rewrite H. Qed.

Lemma analyze_rest ast_parse f g tree :
  ast_parse (source f) = Some tree ->
  exists v',
    analyze ast_parse f g = graph v'
    /\ step False False (fun _ => True)
         (on_graph (add_node (file_id_of f) KFile (last (rel f) "") P1st
                             (file_loc (source f)))
                   (CallGraphVisitor g f)) v'.
Proof.
  intros H. rewrite (analyze_parsed _ _ _ _ H). eexists. split; [reflexivity|].
  apply push_pop_step with (file_id_of f). apply visit_free.
Qed.
(** ** Serializer *)

Lemma endpoint_total ns i :
  exists s, endpoint ns i = Some s
    /\ (get_node ns i = None -> s = dq ++ i ++ dq)
    /\ (forall n, get_node ns i = Some n -> s = Node_dot_id n).
Proof.
  unfold endpoint, has_node, nodes_getitem.
  destruct (get_node ns i) as [n|].
  - exists (Node_dot_id n). split; [reflexivity|]. split; [discriminate|].
    intros m H. now injection H as ->.
  - exists (dq ++ i ++ dq). split; [reflexivity|]. split; [reflexivity|discriminate].
Qed.

Lemma mapM_total {A B} (f : A -> option B) l :
  (forall a, In a l -> exists b, f a = Some b) ->
  exists bs, mapM f l = Some bs
    /\ forall a, In a l -> exists b, f a = Some b /\ In b bs.
Proof.
  induction l as [|a l IH]; intros H.
  - exists []. split; [reflexivity|]. intros a [].
  - destruct (H a (or_introl eq_refl)) as [b Hb].
    destruct IH as (bs & E & Hbs); [intros x Hx; apply H; now right|].
    exists (b :: bs). simpl. rewrite Hb, E. split; [reflexivity|].
    intros x [<-|Hx].
    + exists b. split; [exact Hb|now left].
    + destruct (Hbs x Hx) as (y & Hy & Iy). exists y. split; [exact Hy|now right].
Qed.

Lemma color_1st_inj k1 k2 : color_1st k1 = color_1st k2 -> k1 = k2.
Proof. destruct k1, k2; simpl; intros H; try reflexivity; discriminate. Qed.
(** ** Ids of different shapes do not meet *)

Lemma contains_char_In c s :
  contains_char c s = true <-> In c (list_ascii_of_string s).
Proof.
  induction s as [|d s IH]; simpl; [split; [discriminate|tauto]|].
  rewrite orb_true_iff, IH. split; intros [H|H]; auto.
  - left. now apply Ascii.eqb_eq.
  - left. now apply Ascii.eqb_eq.
Qed.

Lemma contains_char_false c s :
  contains_char c s = false -> ~ In c (list_ascii_of_string s).
Proof.
  intros H I. apply contains_char_In in I. congruence.
Qed.

Lemma ident_ok_no_colon nm :
  ident_ok nm = true -> ~ In ":"%char (list_ascii_of_string nm).
Proof.
  unfold ident_ok. intros H. apply andb_true_iff in H. destruct H as [H _].
  apply negb_true_iff in H. now apply contains_char_false.
Qed.

Lemma ident_ok_no_dot nm :
  ident_ok nm = true -> ~ In "."%char (list_ascii_of_string nm).
Proof.
  unfold ident_ok. intros H. apply andb_true_iff in H. destruct H as [_ H].
  apply negb_true_iff in H. now apply contains_char_false.
Qed.

Lemma dir_not_file x :
  String.prefix "dir:" x = true -> String.prefix "file:" x = true -> False.
Proof.
  intros H1 H2. apply prefix_inv in H1. apply prefix_inv in H2.
  destruct H1 as [r1 ->]. destruct H2 as [r2 H2]. discriminate.
Qed.

Lemma class_not_file x :
  String.prefix "class:" x = true -> String.prefix "file:" x = true -> False.
Proof.
  intros H1 H2. apply prefix_inv in H1. apply prefix_inv in H2.
  destruct H1 as [r1 ->]. destruct H2 as [r2 H2]. discriminate.
Qed.

Lemma function_not_file x :
  String.prefix "function:" x = true -> String.prefix "file:" x = true -> False.
Proof.
  intros H1 H2. apply prefix_inv in H1. apply prefix_inv in H2.
  destruct H1 as [r1 ->]. destruct H2 as [r2 H2]. discriminate.
Qed.

Lemma first_sep (c : ascii) (r1 r2 x y : list ascii) :
  ~ In c r1 -> ~ In c r2 ->
  (r1 ++ c :: x = r2 ++ c :: y)%list -> r1 = r2 /\ x = y.
Proof.
  revert r2. induction r1 as [|a r1 IH]; intros [|b r2] H1 H2 E; simpl in *.
  - injection E as ->. auto.
  - injection E as <- _. exfalso. apply H2. now left.
  - injection E as -> _. exfalso. apply H1. now left.
  - injection E as -> E. destruct (IH r2) as [-> ->]; auto.
Qed.

Lemma own_def_rev k i :
  own_def k i ->
  exists r rest,
    rev (list_ascii_of_string i)
    = (r ++ ":"%char :: rev (list_ascii_of_string k) ++ ":"%char :: ":"%char :: rest)%list
    /\ ~ In ":"%char r /\ ~ In "."%char r.
Proof.
  intros (s & nm & -> & _ & Hn).
  exists (rev (list_ascii_of_string nm)), (rev (list_ascii_of_string s)).
  split.
  - rewrite !list_of_append.
    change (list_ascii_of_string "::") with [":"%char; ":"%char].
    change (list_ascii_of_string ":") with [":"%char].
    rewrite !rev_app_distr. cbn [rev app]. rewrite <- !app_assoc.
    reflexivity.
  - split; rewrite <- in_rev;
      [now apply ident_ok_no_colon|now apply ident_ok_no_dot].
Qed.

Lemma own_def_not_py k i : own_def k i -> ends_py i = false.
Proof.
  intros H. destruct (own_def_rev _ _ H) as (r & rest & E & NC & ND).
  unfold ends_py. rewrite E.
  destruct r as [|a [|b [|c r]]]; simpl.
  - reflexivity.
  - destruct a as [[] [] [] [] [] [] [] []]; reflexivity.
  - destruct a as [[] [] [] [] [] [] [] []]; try reflexivity.
    destruct b as [[] [] [] [] [] [] [] []]; reflexivity.
  - destruct (Ascii.eqb_spec c ".") as [->|N].
    + exfalso. apply ND. simpl. auto.
    + destruct a as [[] [] [] [] [] [] [] []]; try reflexivity.
      destruct b as [[] [] [] [] [] [] [] []]; try reflexivity.
      destruct c as [[] [] [] [] [] [] [] []]; try reflexivity.
      now elim N.
Qed.

Lemma class_def_not_function_def i :
  own_def "class" i -> own_def "function" i -> False.
Proof.
  intros H1 H2.
  destruct (own_def_rev _ _ H1) as (r1 & x1 & E1 & C1 & _).
  destruct (own_def_rev _ _ H2) as (r2 & x2 & E2 & C2 & _).
  rewrite E1 in E2. apply first_sep in E2; auto.
  destruct E2 as [_ E2]. simpl in E2. discriminate.
Qed.

Lemma module_not_own_def k m :
  module_ok m = true -> own_def k ("file:" ++ m) -> False.
Proof.
  intros Hm (s & nm & E & Hs & _).
  apply prefix_inv in Hs. destruct Hs as [r ->].
  rewrite append_assoc in E. apply append_inv_head in E.
  unfold module_ok in Hm. apply andb_true_iff in Hm. destruct Hm as [Hm _].
  apply negb_true_iff in Hm. rewrite E in Hm.
  rewrite !contains_char_append in Hm. simpl in Hm.
  now rewrite orb_true_r in Hm.
Qed.

Lemma ends_py_append a b : ends_py b = true -> ends_py (a ++ b) = true.
Proof.
  unfold ends_py. rewrite list_of_append, rev_app_distr.
  destruct (rev (list_ascii_of_string b)) as [|x [|y [|z r]]];
    try (intros H; exact H); try discriminate.
  - simpl. destruct x as [[] [] [] [] [] [] [] []]; discriminate.
  - simpl. destruct x as [[] [] [] [] [] [] [] []]; try discriminate.
    destruct y as [[] [] [] [] [] [] [] []]; discriminate.
Qed.
(** ** Calls edges start at function nodes *)

Lemma node_ok_mono own n : node_ok [] n -> node_ok own n.
Proof.
  unfold node_ok. destruct (kind n); auto.
  intros [[]|H]. now right.
Qed.

Lemma own_def_prefix k i : own_def k i -> String.prefix "file:" i = true.
Proof. intros (s & nm & -> & H & _). now apply prefix_file_append. Qed.

Lemma function_id_kind own n :
  (forall i, In i own -> ends_py i = true) ->
  node_ok own n -> own_def "function" (id n) -> kind n = KFunction.
Proof.
  intros Hown H D. unfold node_ok in H.
  destruct (kind n) eqn:K; [exfalso|exfalso|exfalso|reflexivity].
  - apply (dir_not_file _ H). eapply own_def_prefix; eauto.
  - destruct H as [H|(m & E & Hm)].
    + apply Hown in H. rewrite (own_def_not_py _ _ D) in H. discriminate.
    + rewrite E in D. eapply module_not_own_def; eauto.
  - destruct H as [H|H].
    + apply (class_not_file _ H). eapply own_def_prefix; eauto.
    + eapply class_def_not_function_def; eauto.
Qed.

Lemma is_fun_node_app ns ms i :
  is_fun_node ns i -> is_fun_node (ns ++ ms) i.
Proof.
  intros (n & H & K). exists n. split; [|exact K].
  rewrite get_node_app. now rewrite H.
Qed.

Lemma step_is_fun_node S W P v v' i :
  step S W P v v' ->
  is_fun_node (nodes (graph v)) i -> is_fun_node (nodes (graph v')) i.
Proof.
  intros (_ & _ & _ & ns & es & N & _) H. rewrite N. now apply is_fun_node_app.
Qed.

Lemma step_store_ok own (S W : Prop) P v v' :
  S -> W -> step S W P v v' -> store_ok own v -> store_ok own v'.
Proof.
  intros s w St [A B]. split; [eapply step_scope_ok; eauto|].
  destruct St as (_ & _ & _ & ns & es & N & _ & FN & _).
  rewrite N. apply Forall_app. split; [exact B|].
  eapply Forall_impl; [|exact FN]. intros n [_ H].
  apply node_ok_mono. now apply H.
Qed.

Lemma step_calls_ok S W (P : string -> Prop) v v' :
  step S W P v v' -> calls_ok (graph v) ->
  (forall s, P s -> is_fun_node (nodes (graph v')) s) ->
  calls_ok (graph v').
Proof.
  intros St C HP e He K.
  pose proof St as (_ & _ & _ & ns & es & N & E & _ & FE).
  rewrite E in He. apply in_app_or in He. destruct He as [He|He].
  - eapply step_is_fun_node; [exact St|]. now apply C.
  - rewrite Forall_forall in FE. destruct (FE e He) as [_ H].
    apply HP. now apply H.
Qed.

Lemma step_no_calls S W v v' :
  step S W (fun _ => False) v v' -> calls_ok (graph v) -> calls_ok (graph v').
Proof. intros St C. eapply step_calls_ok; eauto. intros s []. Qed.

Lemma classdef_head_step S W (P : string -> Prop) name l e bases v :
  (S -> scope_ok v) -> (W -> ident_ok name = true) ->
  let cls_id := _make_id "class" name v in
  let v1 := on_graph (add_node cls_id KClass name P1st (def_loc l e)) v in
  let v2 := on_graph (add_edge (_current_scope_id v1) cls_id Has) v1 in
  step S W P v (fold_left (visit_base cls_id) bases v2).
Proof.
  intros Hs Hn cls_id v1 v2.
  apply step_trans with v1; [|apply step_trans with v2].
  - apply step_add_node. split; [discriminate|].
    intros s w. right. apply _make_id_own_def; auto.
  - apply step_add_edge; [|discriminate].
    intros s. apply scope_ok_current. apply (Hs s).
  - apply visit_bases_step. intros s. apply _make_id_prefix; auto.
Qed.

Lemma functiondef_head_step S W (P : string -> Prop) name l e v :
  (S -> scope_ok v) -> (W -> ident_ok name = true) ->
  let func_id := _make_id "function" name v in
  let v1 := on_graph (add_node func_id KFunction name P1st (def_loc l e)) v in
  step S W P v (on_graph (add_edge (_current_scope_id v1) func_id Has) v1).
Proof.
  intros Hs Hn func_id v1.
  apply step_trans with v1.
  - apply step_add_node. split; [discriminate|].
    intros s w. right. apply _make_id_own_def; auto.
  - apply step_add_edge; [|discriminate].
    intros s. apply scope_ok_current. apply (Hs s).
Qed.

Lemma add_function_node own name l e v :
  (forall i, In i own -> ends_py i = true) ->
  store_ok own v -> ident_ok name = true ->
  is_fun_node
    (nodes (graph (on_graph (add_node (_make_id "function" name v) KFunction
                                      name P1st (def_loc l e)) v)))
    (_make_id "function" name v).
Proof.
  intros Hown [Hs Hn] Hi. cbn [graph on_graph].
  destruct (get_node (nodes (graph v)) (_make_id "function" name v))
    as [n|] eqn:G.
  - exists n. split; [now apply add_node_keeps|].
    apply (function_id_kind own); auto.
    + rewrite Forall_forall in Hn. apply Hn. eapply get_node_In; eauto.
    + rewrite (get_node_id _ _ _ G). now apply _make_id_own_def.
  - eexists. split; [now apply add_node_gets|reflexivity].
Qed.

Lemma generic_visit_calls_ok own cs :
  Forall (fun c => forall v, names_ok c = true -> store_ok own v ->
            calls_ok (graph v) -> calls_ok (graph (visit c v))) cs ->
  Forall (fun c => names_ok c = true) cs ->
  forall v, store_ok own v -> calls_ok (graph v) ->
            calls_ok (graph (generic_visit cs v)).
Proof.
  intros IH. induction IH as [|c cs Hc Hcs IHcs]; intros Hn v Hv C; [exact C|].
  inversion Hn as [|? ? Hn1 Hn2]; subst.
  change (generic_visit (c :: cs) v) with (generic_visit cs (visit c v)).
  apply IHcs; [exact Hn2| |apply Hc; auto].
  eapply (step_store_ok own True True); [exact I|exact I| |exact Hv].
  apply visit_step; auto. intros _. apply Hv.
Qed.

Lemma visit_calls_ok own n :
  (forall i, In i own -> ends_py i = true) ->
  forall v, names_ok n = true -> store_ok own v ->
            calls_ok (graph v) -> calls_ok (graph (visit n v)).
Proof.
  intros Hown. induction n as [n IH] using ast_children_ind.
  intros v Hn Hv C.
  pose proof (names_ok_children n Hn) as Hcs.
  assert (Hs : True -> scope_ok v) by (intros _; apply Hv).
  rewrite visit_eq. destruct n.
  - apply (step_no_calls True True v); auto.
    apply visit_Import_step; auto.
  - apply (step_no_calls True True v); auto.
    apply visit_ImportFrom_step; auto.
  - (* ClassDef *)
    cbn zeta.
    pose proof (classdef_head_step True True (fun _ => False) name lineno
                  end_lineno bases v Hs
                  (fun _ => names_ok_ClassDef _ _ _ _ _ Hn)) as St.
    cbv zeta in St.
    set (v3 := fold_left _ bases _) in *.
    change (calls_ok (graph (generic_visit (bases ++ rest)
                               (push (_make_id "class" name v) v3)))).
    apply (generic_visit_calls_ok own); auto.
    + destruct (step_store_ok own True True _ _ _ I I St Hv) as [A B]. split; [|exact B].
      apply scope_ok_push; auto.
      rewrite _make_id_eq. apply prefix_file_append.
      apply scope_ok_current. apply Hv.
    + change (calls_ok (graph v3)). apply (step_no_calls True True v); auto.
  - (* FunctionDef *)
    cbn zeta.
    set (func_id := _make_id "function" name v).
    set (v1 := on_graph (add_node func_id KFunction name P1st
                                  (def_loc lineno end_lineno)) v).
    set (v2 := on_graph (add_edge (_current_scope_id v1) func_id Has) v1).
    pose proof (names_ok_FunctionDef _ _ _ _ _ Hn) as Hi.
    pose proof (functiondef_head_step True True (fun _ => False) name lineno
                  end_lineno v Hs (fun _ => Hi)) as St.
    cbv zeta in St. fold func_id in St. fold v1 in St. fold v2 in St.
    assert (F1 : is_fun_node (nodes (graph v2)) func_id).
    { apply (add_function_node own name lineno end_lineno v); auto. }
    assert (Hv3 : store_ok own (push func_id v2)).
    { destruct (step_store_ok own True True _ _ _ I I St Hv) as [A B]. split; [|exact B].
      apply scope_ok_push; auto. unfold func_id.
      rewrite _make_id_eq. apply prefix_file_append.
      apply scope_ok_current. apply Hv. }
    set (fn := FunctionDef is_async name lineno end_lineno children).
    pose proof (_walk_body_for_calls_step True True fn (push func_id v2)
                  (fun _ => proj1 Hv3)) as SW.
    rewrite current_push in SW.
    change (calls_ok (graph (generic_visit children
                               (_walk_body_for_calls fn (push func_id v2))))).
    apply (generic_visit_calls_ok own); auto.
    + eapply (step_store_ok own True True); eauto.
    + eapply step_calls_ok; [exact SW| |].
      * change (calls_ok (graph v2)). apply (step_no_calls True True v); auto.
      * intros s <-. eapply step_is_fun_node; [exact SW|]. exact F1.
  - apply (generic_visit_calls_ok own); auto.
  - exact C.
  - apply (generic_visit_calls_ok own); auto.
  - apply (generic_visit_calls_ok own); auto.
Qed.
(** ** Stores that grow *)

Lemma grows_refl PN PE g : grows PN PE g g.
Proof. exists [], []. rewrite !app_nil_r. repeat split; constructor. Qed.

Lemma grows_trans PN PE g1 g2 g3 :
  grows PN PE g1 g2 -> grows PN PE g2 g3 -> grows PN PE g1 g3.
Proof.
  intros (ns1 & es1 & N1 & E1 & FN1 & FE1) (ns2 & es2 & N2 & E2 & FN2 & FE2).
  exists (ns1 ++ ns2)%list, (es1 ++ es2)%list.
  rewrite N2, N1, E2, E1, !app_assoc.
  repeat split; apply Forall_app; split; assumption.
Qed.

Lemma grows_weaken (PN QN : Node -> Prop) (PE QE : Edge -> Prop) g g' :
  (forall n, PN n -> QN n) -> (forall e, PE e -> QE e) ->
  grows PN PE g g' -> grows QN QE g g'.
Proof.
  intros HN HE (ns & es & N & E & FN & FE). exists ns, es.
  repeat split; auto; eapply Forall_impl; eauto.
Qed.

Lemma grows_add_node (PN : Node -> Prop) PE i k l p sz g :
  PN (mkNode i k l p sz) -> grows PN PE g (add_node i k l p sz g).
Proof.
  intros H. destruct (add_node_nodes_app i k l p sz g) as (extra & E & C).
  exists extra, []. rewrite E, add_node_edges, app_nil_r.
  repeat split; [|constructor].
  destruct C as [->|[-> _]]; repeat constructor; exact H.
Qed.

Lemma grows_add_edge PN (PE : Edge -> Prop) s d k g :
  PE (mkEdge s d k) -> grows PN PE g (add_edge s d k g).
Proof.
  intros H. exists [], [mkEdge s d k]. simpl. rewrite app_nil_r.
  repeat split; repeat constructor; exact H.
Qed.

Lemma grows_get_node PN PE g g' i n :
  grows PN PE g g' -> get_node (nodes g) i = Some n ->
  get_node (nodes g') i = Some n.
Proof.
  intros (ns & es & N & _) H. rewrite N, get_node_app. now rewrite H.
Qed.

Lemma grows_edge PN PE g g' e :
  grows PN PE g g' -> In e (edges g) -> In e (edges g').
Proof.
  intros (ns & es & _ & E & _) H. rewrite E. apply in_or_app. now left.
Qed.

Lemma grows_nodes_all (PN : Node -> Prop) PE g g' :
  grows PN PE g g' -> Forall PN (nodes g) -> Forall PN (nodes g').
Proof.
  intros (ns & es & N & _ & FN & _) H. rewrite N. apply Forall_app. now split.
Qed.

Lemma grows_edges_all PN (PE : Edge -> Prop) g g' :
  grows PN PE g g' -> Forall PE (edges g) -> Forall PE (edges g').
Proof.
  intros (ns & es & _ & E & _ & FE) H. rewrite E. apply Forall_app. now split.
Qed.

Lemma step_grows S W P v v' :
  step S W P v v' ->
  grows (walker_node S W) (walker_edge S P) (graph v) (graph v').
Proof. intros (_ & _ & _ & ns & es & H). now exists ns, es. Qed.

Lemma fold_grows {A} PN PE (f : Graph -> A -> Graph) l :
  (forall a g, In a l -> grows PN PE g (f g a)) ->
  forall g, grows PN PE g (fold_left f l g).
Proof.
  induction l as [|a l IH]; intros H g; simpl; [apply grows_refl|].
  eapply grows_trans; [apply H; now left|].
  apply IH. intros b g' Hb. apply H. now right.
Qed.

Lemma dir_done_grows PN PE g g' l :
  grows PN PE g g' -> dir_done g l -> dir_done g' l.
Proof.
  intros G [(n & Hn & K) He]. split.
  - exists n. split; [eapply grows_get_node; eauto|exact K].
  - intros L. eapply grows_edge; eauto.
Qed.

(** ** Paths *)

Lemma join_cons2 sep p q ps :
  join sep (p :: q :: ps) = p ++ sep ++ join sep (q :: ps).
Proof. reflexivity. Qed.

Lemma join_app_last sep l x :
  l <> [] -> join sep (l ++ [x]) = join sep l ++ sep ++ x.
Proof.
  induction l as [|p l IH]; intros H; [contradiction|].
  destruct l as [|q l]; [reflexivity|].
  change ((p :: q :: l) ++ [x])%list with (p :: q :: (l ++ [x]))%list.
  rewrite !join_cons2.
  change (q :: (l ++ [x]))%list with ((q :: l) ++ [x])%list.
  rewrite IH by discriminate. now rewrite !append_assoc.
Qed.

Lemma join_slash_inj l : forall l',
  l <> [] -> l' <> [] -> Forall slash_free l -> Forall slash_free l' ->
  join "/" l = join "/" l' -> l = l'.
Proof.
  induction l as [|p l IH]; intros [|p' l'] H H' F F' E; try contradiction.
  inversion F as [|? ? Fp Fl]; subst. inversion F' as [|? ? Fp' Fl']; subst.
  apply contains_char_false in Fp. apply contains_char_false in Fp'.
  destruct l as [|q l], l' as [|q' l'].
  - simpl in E. now subst.
  - exfalso. rewrite join_cons2 in E. simpl in E. apply Fp. rewrite E.
    rewrite list_of_append. apply in_or_app. right. simpl. now left.
  - exfalso. rewrite join_cons2 in E. simpl in E. apply Fp'. rewrite <- E.
    rewrite list_of_append. apply in_or_app. right. simpl. now left.
  - rewrite !join_cons2 in E. apply (f_equal list_ascii_of_string) in E.
    rewrite !list_of_append in E. simpl in E.
    apply first_sep in E; auto. destruct E as [E1 E2].
    apply list_of_string_inj in E1. apply list_of_string_inj in E2. subst p'.
    f_equal. apply IH; auto; discriminate.
Qed.

Lemma firstn_succ_nonempty {A} i (l : list A) :
  i < List.length l -> firstn (i + 1) l <> [].
Proof.
  intros H E. apply (f_equal (@List.length A)) in E.
  rewrite length_firstn in E. simpl in E. lia.
Qed.

Lemma Forall_firstn {A} (P : A -> Prop) n l : Forall P l -> Forall P (firstn n l).
Proof.
  intros H. rewrite <- (firstn_skipn n l) in H.
  apply Forall_app in H. apply H.
Qed.
(** ** Project scaffolder *)

Lemma scaffold_dir_grows files parts st i :
  grows dir_node (scaffold_edge files) (fst st) (fst (scaffold_dir parts st i)).
Proof.
  destruct st as [g seen]. unfold scaffold_dir.
  destruct (existsb _ seen); [apply grows_refl|]. cbn [fst].
  set (dir_id := "dir:" ++ join "/" (firstn (i + 1) parts)).
  eapply grows_trans.
  - apply (grows_add_node dir_node (scaffold_edge files)).
    repeat split. apply (prefix_append "dir:").
  - destruct (0 <? i)%nat; [|apply grows_refl].
    apply grows_add_edge. repeat split.
    + apply (prefix_append "dir:").
    + left. apply (prefix_append "dir:").
Qed.

Lemma scaffold_dirs_grows files parts l : forall st,
  grows dir_node (scaffold_edge files) (fst st)
        (fst (fold_left (scaffold_dir parts) l st)).
Proof.
  induction l as [|i l IH]; intros st; simpl; [apply grows_refl|].
  eapply grows_trans; [apply scaffold_dir_grows|apply IH].
Qed.

Lemma scaffold_file_grows files st f :
  In f files ->
  grows dir_node (scaffold_edge files) (fst st) (fst (scaffold_file st f)).
Proof.
  intros Hf. unfold scaffold_file.
  set (st1 := fold_left _ _ st).
  assert (G : grows dir_node (scaffold_edge files) (fst st) (fst st1))
    by apply scaffold_dirs_grows.
  destruct (join "/" (removelast (rel f))) as [|c s] eqn:E; [exact G|].
  eapply grows_trans; [exact G|]. cbn [fst].
  apply grows_add_edge.
  split; [reflexivity|split; [apply (prefix_append "dir:")|]].
  right. exists f. repeat split; auto. rewrite E. discriminate.
Qed.

Lemma scaffold_fold_grows files l : forall st,
  incl l files ->
  grows dir_node (scaffold_edge files) (fst st)
        (fst (fold_left scaffold_file l st)).
Proof.
  induction l as [|f l IH]; intros st H; simpl; [apply grows_refl|].
  eapply grows_trans.
  - apply scaffold_file_grows. apply H. now left.
  - apply IH. intros x Hx. apply H. now right.
Qed.

Lemma scaffold_nodes_edges files :
  Forall dir_node (nodes (scaffold files))
  /\ Forall (scaffold_edge files) (edges (scaffold files)).
Proof.
  pose proof (scaffold_fold_grows files files (Graph_empty, [])
                (incl_refl files)) as G.
  split.
  - eapply grows_nodes_all; [exact G|constructor].
  - eapply grows_edges_all; [exact G|constructor].
Qed.

Lemma scaffold_file_edge st f :
  join "/" (removelast (rel f)) <> "" ->
  In (mkEdge ("dir:" ++ join "/" (removelast (rel f))) (file_id_of f) Has)
     (edges (fst (scaffold_file st f))).
Proof.
  intros H. unfold scaffold_file.
  destruct (join "/" (removelast (rel f))) as [|c s] eqn:E; [contradiction|].
  cbn [fst add_edge edges]. apply in_or_app. right. now left.
Qed.

Lemma scaffold_fold_file_edge l : forall st f,
  In f l -> join "/" (removelast (rel f)) <> "" ->
  In (mkEdge ("dir:" ++ join "/" (removelast (rel f))) (file_id_of f) Has)
     (edges (fst (fold_left scaffold_file l st))).
Proof.
  induction l as [|x l IH]; intros st f Hf H; [destruct Hf|].
  destruct Hf as [->|Hf]; simpl.
  - eapply grows_edge; [apply (scaffold_fold_grows l l); apply incl_refl|].
    now apply scaffold_file_edge.
  - now apply IH.
Qed.

Lemma scaffold_dir_inv parts st i :
  Forall slash_free parts -> i < List.length parts -> scaffold_inv st ->
  scaffold_inv (scaffold_dir parts st i)
  /\ dir_done (fst (scaffold_dir parts st i)) (firstn (i + 1) parts).
Proof.
  intros Fp Hi [Hn Hs]. destruct st as [g seen]. cbn [fst snd] in *.
  unfold scaffold_dir.
  set (l := firstn (i + 1) parts).
  set (dir_id := "dir:" ++ join "/" l).
  assert (Nl : l <> []) by now apply firstn_succ_nonempty.
  assert (Fl : Forall slash_free l) by now apply Forall_firstn.
  destruct (existsb (String.eqb dir_id) seen) eqn:X.
  - split; [split; assumption|]. cbn [fst].
    apply existsb_exists in X. destruct X as (d & Hd & E).
    apply String.eqb_eq in E. subst d.
    destruct (Hs _ Hd) as (l' & Nl' & Fl' & E & D).
    unfold dir_id in E. apply append_inv_head in E.
    apply join_slash_inj in E; auto. now subst l'.
  - cbn [fst].
    set (g1 := add_node dir_id KDir (nth i parts "") P1st 0 g).
    set (g2 := if (0 <? i)%nat
               then add_edge ("dir:" ++ join "/" (firstn i parts)) dir_id Has g1
               else g1).
    assert (G1 : grows dir_node (fun _ => True) g g1).
    { apply grows_add_node. repeat split. apply (prefix_append "dir:"). }
    assert (G2 : grows dir_node (fun _ => True) g1 g2).
    { unfold g2. destruct (0 <? i)%nat; [now apply grows_add_edge|apply grows_refl]. }
    assert (N2 : Forall dir_node (nodes g2)).
    { eapply grows_nodes_all; [exact G2|].
      eapply grows_nodes_all; [exact G1|exact Hn]. }
    assert (D : dir_done g2 l).
    { split.
      - destruct (add_node_has dir_id KDir (nth i parts "") P1st 0 g) as [n Hn1].
        fold g1 in Hn1. exists n. split; [eapply grows_get_node; eauto|].
        assert (In n (nodes g2)).
        { eapply get_node_In. eapply grows_get_node; eauto. }
        rewrite Forall_forall in N2. now apply N2.
      - intros L. unfold l in L. rewrite length_firstn in L.
        assert (0 < i) as Hpos by lia.
        unfold g2. apply Nat.ltb_lt in Hpos. rewrite Hpos.
        cbn [add_edge edges]. apply in_or_app. right. left.
        unfold dir_id, l. replace (i + 1) with (S i) by lia.
        rewrite removelast_firstn by lia. reflexivity. }
    split; [|exact D]. split; [exact N2|]. cbn [fst snd].
    intros d [<-|Hd].
    + exists l. auto.
    + destruct (Hs _ Hd) as (l' & Nl' & Fl' & E & D').
      exists l'. repeat split; auto; try apply D'.
      * destruct D' as [(n & Hn' & K) _]. exists n. split; [|exact K].
        eapply grows_get_node; [exact G2|].
        eapply grows_get_node; [exact G1|exact Hn'].
      * intros L. eapply grows_edge; [exact G2|].
        eapply grows_edge; [exact G1|]. now apply D'.
Qed.

Lemma scaffold_dirs_inv parts : forall k st,
  Forall slash_free parts -> k <= List.length parts -> scaffold_inv st ->
  scaffold_inv (fold_left (scaffold_dir parts) (seq 0 k) st)
  /\ forall i, i < k ->
       dir_done (fst (fold_left (scaffold_dir parts) (seq 0 k) st))
                (firstn (i + 1) parts).
Proof.
  induction k as [|k IH]; intros st Fp Hk Hs.
  - simpl. split; [exact Hs|]. intros i Hi. lia.
  - rewrite seq_S, fold_left_app. simpl.
    destruct (IH st Fp) as [I1 D1]; [lia|exact Hs|].
    destruct (scaffold_dir_inv parts
                (fold_left (scaffold_dir parts) (seq 0 k) st) k Fp)
      as [I2 D2]; [lia|exact I1|].
    split; [exact I2|]. intros i Hi.
    destruct (Nat.eq_dec i k) as [->|Ne]; [exact D2|].
    eapply dir_done_grows; [apply (scaffold_dir_grows [])|].
    apply D1. lia.
Qed.

Lemma Forall_removelast {A} (P : A -> Prop) l :
  Forall P l -> Forall P (removelast l).
Proof.
  intros H. destruct l as [|a l] using rev_ind; [exact H|].
  rewrite removelast_last. apply Forall_app in H. apply H.
Qed.

Lemma scaffold_file_inv st f :
  Forall slash_free (rel f) -> scaffold_inv st ->
  scaffold_inv (scaffold_file st f)
  /\ forall i, i < List.length (removelast (rel f)) ->
       dir_done (fst (scaffold_file st f)) (firstn (i + 1) (removelast (rel f))).
Proof.
  intros Fr Hs. unfold scaffold_file.
  set (parts := removelast (rel f)).
  assert (Fp : Forall slash_free parts) by now apply Forall_removelast.
  destruct (scaffold_dirs_inv parts (List.length parts) st Fp (le_n _) Hs)
    as [I1 D1].
  set (st1 := fold_left (scaffold_dir parts) (seq 0 (List.length parts)) st) in *.
  destruct (join "/" parts) as [|c s]; [split; assumption|].
  set (e := add_edge _ _ Has (fst st1)).
  assert (G : grows dir_node (fun _ => True) (fst st1) e)
    by now apply grows_add_edge.
  split.
  - destruct I1 as [N1 S1]. split; [exact N1|]. cbn [fst snd].
    intros d Hd. destruct (S1 _ Hd) as (l' & Nl' & Fl' & E & D').
    exists l'. repeat split; auto; try apply D'.
    intros L. eapply grows_edge; [exact G|]. now apply D'.
  - intros i Hi. cbn [fst]. eapply dir_done_grows; [exact G|]. now apply D1.
Qed.

Lemma scaffold_fold_inv l : forall st,
  (forall f, In f l -> Forall slash_free (rel f)) -> scaffold_inv st ->
  scaffold_inv (fold_left scaffold_file l st)
  /\ forall f i, In f l -> i < List.length (removelast (rel f)) ->
       dir_done (fst (fold_left scaffold_file l st))
                (firstn (i + 1) (removelast (rel f))).
Proof.
  induction l as [|x l IH]; intros st Fl Hs.
  - simpl. split; [exact Hs|]. intros f i [].
  - simpl. destruct (scaffold_file_inv st x) as [I1 D1];
      [apply Fl; now left|exact Hs|].
    destruct (IH (scaffold_file st x)) as [I2 D2];
      [intros f Hf; apply Fl; now right|exact I1|].
    split; [exact I2|]. intros f i [<-|Hf] Hi.
    + eapply dir_done_grows;
        [apply (scaffold_fold_grows l l); apply incl_refl|].
      now apply D1.
    + now apply D2.
Qed.
(** ** One file's walk, and the run *)

Lemma CallGraphVisitor_scope_ok g f : scope_ok (CallGraphVisitor g f).
Proof. split; [apply (prefix_append "file:")|constructor]. Qed.

Lemma analyze_step ast_parse f g tree (W : Prop) :
  ast_parse (source f) = Some tree -> (W -> names_ok tree = true) ->
  exists v',
    analyze ast_parse f g = graph v'
    /\ step True W (fun _ => True)
         (on_graph (add_node (file_id_of f) KFile (last (rel f) "") P1st
                             (file_loc (source f)))
                   (CallGraphVisitor g f)) v'.
Proof.
  intros H Hn. rewrite (analyze_parsed _ _ _ _ H). eexists.
  split; [reflexivity|].
  apply push_pop_step with (file_id_of f).
  eapply step_weaken; [|apply visit_step; [exact Hn|]]; [auto|].
  intros _. apply scope_ok_push; [apply CallGraphVisitor_scope_ok|].
  apply (prefix_append "file:").
Qed.

Lemma analyze_grows ast_parse f g :
  grows (fun n => kind n <> KDir)
        (fun e => String.prefix "file:" (src e) = true)
        g (analyze ast_parse f g).
Proof.
  destruct (ast_parse (source f)) as [tree|] eqn:H.
  - destruct (analyze_step ast_parse f g tree False H) as (v' & -> & St);
      [intros []|].
    eapply grows_trans.
    + apply (grows_add_node (fun n => kind n <> KDir)
               (fun e => String.prefix "file:" (src e) = true)
               (file_id_of f) KFile (last (rel f) "") P1st
               (file_loc (source f)) g). discriminate.
    + eapply grows_weaken; [| |apply (step_grows _ _ _ _ _ St)].
      * intros n [K _]. exact K.
      * intros e [K _]. now apply K.
  - rewrite analyze_unparsed by exact H. apply grows_refl.
Qed.

Lemma run_grows ast_parse l : forall g,
  grows (fun n => kind n <> KDir)
        (fun e => String.prefix "file:" (src e) = true)
        g (fold_left (fun g f => analyze ast_parse f g) l g).
Proof.
  intros g. apply fold_grows. intros f g' _. apply analyze_grows.
Qed.

Lemma calls_ok_add_node i k l p sz g :
  calls_ok g -> calls_ok (add_node i k l p sz g).
Proof.
  intros C e He K. rewrite add_node_edges in He.
  destruct (C e He K) as (n & Hn & Kn). exists n. split; [|exact Kn].
  now apply add_node_keeps.
Qed.

Lemma analyze_inv own ast_parse f g :
  (forall i, In i own -> ends_py i = true) ->
  (forall tree, ast_parse (source f) = Some tree ->
     In (file_id_of f) own /\ names_ok tree = true) ->
  Forall (node_ok own) (nodes g) -> calls_ok g ->
  Forall (node_ok own) (nodes (analyze ast_parse f g))
  /\ calls_ok (analyze ast_parse f g).
Proof.
  intros Hown Hf Hn C.
  destruct (ast_parse (source f)) as [tree|] eqn:H;
    [|rewrite analyze_unparsed by exact H; now split].
  destruct (Hf tree eq_refl) as [Hin Hnames].
  rewrite (analyze_parsed _ _ _ _ H).
  set (v1 := on_graph (add_node (file_id_of f) KFile (last (rel f) "") P1st
                                (file_loc (source f)))
                      (CallGraphVisitor g f)).
  assert (S2 : store_ok own (push (file_id_of f) v1)).
  { split.
    - apply scope_ok_push; [apply CallGraphVisitor_scope_ok|].
      apply (prefix_append "file:").
    - eapply grows_nodes_all; [|exact Hn].
      apply (grows_add_node (node_ok own) (fun _ => True)).
      unfold node_ok. cbn [kind id]. now left. }
  assert (C2 : calls_ok (graph (push (file_id_of f) v1)))
    by now apply calls_ok_add_node.
  change (Forall (node_ok own)
            (nodes (graph (visit tree (push (file_id_of f) v1))))
          /\ calls_ok (graph (visit tree (push (file_id_of f) v1)))).
  split.
  - eapply (step_store_ok own True True); [exact I|exact I| |exact S2].
    apply visit_step; auto. intros _. apply S2.
  - now apply (visit_calls_ok own).
Qed.

Lemma own_ids_in ast_parse files f tree :
  In f files -> ast_parse (source f) = Some tree ->
  In (file_id_of f) (own_ids ast_parse files).
Proof.
  intros Hf H. unfold own_ids. apply in_map. apply filter_In.
  split; [exact Hf|]. unfold parses. now rewrite H.
Qed.

Lemma own_ids_py ast_parse files :
  (forall f, In f files -> ends_py (rel_str (rel f)) = true) ->
  forall i, In i (own_ids ast_parse files) -> ends_py i = true.
Proof.
  intros H i Hi. unfold own_ids in Hi. apply in_map_iff in Hi.
  destruct Hi as (f & <- & Hf). apply filter_In in Hf.
  apply ends_py_append. apply H. apply Hf.
Qed.

Lemma dir_node_ok own n : dir_node n -> node_ok own n.
Proof. intros (K & _ & H). unfold node_ok. now rewrite K. Qed.

Lemma build_graph_inv ast_parse files :
  run_ok ast_parse files ->
  Forall (node_ok (own_ids ast_parse files)) (nodes (build_graph ast_parse files))
  /\ calls_ok (build_graph ast_parse files).
Proof.
  intros [Hpy Hnames]. unfold build_graph.
  set (own := own_ids ast_parse files).
  assert (G : forall l g, incl l files ->
            Forall (node_ok own) (nodes g) /\ calls_ok g ->
            Forall (node_ok own)
              (nodes (fold_left (fun g f => analyze ast_parse f g) l g))
            /\ calls_ok (fold_left (fun g f => analyze ast_parse f g) l g)).
  { induction l as [|f l IH]; intros g Hl [Hn C]; [now split|]. simpl.
    apply IH; [intros x Hx; apply Hl; now right|].
    apply (analyze_inv own); auto.
    - now apply own_ids_py.
    - intros tree H. assert (In f files) by (apply Hl; now left). split.
      + eapply own_ids_in; eauto.
      + eapply Hnames; eauto. }
  apply G; [apply incl_refl|].
  destruct (scaffold_nodes_edges files) as [N E]. split.
  - eapply Forall_impl; [|exact N]. intros n. apply dir_node_ok.
  - intros e He K. rewrite Forall_forall in E.
    destruct (E e He) as [K' _]. congruence.
Qed.

(** ** Counting calls edges *)

Lemma is_calls_true e : is_calls e = true <-> ekind e = Calls.
Proof. unfold is_calls. destruct (ekind e); simpl; split; congruence. Qed.

Lemma calls_count_app g es :
  List.length (filter is_calls (edges g ++ es))
  = calls_count g + List.length (filter is_calls es).
Proof. unfold calls_count. now rewrite filter_app, length_app. Qed.

Lemma calls_count_step_none S W v v' :
  step S W (fun _ => False) v v' ->
  calls_count (graph v') = calls_count (graph v).
Proof.
  intros (_ & _ & _ & ns & es & _ & E & _ & FE).
  unfold calls_count at 1. rewrite E, calls_count_app.
  replace (filter is_calls es) with (@nil Edge); [simpl; lia|].
  symmetry. clear E. induction FE as [|e es [_ He] _ IH]; [reflexivity|]. simpl.
  destruct (is_calls e) eqn:K; [|exact IH].
  apply is_calls_true in K. now apply He in K.
Qed.

Lemma calls_count_handle_calls fs v :
  calls_count (graph (handle_calls fs v))
  = calls_count (graph v) + List.length (filter resolvable fs).
Proof.
  unfold calls_count at 1. rewrite handle_calls_edges, calls_count_app.
  f_equal. rewrite <- (call_targets_length fs v).
  induction (call_targets fs v) as [|t ts IH]; [reflexivity|].
  simpl. now rewrite IH.
Qed.

Lemma function_calls_eq n :
  function_calls n =
  (match n with
   | FunctionDef _ _ _ _ _ => reachable_calls n
   | _ => []
   end ++ flat_map function_calls (iter_child_nodes n))%list.
Proof.
  assert (E : forall cs,
    (fix all (cs : list ast) : list ast :=
       match cs with
       | [] => []
       | c :: cs' => (function_calls c ++ all cs')%list
       end) cs = flat_map function_calls cs).
  { induction cs as [|c cs IH]; [reflexivity|]. rewrite IH. reflexivity. }
  destruct n; try reflexivity.
  - cbn [iter_child_nodes app]. rewrite flat_map_app, <- !E. reflexivity.
  - cbn [iter_child_nodes flat_map app]. rewrite app_nil_r. reflexivity.
Qed.

Lemma calls_count_generic_visit cs :
  Forall (fun c => forall v,
            calls_count (graph (visit c v))
            = calls_count (graph v)
              + List.length (filter resolvable (function_calls c))) cs ->
  forall v,
    calls_count (graph (generic_visit cs v))
    = calls_count (graph v)
      + List.length (filter resolvable (flat_map function_calls cs)).
Proof.
  induction 1 as [|c cs Hc Hcs IH]; intros v; [simpl; lia|].
  change (generic_visit (c :: cs) v) with (generic_visit cs (visit c v)).
  rewrite IH, Hc. cbn [flat_map]. rewrite filter_app, length_app. lia.
Qed.

Lemma calls_count_visit n : forall v,
  calls_count (graph (visit n v))
  = calls_count (graph v) + List.length (filter resolvable (function_calls n)).
Proof.
  induction n as [n IH] using ast_children_ind. intros v.
  rewrite function_calls_eq, visit_eq.
  pose proof (calls_count_generic_visit _ IH) as G.
  destruct n; cbn [app]; try apply G.
  - rewrite (calls_count_step_none False False v); [simpl; lia|].
    apply visit_Import_step; intros [].
  - rewrite (calls_count_step_none False False v); [simpl; lia|].
    apply visit_ImportFrom_step; intros [].
  - cbn zeta.
    change (calls_count (graph (pop ?x))) with (calls_count (graph x)).
    rewrite G.
    change (calls_count (graph (push ?i ?x))) with (calls_count (graph x)).
    rewrite (calls_count_step_none False False v); [reflexivity|].
    apply (classdef_head_step False False (fun _ => False)); intros [].
  - cbn zeta.
    change (calls_count (graph (pop ?x))) with (calls_count (graph x)).
    rewrite G, walk_is_handle_calls, calls_count_handle_calls.
    change (calls_count (graph (push ?i ?x))) with (calls_count (graph x)).
    rewrite (calls_count_step_none False False v);
      [rewrite filter_app, length_app; lia|].
    apply (functiondef_head_step False False (fun _ => False)); intros [].
Qed.

Lemma no_function_no_calls n :
  has_function n = false -> function_calls n = [].
Proof.
  induction n as [n IH] using ast_children_ind. intros H.
  rewrite function_calls_eq.
  assert (E : forall cs,
    (fix any (cs : list ast) : bool :=
       match cs with
       | [] => false
       | c :: cs' => has_function c || any cs'
       end) cs = false ->
    Forall (fun n => has_function n = false -> function_calls n = []) cs ->
    flat_map function_calls cs = []).
  { induction cs as [|c cs IHcs]; intros A F; [reflexivity|].
    apply orb_false_iff in A. destruct A as [A1 A2].
    inversion F; subst. simpl. rewrite IHcs by auto. rewrite H2 by auto.
    reflexivity. }
  destruct n; simpl in *; try reflexivity; try discriminate; auto.
  - apply orb_false_iff in H. destruct H as [H1 H2].
    apply Forall_app in IH. destruct IH as [I1 I2].
    rewrite flat_map_app, (E bases), (E rest); auto.
  - apply orb_false_iff in H. destruct H as [H1 H2].
    inversion IH; subst. rewrite (E args) by auto. rewrite H3 by auto.
    reflexivity.
  - inversion IH; subst. rewrite H2 by auto. reflexivity.
Qed.
(** ** Files that do not parse *)

Lemma fold_analyze_filter ast_parse l : forall g,
  fold_left (fun g f => analyze ast_parse f g) l g
  = fold_left (fun g f => analyze ast_parse f g) (filter (parses ast_parse) l) g.
Proof.
  induction l as [|f l IH]; intros g; [reflexivity|]. simpl.
  unfold parses at 1. destruct (ast_parse (source f)) eqn:H.
  - simpl. apply IH.
  - rewrite analyze_unparsed by exact H. apply IH.
Qed.

Lemma rel_str_has_slash f :
  join "/" (removelast (rel f)) <> "" ->
  contains_char "/" (rel_str (rel f)) = true.
Proof.
  intros H. unfold rel_str. destruct (rel f) as [|p l] eqn:E.
  - now elim H.
  - assert (N : p :: l <> []) by discriminate.
    rewrite (app_removelast_last "" N) in *.
    rewrite removelast_last in H.
    rewrite join_app_last; [|intros Z; rewrite Z in H; now elim H].
    rewrite !contains_char_append. simpl. now rewrite orb_true_r.
Qed.

Lemma NoDup_map_inj {A B} (f : A -> B) l a b :
  NoDup (map f l) -> In a l -> In b l -> f a = f b -> a = b.
Proof.
  induction l as [|x l IH]; intros N Ha Hb E; [destruct Ha|].
  simpl in N. inversion N as [|? ? Nx Nl]; subst.
  destruct Ha as [->|Ha], Hb as [->|Hb]; auto.
  - exfalso. apply Nx. rewrite E. now apply in_map.
  - exfalso. apply Nx. rewrite <- E. now apply in_map.
Qed.

Lemma unwalked_file_id_free own n r :
  node_ok own n -> id n = "file:" ++ r ->
  contains_char "/" r = true -> ends_py r = true ->
  ~ In ("file:" ++ r) own -> False.
Proof.
  intros H E Hs Hp Hown. unfold node_ok in H.
  assert (Pf : String.prefix "file:" (id n) = true)
    by (rewrite E; apply (prefix_append "file:")).
  assert (Py : ends_py (id n) = true) by (rewrite E; now apply ends_py_append).
  destruct (kind n).
  - eapply dir_not_file; eauto.
  - destruct H as [H|(m & Em & Hm)].
    + apply Hown. now rewrite <- E.
    + rewrite E in Em. apply append_inv_head in Em. subst m.
      unfold module_ok in Hm. rewrite Hs in Hm. simpl in Hm.
      now rewrite andb_false_r in Hm.
  - destruct H as [H|H]; [eapply class_not_file; eauto|].
    rewrite (own_def_not_py _ _ H) in Py. discriminate.
  - destruct H as [H|H]; [eapply function_not_file; eauto|].
    rewrite (own_def_not_py _ _ H) in Py. discriminate.
Qed.

Lemma build_graph_grows ast_parse files :
  grows (fun n => kind n <> KDir)
        (fun e => String.prefix "file:" (src e) = true)
        (scaffold files) (build_graph ast_parse files).
Proof. apply run_grows. Qed.

Lemma build_graph_external_not_dir ast_parse files n :
  In n (nodes (build_graph ast_parse files)) -> party n = P3rd -> kind n <> KDir.
Proof.
  intros Hn Hp.
  destruct (build_graph_grows ast_parse files) as (ns & es & N & _ & FN & _).
  rewrite N in Hn. apply in_app_or in Hn. destruct Hn as [Hn|Hn].
  - destruct (scaffold_nodes_edges files) as [D _].
    rewrite Forall_forall in D. destruct (D n Hn) as (_ & P & _). congruence.
  - rewrite Forall_forall in FN. now apply FN.
Qed.

Lemma build_graph_dir_edges ast_parse files e :
  In e (edges (build_graph ast_parse files)) ->
  String.prefix "dir:" (src e) = true -> scaffold_edge files e.
Proof.
  intros He Hp.
  destruct (build_graph_grows ast_parse files) as (ns & es & _ & E & _ & FE).
  rewrite E in He. apply in_app_or in He. destruct He as [He|He].
  - destruct (scaffold_nodes_edges files) as [_ D].
    rewrite Forall_forall in D. now apply D.
  - rewrite Forall_forall in FE. exfalso.
    eapply dir_not_file; [exact Hp|now apply FE].
Qed.
Lemma analyze_has_file_node ast_parse f g tree :
  ast_parse (source f) = Some tree ->
  exists n, get_node (nodes (analyze ast_parse f g)) (file_id_of f) = Some n.
Proof.
  intros H. destruct (analyze_rest ast_parse f g tree H) as (v' & -> & St).
  destruct (add_node_has (file_id_of f) KFile (last (rel f) "") P1st
              (file_loc (source f)) g) as [n Hn].
  exists n. eapply step_get_node; [exact St|exact Hn].
Qed.

Lemma build_graph_has_file_node ast_parse files f tree :
  In f files -> ast_parse (source f) = Some tree ->
  exists n, get_node (nodes (build_graph ast_parse files)) (file_id_of f) = Some n.
Proof.
  intros Hf H. unfold build_graph.
  generalize (scaffold files) as g.
  induction files as [|x l IH]; intros g; [destruct Hf|].
  simpl. destruct Hf as [->|Hf]; [|now apply IH].
  destruct (analyze_has_file_node ast_parse f g tree H) as [n Hn].
  exists n. eapply grows_get_node; [apply run_grows|exact Hn].
Qed.

Lemma root_file_no_slash parts :
  Forall slash_free parts -> removelast parts = [] ->
  contains_char "/" (rel_str parts) = false.
Proof.
  intros F E. destruct parts as [|p [|q l]]; try reflexivity.
  - inversion F; subst. assumption.
  - simpl in E. discriminate.
Qed.

Lemma _handle_call_graph func v called :
  _resolve_name func = Some called ->
  graph (_handle_call func v)
  = add_edge (_current_scope_id v) (fst (_resolve_target called v)) Calls
             (graph (snd (_resolve_target called v))).
Proof.
  intros H. unfold _handle_call. rewrite H.
  destruct (_resolve_target_frame called v) as (_ & F & Sc).
  destruct (_resolve_target called v) as [t v1]. simpl in *.
  unfold _current_scope_id. now rewrite F, Sc.
Qed.
(** ** A general induction over the walk

    The walk adds nodes at five places and edges at five; a property
    of the nodes and edges of a walk follows from the property at each
    place, for an invariant [I] of the visitor that growth of the
    store and the push of a definition's id keep. *)

Section Sites.

Variable I : Visitor -> Prop.
Variable PN : Node -> Prop.
Variable PE : list Node -> Edge -> Prop.

Hypothesis PE_mono : forall ns ms e, PE ns e -> PE (ns ++ ms) e.

Hypothesis I_grows : forall v v',
  I v -> file_id v' = file_id v -> _scope v' = _scope v ->
  (exists ns, nodes (graph v') = (nodes (graph v) ++ ns)%list /\ Forall PN ns) ->
  I v'.

Hypothesis I_push : forall v k name,
  I v -> has_node (nodes (graph v)) (_make_id k name v) = true ->
  I (push (_make_id k name v) v).

Hypothesis site_import : forall v m,
  I v ->
  PN (mkNode ("file:" ++ m) KFile m P3rd 0)
  /\ PE (nodes (graph (on_graph (add_node ("file:" ++ m) KFile m P3rd 0) v)))
        (mkEdge (_current_scope_id v) ("file:" ++ m) Imports).

Hypothesis site_def : forall v k name sz,
  I v -> k = KClass \/ k = KFunction ->
  PN (mkNode (_make_id (NodeKind_str k) name v) k name P1st sz)
  /\ PE (nodes (graph (on_graph
            (add_node (_make_id (NodeKind_str k) name v) k name P1st sz) v)))
        (mkEdge (_current_scope_id v) (_make_id (NodeKind_str k) name v) Has).

Hypothesis site_base : forall v name c b,
  I v -> has_node (nodes (graph v)) (_make_id "class" name v) = true ->
  PN (mkNode ("class:" ++ String c b) KClass (String c b) P3rd 0)
  /\ PE (nodes (graph (on_graph
            (add_node ("class:" ++ String c b) KClass (String c b) P3rd 0) v)))
        (mkEdge (_make_id "class" name v) ("class:" ++ String c b) Is).

Hypothesis site_call : forall v called,
  I v ->
  PN (mkNode ("function:" ++ called) KFunction (short_name_of called) P3rd 0)
  /\ PE (nodes (graph (snd (_resolve_target called v))))
        (mkEdge (_current_scope_id v) (fst (_resolve_target called v)) Calls).

Lemma evolves_refl v : evolves PN PE v v.
Proof.
  repeat split. exists [], []. rewrite !app_nil_r. repeat split; constructor.
Qed.

Lemma evolves_trans v1 v2 v3 :
  evolves PN PE v1 v2 -> evolves PN PE v2 v3 -> evolves PN PE v1 v3.
Proof.
  intros (F1 & R1 & S1 & ns1 & es1 & N1 & E1 & FN1 & FE1)
         (F2 & R2 & S2 & ns2 & es2 & N2 & E2 & FN2 & FE2).
  repeat split; try congruence.
  exists (ns1 ++ ns2)%list, (es1 ++ es2)%list.
  split; [now rewrite N2, N1, <- app_assoc|].
  split; [now rewrite E2, E1, <- app_assoc|].
  split; [apply Forall_app; now split|].
  apply Forall_app. split; [|exact FE2].
  rewrite N2. eapply Forall_impl; [|exact FE1]. intros e. apply PE_mono.
Qed.

Lemma evolves_I v v' : evolves PN PE v v' -> I v -> I v'.
Proof.
  intros (F & R & S & ns & es & N & E & FN & FE) H.
  apply (I_grows v v'); auto. now exists ns.
Qed.

Lemma evolves_current v v' :
  evolves PN PE v v' -> _current_scope_id v' = _current_scope_id v.
Proof. intros (F & _ & S & _). unfold _current_scope_id. now rewrite F, S. Qed.

Lemma evolves_has_node v v' i :
  evolves PN PE v v' -> has_node (nodes (graph v)) i = true ->
  has_node (nodes (graph v')) i = true.
Proof.
  intros (_ & _ & _ & ns & es & N & _) H. unfold has_node in *.
  rewrite N, get_node_app. now destruct (get_node (nodes (graph v)) i).
Qed.

Lemma evolves_add_node i k l p sz v :
  PN (mkNode i k l p sz) -> evolves PN PE v (on_graph (add_node i k l p sz) v).
Proof.
  intros H. repeat split.
  destruct (add_node_nodes_app i k l p sz (graph v)) as (extra & E & C).
  exists extra, []. cbn [graph on_graph]. rewrite E, add_node_edges, app_nil_r.
  repeat split; [|constructor].
  destruct C as [->|[-> _]]; repeat constructor; exact H.
Qed.

Lemma evolves_add_edge s d k v :
  PE (nodes (graph v)) (mkEdge s d k) ->
  evolves PN PE v (on_graph (add_edge s d k) v).
Proof.
  intros H. repeat split. exists [], [mkEdge s d k].
  cbn [graph on_graph add_edge nodes edges]. rewrite app_nil_r.
  repeat split; repeat constructor; exact H.
Qed.

Lemma evolves_push_pop i v v' :
  evolves PN PE (push i v) v' -> evolves PN PE v (pop v').
Proof.
  intros (F1 & R1 & S1 & ns & es & N1 & E1 & FN & FE).
  repeat split; try assumption.
  - simpl. rewrite S1. simpl. apply removelast_last.
  - exists ns, es. repeat split; assumption.
Qed.

Lemma evolves_fold {A} (f : Visitor -> A -> Visitor) (Q : A -> Prop) l :
  (forall a v, Q a -> I v -> evolves PN PE v (f v a)) ->
  Forall Q l -> forall v, I v -> evolves PN PE v (fold_left f l v).
Proof.
  intros Hf HQ. induction HQ as [|a l Ha Hl IH]; intros v Hv; simpl.
  - apply evolves_refl.
  - eapply evolves_trans; [apply Hf; eauto|].
    apply IH. eapply evolves_I; [apply Hf|]; eauto.
Qed.

Lemma evolves_import m v :
  I v ->
  evolves PN PE v
    (on_graph (add_edge (_current_scope_id (on_graph (add_node ("file:" ++ m) KFile m P3rd 0) v))
                        ("file:" ++ m) Imports)
              (on_graph (add_node ("file:" ++ m) KFile m P3rd 0) v)).
Proof.
  intros H. destruct (site_import v m H) as [A B].
  apply evolves_trans with (on_graph (add_node ("file:" ++ m) KFile m P3rd 0) v).
  - now apply evolves_add_node.
  - apply evolves_add_edge. exact B.
Qed.

Lemma visit_Import_evolves names v : I v -> evolves PN PE v (visit_Import names v).
Proof.
  intros H. unfold visit_Import.
  apply (evolves_fold _ (fun _ => True)); auto.
  - intros m w _ Hw. now apply evolves_import.
  - apply Forall_forall. auto.
Qed.

Lemma visit_ImportFrom_evolves m v :
  I v -> evolves PN PE v (visit_ImportFrom m v).
Proof.
  intros H. destruct m as [m|]; [now apply evolves_import|apply evolves_refl].
Qed.

Lemma _resolve_target_evolves called v :
  I v -> evolves PN PE v (snd (_resolve_target called v)).
Proof.
  intros H. destruct (site_call v called H) as [A _].
  unfold _resolve_target.
  destruct (find _ (nodes (graph v))); [apply evolves_refl|].
  destruct (split_matches _ _ _) as [[|i sf] [|j ot]]; try apply evolves_refl.
  cbn [snd]. now apply evolves_add_node.
Qed.

Lemma _handle_call_evolves f v : I v -> evolves PN PE v (_handle_call f v).
Proof.
  intros H. unfold _handle_call.
  destruct (_resolve_name f) as [called|]; [|apply evolves_refl].
  pose proof (_resolve_target_evolves called v H) as St.
  destruct (site_call v called H) as [_ B].
  pose proof (evolves_current _ _ St) as C.
  destruct (_resolve_target called v) as [t v1]. cbn [fst snd] in *.
  eapply evolves_trans; [exact St|].
  apply evolves_add_edge. now rewrite C.
Qed.

Lemma _walk_body_for_calls_evolves n v :
  I v -> evolves PN PE v (_walk_body_for_calls n v).
Proof.
  intros H. rewrite walk_is_handle_calls. unfold handle_calls.
  apply (evolves_fold _ (fun _ => True)); auto.
  - intros f w _ Hw. now apply _handle_call_evolves.
  - apply Forall_forall. auto.
Qed.

Lemma visit_bases_evolves name bases : forall v,
  I v -> has_node (nodes (graph v)) (_make_id "class" name v) = true ->
  evolves PN PE v (fold_left (visit_base (_make_id "class" name v)) bases v)
  /\ has_node (nodes (graph (fold_left (visit_base (_make_id "class" name v))
                                       bases v)))
              (_make_id "class" name v) = true.
Proof.
  induction bases as [|b bases IH]; intros v Hv Hc; simpl.
  - split; [apply evolves_refl|exact Hc].
  - set (cls_id := _make_id "class" name v) in *.
    assert (St : evolves PN PE v (visit_base cls_id v b)).
    { unfold visit_base.
      destruct (_resolve_name b) as [[|c s]|]; try apply evolves_refl.
      destruct (site_base v name c s Hv Hc) as [A B].
      apply evolves_trans with
        (on_graph (add_node ("class:" ++ String c s) KClass (String c s) P3rd 0) v).
      - now apply evolves_add_node.
      - apply evolves_add_edge. exact B. }
    assert (E : cls_id = _make_id "class" name (visit_base cls_id v b)).
    { unfold _make_id. rewrite (evolves_current _ _ St). reflexivity. }
    destruct (IH (visit_base cls_id v b)) as [S2 H2].
    + eapply evolves_I; eauto.
    + rewrite <- E. eapply evolves_has_node; eauto.
    + rewrite <- E in S2, H2.
      split; [eapply evolves_trans; eauto|exact H2].
Qed.

Lemma def_head_evolves v k name sz :
  I v -> k = KClass \/ k = KFunction ->
  let i := _make_id (NodeKind_str k) name v in
  let v1 := on_graph (add_node i k name P1st sz) v in
  let v2 := on_graph (add_edge (_current_scope_id v1) i Has) v1 in
  evolves PN PE v v2 /\ has_node (nodes (graph v2)) i = true.
Proof.
  intros H K i v1 v2. destruct (site_def v k name sz H K) as [A B].
  split.
  - apply evolves_trans with v1.
    + now apply evolves_add_node.
    + apply evolves_add_edge. exact B.
  - cbn [v2 v1 graph on_graph add_edge nodes]. unfold has_node.
    destruct (add_node_has i k name P1st sz (graph v)) as [n ->]. reflexivity.
Qed.

Lemma generic_visit_evolves cs :
  Forall (fun c => forall v, I v -> evolves PN PE v (visit c v)) cs ->
  forall v, I v -> evolves PN PE v (generic_visit cs v).
Proof.
  intros IH v Hv. unfold generic_visit.
  apply (evolves_fold (fun v c => visit c v)
           (fun c => forall v, I v -> evolves PN PE v (visit c v))); auto.
Qed.

Lemma visit_evolves n : forall v, I v -> evolves PN PE v (visit n v).
Proof.
  induction n as [n IH] using ast_children_ind. intros v Hv.
  rewrite visit_eq. destruct n.
  - now apply visit_Import_evolves.
  - now apply visit_ImportFrom_evolves.
  - cbn zeta.
    destruct (def_head_evolves v KClass name (def_loc lineno end_lineno) Hv
                (or_introl eq_refl)) as [S1 H1]. cbv zeta in S1, H1.
    cbn [NodeKind_str] in S1, H1.
    set (cls_id := _make_id "class" name v) in *.
    set (v2 := on_graph (add_edge _ cls_id Has) _) in *.
    assert (E2 : cls_id = _make_id "class" name v2) by reflexivity.
    destruct (visit_bases_evolves name bases v2) as [S2 H2];
      [eapply evolves_I; eauto|now rewrite <- E2|].
    rewrite <- E2 in S2, H2.
    set (v3 := fold_left (visit_base cls_id) bases v2) in *.
    eapply evolves_trans; [exact S1|]. eapply evolves_trans; [exact S2|].
    apply evolves_push_pop with cls_id.
    apply generic_visit_evolves; [exact IH|].
    assert (I3 : I v3) by (eapply evolves_I; [exact S2|eapply evolves_I; eauto]).
    assert (C3 : _current_scope_id v3 = _current_scope_id v).
    { rewrite (evolves_current _ _ S2). apply (evolves_current _ _ S1). }
    assert (E3 : cls_id = _make_id "class" name v3).
    { unfold cls_id. rewrite !_make_id_eq. now rewrite C3. }
    rewrite E3. apply I_push; [exact I3|]. now rewrite <- E3.
  - cbn zeta.
    destruct (def_head_evolves v KFunction name (def_loc lineno end_lineno) Hv
                (or_intror eq_refl)) as [S1 H1]. cbv zeta in S1, H1.
    cbn [NodeKind_str] in S1, H1.
    set (func_id := _make_id "function" name v) in *.
    set (v2 := on_graph (add_edge _ func_id Has) _) in *.
    eapply evolves_trans; [exact S1|].
    apply evolves_push_pop with func_id.
    assert (I2 : I v2) by (eapply evolves_I; eauto).
    assert (E2 : func_id = _make_id "function" name v2) by reflexivity.
    assert (I3 : I (push func_id v2)).
    { rewrite E2. apply I_push; [exact I2|]. now rewrite <- E2. }
    eapply evolves_trans; [apply _walk_body_for_calls_evolves; exact I3|].
    apply generic_visit_evolves; [exact IH|].
    eapply evolves_I; [apply _walk_body_for_calls_evolves|]; exact I3.
  - apply generic_visit_evolves; auto.
  - apply evolves_refl.
  - apply generic_visit_evolves; auto.
  - apply generic_visit_evolves; auto.
Qed.

(** The same for the walk of one file and for the run, over files
    with the property [Fok]. *)

Variable Fok : SourceFile -> Prop.

Hypothesis site_file : forall g f,
  Fok f -> Forall PN (nodes g) ->
  PN (mkNode (file_id_of f) KFile (last (rel f) "") P1st (file_loc (source f)))
  /\ I (push (file_id_of f)
          (on_graph (add_node (file_id_of f) KFile (last (rel f) "") P1st
                              (file_loc (source f)))
                    (CallGraphVisitor g f))).

Variable ast_parse : string -> option ast.

Lemma analyze_evolves f g :
  Fok f -> Forall PN (nodes g) ->
  exists ns es,
    nodes (analyze ast_parse f g) = (nodes g ++ ns)%list
    /\ edges (analyze ast_parse f g) = (edges g ++ es)%list
    /\ Forall PN ns
    /\ Forall (PE (nodes (analyze ast_parse f g))) es.
Proof.
  intros Hf Hg. destruct (ast_parse (source f)) as [tree|] eqn:H.
  - rewrite (analyze_parsed _ _ _ _ H).
    destruct (site_file g f Hf Hg) as [A B].
    set (v1 := on_graph (add_node (file_id_of f) KFile (last (rel f) "") P1st
                                  (file_loc (source f)))
                        (CallGraphVisitor g f)) in *.
    assert (St : evolves PN PE (CallGraphVisitor g f)
                   (pop (visit tree (push (file_id_of f) v1)))).
    { apply evolves_trans with v1; [now apply evolves_add_node|].
      apply evolves_push_pop with (file_id_of f). now apply visit_evolves. }
    destruct St as (_ & _ & _ & ns & es & N & E & FN & FE).
    exists ns, es. auto.
  - rewrite analyze_unparsed by exact H. exists [], [].
    rewrite !app_nil_r. repeat split; constructor.
Qed.

Lemma run_evolves l : forall g,
  Forall Fok l -> Forall PN (nodes g) ->
  exists ns es,
    nodes (fold_left (fun g f => analyze ast_parse f g) l g) = (nodes g ++ ns)%list
    /\ edges (fold_left (fun g f => analyze ast_parse f g) l g) = (edges g ++ es)%list
    /\ Forall PN ns
    /\ Forall (PE (nodes (fold_left (fun g f => analyze ast_parse f g) l g))) es.
Proof.
  induction l as [|f l IH]; intros g Hl Hg; simpl.
  - exists [], []. rewrite !app_nil_r. repeat split; constructor.
  - inversion Hl as [|? ? Hf Hl']; subst.
    destruct (analyze_evolves f g Hf Hg) as (ns1 & es1 & N1 & E1 & FN1 & FE1).
    destruct (IH (analyze ast_parse f g) Hl') as (ns2 & es2 & N2 & E2 & FN2 & FE2).
    { rewrite N1. apply Forall_app. now split. }
    exists (ns1 ++ ns2)%list, (es1 ++ es2)%list.
    split; [now rewrite N2, N1, <- app_assoc|].
    split; [now rewrite E2, E1, <- app_assoc|].
    split; [apply Forall_app; now split|].
    apply Forall_app. split; [|exact FE2].
    rewrite N2. eapply Forall_impl; [|exact FE1]. intros e. apply PE_mono.
Qed.

Lemma build_graph_evolves files :
  Forall Fok files -> Forall PN (nodes (scaffold files)) ->
  exists ns es,
    nodes (build_graph ast_parse files) = (nodes (scaffold files) ++ ns)%list
    /\ edges (build_graph ast_parse files) = (edges (scaffold files) ++ es)%list
    /\ Forall PN ns
    /\ Forall (PE (nodes (build_graph ast_parse files))) es.
Proof. intros Hf H. unfold build_graph. now apply run_evolves. Qed.

End Sites.
(** ** No edge of the walk dangles *)

Lemma has_node_In ns n : In n ns -> has_node ns (id n) = true.
Proof.
  intros H. unfold has_node.
  destruct (get_node ns (id n)) eqn:E; [reflexivity|].
  exfalso. apply (proj1 (get_node_None ns (id n)) E n H). reflexivity.
Qed.

Lemma has_node_app ns ms i :
  has_node ns i = true -> has_node (ns ++ ms) i = true.
Proof.
  unfold has_node. rewrite get_node_app. now destruct (get_node ns i).
Qed.

Lemma has_node_add_node i k l p sz g j :
  has_node (nodes g) j = true -> has_node (nodes (add_node i k l p sz g)) j = true.
Proof.
  destruct (add_node_nodes_app i k l p sz g) as (extra & -> & _).
  apply has_node_app.
Qed.

Lemma has_node_added i k l p sz g :
  has_node (nodes (add_node i k l p sz g)) i = true.
Proof.
  unfold has_node. destruct (add_node_has i k l p sz g) as [n ->]. reflexivity.
Qed.

Lemma anchored_mono ns ms e : anchored ns e -> anchored (ns ++ ms) e.
Proof.
  intros (A & B & C). repeat split; try now apply has_node_app.
  intros K. destruct (C K) as (n & Hn & R). exists n. split; [|exact R].
  apply in_or_app. now left.
Qed.

Lemma live_grows v v' :
  live v -> file_id v' = file_id v -> _scope v' = _scope v ->
  (exists ns, nodes (graph v') = (nodes (graph v) ++ ns)%list
              /\ Forall placeholder_kind ns) ->
  live v'.
Proof.
  intros (A & B & C) F S (ns & N & FN). split; [|split].
  - destruct A as [A1 A2]. split; [now rewrite F|now rewrite S].
  - unfold _current_scope_id. rewrite F, S, N. now apply has_node_app.
  - rewrite N. apply Forall_app. now split.
Qed.

Lemma live_push v k name :
  live v -> has_node (nodes (graph v)) (_make_id k name v) = true ->
  live (push (_make_id k name v) v).
Proof.
  intros (A & B & C) H. split; [|split].
  - apply scope_ok_push; [exact A|now apply _make_id_prefix].
  - rewrite current_push. exact H.
  - exact C.
Qed.

Lemma split_matches_in fid short ns i :
  In i (fst (split_matches fid short ns)) \/ In i (snd (split_matches fid short ns)) ->
  exists n, In n ns /\ id n = i /\ is_function_or_class (kind n) = true.
Proof.
  rewrite split_matches_filter. cbn [fst snd].
  intros [H|H]; apply in_map_iff in H; destruct H as (n & E & Hn);
    apply filter_In in Hn; destruct Hn as [Hn P];
    apply andb_true_iff in P; destruct P as [P _];
    apply andb_true_iff in P; destruct P as [_ P]; exists n; auto.
Qed.

Lemma _resolve_target_found name v :
  Forall placeholder_kind (nodes (graph v)) ->
  exists n, In n (nodes (graph (snd (_resolve_target name v))))
            /\ id n = fst (_resolve_target name v)
            /\ is_function_or_class (kind n) = true.
Proof.
  intros Hp. unfold _resolve_target.
  destruct (find _ (nodes (graph v))) as [n|] eqn:F.
  - apply find_some in F. destruct F as [Hn P].
    apply andb_true_iff in P. exists n. cbn [fst snd]. tauto.
  - pose proof (split_matches_in (file_id v) (short_name_of name)
                  (nodes (graph v))) as M.
    destruct (split_matches _ _ _) as [[|i sf] [|j ot]]; cbn [fst snd] in *.
    + set (pid := "function:" ++ name).
      destruct (get_node (nodes (graph v)) pid) as [n|] eqn:G.
      * exists n. split; [|split].
        -- apply get_node_In with pid. now apply add_node_keeps.
        -- eapply get_node_id; eauto.
        -- rewrite Forall_forall in Hp.
           rewrite (Hp n (get_node_In _ _ _ G)); [reflexivity|].
           rewrite (get_node_id _ _ _ G). apply (prefix_append "function:").
      * exists (mkNode pid KFunction (short_name_of name) P3rd 0).
        split; [|split; reflexivity].
        apply get_node_In with pid. now apply add_node_gets.
    + apply (M j). right. now left.
    + apply (M i). left. now left.
    + apply (M i). left. now left.
Qed.

Lemma _resolve_target_has_node name v i :
  has_node (nodes (graph v)) i = true ->
  has_node (nodes (graph (snd (_resolve_target name v)))) i = true.
Proof.
  intros H. destruct (_resolve_target_step False False (fun _ => True) name v)
    as (_ & _ & _ & ns & es & N & _).
  rewrite N. now apply has_node_app.
Qed.

Lemma live_site_import v m :
  live v ->
  placeholder_kind (mkNode ("file:" ++ m) KFile m P3rd 0)
  /\ anchored (nodes (graph (on_graph (add_node ("file:" ++ m) KFile m P3rd 0) v)))
              (mkEdge (_current_scope_id v) ("file:" ++ m) Imports).
Proof.
  intros (A & B & C). split; [intros H; discriminate H|].
  repeat split; cbn [src dst ekind graph on_graph].
  - now apply has_node_add_node.
  - apply has_node_added.
  - discriminate.
Qed.

Lemma live_site_def v k name sz :
  live v -> k = KClass \/ k = KFunction ->
  placeholder_kind (mkNode (_make_id (NodeKind_str k) name v) k name P1st sz)
  /\ anchored (nodes (graph (on_graph
                 (add_node (_make_id (NodeKind_str k) name v) k name P1st sz) v)))
              (mkEdge (_current_scope_id v) (_make_id (NodeKind_str k) name v) Has).
Proof.
  intros (A & B & C) K. split.
  - intros H. exfalso. cbn [id] in H.
    eapply function_not_file; [exact H|now apply _make_id_prefix].
  - repeat split; cbn [src dst ekind graph on_graph].
    + now apply has_node_add_node.
    + apply has_node_added.
    + discriminate.
Qed.

Lemma live_site_base v name c b :
  live v -> has_node (nodes (graph v)) (_make_id "class" name v) = true ->
  placeholder_kind (mkNode ("class:" ++ String c b) KClass (String c b) P3rd 0)
  /\ anchored (nodes (graph (on_graph
                 (add_node ("class:" ++ String c b) KClass (String c b) P3rd 0) v)))
              (mkEdge (_make_id "class" name v) ("class:" ++ String c b) Is).
Proof.
  intros (A & B & C) H. split; [intros X; discriminate X|].
  repeat split; cbn [src dst ekind graph on_graph].
  - now apply has_node_add_node.
  - apply has_node_added.
  - discriminate.
Qed.

Lemma live_site_call v called :
  live v ->
  placeholder_kind (mkNode ("function:" ++ called) KFunction
                           (short_name_of called) P3rd 0)
  /\ anchored (nodes (graph (snd (_resolve_target called v))))
              (mkEdge (_current_scope_id v) (fst (_resolve_target called v)) Calls).
Proof.
  intros (A & B & C). split; [intros _; reflexivity|].
  destruct (_resolve_target_found called v C) as (n & Hn & E & K).
  repeat split; cbn [src dst ekind].
  - now apply _resolve_target_has_node.
  - rewrite <- E. now apply has_node_In.
  - intros _. exists n. auto.
Qed.

Lemma live_site_file g f :
  True -> Forall placeholder_kind (nodes g) ->
  placeholder_kind (mkNode (file_id_of f) KFile (last (rel f) "") P1st
                           (file_loc (source f)))
  /\ live (push (file_id_of f)
             (on_graph (add_node (file_id_of f) KFile (last (rel f) "") P1st
                                 (file_loc (source f)))
                       (CallGraphVisitor g f))).
Proof.
  intros _ H. split; [intros X; discriminate X|]. split; [|split].
  - apply scope_ok_push; [apply CallGraphVisitor_scope_ok|].
    apply (prefix_append "file:").
  - rewrite current_push. apply has_node_added.
  - cbn [graph push on_graph CallGraphVisitor].
    eapply grows_nodes_all; [|exact H].
    apply (grows_add_node placeholder_kind (fun _ => True)).
    intros X. discriminate X.
Qed.

Lemma build_graph_walk_anchored ast_parse files :
  Forall placeholder_kind (nodes (scaffold files)) ->
  exists ns es,
    nodes (build_graph ast_parse files) = (nodes (scaffold files) ++ ns)%list
    /\ edges (build_graph ast_parse files) = (edges (scaffold files) ++ es)%list
    /\ Forall placeholder_kind ns
    /\ Forall (anchored (nodes (build_graph ast_parse files))) es.
Proof.
  apply (build_graph_evolves live placeholder_kind anchored anchored_mono
           live_grows live_push live_site_import live_site_def live_site_base
           live_site_call (fun _ => True) live_site_file).
  apply Forall_forall. auto.
Qed.
(** ** No edge of the scaffolder dangles at its start *)

Lemma has_node_grows PN PE g g' i :
  grows PN PE g g' -> has_node (nodes g) i = true -> has_node (nodes g') i = true.
Proof.
  intros (ns & es & N & _) H. rewrite N. now apply has_node_app.
Qed.

Lemma scaffold_anchored_grows files g g' seen :
  (exists ns, nodes g' = (nodes g ++ ns)%list) -> edges g' = edges g ->
  scaffold_anchored files (g, seen) -> scaffold_anchored files (g', seen).
Proof.
  intros (ns & N) E [A B]. cbn [fst snd] in *. split.
  - intros d Hd. cbn [fst snd]. rewrite N. apply has_node_app. now apply A.
  - intros e He. cbn [fst snd] in *. rewrite E in He.
    destruct (B e He) as (K & S & D).
    split; [exact K|]. rewrite N. split; [now apply has_node_app|].
    destruct D as [D|D]; [left; now apply has_node_app|now right].
Qed.

Lemma scaffold_anchored_add_edge files g seen e :
  scaffold_anchored files (g, seen) ->
  ekind e = Has -> has_node (nodes g) (src e) = true ->
  (has_node (nodes g) (dst e) = true
   \/ exists f, In f files
        /\ e = mkEdge ("dir:" ++ join "/" (removelast (rel f))) (file_id_of f) Has) ->
  scaffold_anchored files (add_edge (src e) (dst e) (ekind e) g, seen).
Proof.
  intros [A B] K S D. split; [exact A|]. cbn [fst snd add_edge edges nodes] in *.
  intros x Hx. apply in_app_or in Hx. destruct Hx as [Hx|[<-|[]]].
  - now apply B.
  - cbn [src dst ekind]. destruct e as [s d k]. cbn [src dst ekind] in *. auto.
Qed.

Lemma scaffold_dir_anchored files parts st i :
  scaffold_anchored files st ->
  (0 < i -> In ("dir:" ++ join "/" (firstn i parts)) (snd st)) ->
  scaffold_anchored files (scaffold_dir parts st i)
  /\ In ("dir:" ++ join "/" (firstn (i + 1) parts)) (snd (scaffold_dir parts st i))
  /\ incl (snd st) (snd (scaffold_dir parts st i)).
Proof.
  intros H Hp. destruct st as [g seen]. unfold scaffold_dir.
  set (dir_id := "dir:" ++ join "/" (firstn (i + 1) parts)).
  destruct (existsb (String.eqb dir_id) seen) eqn:X.
  - split; [exact H|]. split; [|apply incl_refl].
    apply existsb_exists in X. destruct X as (d & Hd & E).
    apply String.eqb_eq in E. now subst d.
  - cbn [snd] in *. split; [|split; [now left|now apply incl_tl, incl_refl]].
    set (g1 := add_node dir_id KDir (nth i parts "") P1st 0 g).
    assert (H1 : scaffold_anchored files (g1, dir_id :: seen)).
    { assert (H0 : scaffold_anchored files (g1, seen)).
      { apply scaffold_anchored_grows with g; [| |exact H].
        - destruct (add_node_nodes_app dir_id KDir (nth i parts "") P1st 0 g)
            as (extra & E & _). now exists extra.
        - apply add_node_edges. }
      destruct H0 as [A B]. split; [|exact B]. cbn [fst snd] in *.
      intros d [<-|Hd]; [apply has_node_added|now apply A]. }
    destruct (0 <? i)%nat eqn:Pos; [|exact H1].
    apply Nat.ltb_lt in Pos.
    apply (scaffold_anchored_add_edge files g1 (dir_id :: seen)
             (mkEdge ("dir:" ++ join "/" (firstn i parts)) dir_id Has) H1).
    + reflexivity.
    + cbn [src]. apply has_node_add_node. destruct H as [A _]. apply A.
      now apply Hp.
    + left. cbn [dst]. apply has_node_added.
Qed.

Lemma scaffold_dirs_anchored files parts : forall k st,
  scaffold_anchored files st ->
  scaffold_anchored files (fold_left (scaffold_dir parts) (seq 0 k) st)
  /\ (forall i, i < k ->
        In ("dir:" ++ join "/" (firstn (i + 1) parts))
           (snd (fold_left (scaffold_dir parts) (seq 0 k) st)))
  /\ incl (snd st) (snd (fold_left (scaffold_dir parts) (seq 0 k) st)).
Proof.
  induction k as [|k IH]; intros st H.
  - simpl. split; [exact H|]. split; [intros i Hi; lia|apply incl_refl].
  - rewrite seq_S, fold_left_app. simpl.
    destruct (IH st H) as (A1 & S1 & I1).
    set (st1 := fold_left (scaffold_dir parts) (seq 0 k) st) in *.
    destruct (scaffold_dir_anchored files parts st1 k A1) as (A2 & S2 & I2).
    { intros Pos. replace k with ((k - 1) + 1) at 1 by lia. apply S1. lia. }
    split; [exact A2|]. split.
    + intros i Hi. destruct (Nat.eq_dec i k) as [->|Ne]; [exact S2|].
      apply I2, S1. lia.
    + intros d Hd. apply I2, I1, Hd.
Qed.

Lemma join_nil_parts parts : join "/" parts <> "" -> parts <> [].
Proof. intros H E. subst parts. now apply H. Qed.

Lemma scaffold_file_anchored files st f :
  In f files -> scaffold_anchored files st ->
  scaffold_anchored files (scaffold_file st f).
Proof.
  intros Hf H. unfold scaffold_file.
  set (parts := removelast (rel f)).
  destruct (scaffold_dirs_anchored files parts (List.length parts) st H)
    as (A1 & S1 & _).
  set (st1 := fold_left (scaffold_dir parts) (seq 0 (List.length parts)) st) in *.
  destruct (join "/" parts) as [|c s] eqn:E; [exact A1|].
  assert (Np : parts <> []) by (apply join_nil_parts; rewrite E; discriminate).
  rewrite <- E. destruct st1 as [g1 seen1]. cbn [fst snd] in *.
  apply (scaffold_anchored_add_edge files g1 seen1
           (mkEdge ("dir:" ++ join "/" parts) ("file:" ++ rel_str (rel f)) Has) A1).
  - reflexivity.
  - cbn [src]. destruct A1 as [A _]. apply A. cbn [snd].
    assert (L : 0 < List.length parts)
      by (destruct parts; [contradiction|simpl; lia]).
    specialize (S1 (List.length parts - 1)).
    replace (List.length parts - 1 + 1) with (List.length parts) in S1 by lia.
    rewrite firstn_all in S1. apply S1. lia.
  - right. exists f. split; [exact Hf|reflexivity].
Qed.

Lemma scaffold_fold_anchored files l : forall st,
  incl l files -> scaffold_anchored files st ->
  scaffold_anchored files (fold_left scaffold_file l st).
Proof.
  induction l as [|f l IH]; intros st Hl H; simpl; [exact H|].
  apply IH; [intros x Hx; apply Hl; now right|].
  apply scaffold_file_anchored; [apply Hl; now left|exact H].
Qed.

Lemma scaffold_is_anchored files :
  forall e, In e (edges (scaffold files)) ->
    ekind e = Has
    /\ has_node (nodes (scaffold files)) (src e) = true
    /\ (has_node (nodes (scaffold files)) (dst e) = true
        \/ exists f, In f files
             /\ e = mkEdge ("dir:" ++ join "/" (removelast (rel f)))
                           (file_id_of f) Has).
Proof.
  apply (scaffold_fold_anchored files files (Graph_empty, []) (incl_refl _)).
  split; [intros d []|intros e []].
Qed.

Lemma dir_not_function x :
  String.prefix "dir:" x = true -> String.prefix "function:" x = true -> False.
Proof.
  intros H1 H2. apply prefix_inv in H1. apply prefix_inv in H2.
  destruct H1 as [r1 ->]. destruct H2 as [r2 H2]. discriminate.
Qed.

Lemma scaffold_placeholder_kind files :
  Forall placeholder_kind (nodes (scaffold files)).
Proof.
  destruct (scaffold_nodes_edges files) as [D _].
  eapply Forall_impl; [|exact D].
  intros n (_ & _ & P) F. exfalso. eapply dir_not_function; eauto.
Qed.

(** Every edge of a run: where it starts there is a node; where it
    ends there is a node, unless it is the has edge the scaffolder
    added for a file that does not parse. *)
Lemma build_graph_anchored ast_parse files e :
  In e (edges (build_graph ast_parse files)) ->
  has_node (nodes (build_graph ast_parse files)) (src e) = true
  /\ (has_node (nodes (build_graph ast_parse files)) (dst e) = true
      \/ exists f, In f files /\ parses ast_parse f = false
           /\ e = mkEdge ("dir:" ++ join "/" (removelast (rel f)))
                         (file_id_of f) Has)
  /\ (ekind e = Calls ->
      exists n, In n (nodes (build_graph ast_parse files))
                /\ id n = dst e /\ is_function_or_class (kind n) = true).
Proof.
  intros He.
  destruct (build_graph_walk_anchored ast_parse files
              (scaffold_placeholder_kind files)) as (ns & es & N & E & _ & FE).
  rewrite E in He. apply in_app_or in He. destruct He as [He|He].
  - destruct (scaffold_is_anchored files e He) as (K & S & D).
    split; [rewrite N; now apply has_node_app|].
    split; [|intros C; congruence].
    destruct D as [D|(f & Hf & Ef)]; [left; rewrite N; now apply has_node_app|].
    destruct (ast_parse (source f)) as [tree|] eqn:P.
    + left. subst e. cbn [dst].
      destruct (build_graph_has_file_node ast_parse files f tree Hf P) as [n Hn].
      unfold has_node. now rewrite Hn.
    + right. exists f. unfold parses. rewrite P. auto.
  - rewrite Forall_forall in FE. destruct (FE e He) as (S & D & C). auto.
Qed.
(** ** The shapes of the nodes and edges of a run *)

Lemma contains_colon_make_id r k name :
  contains_char ":" (r ++ "::" ++ k ++ ":" ++ name) = true.
Proof. rewrite contains_char_append. simpl. apply orb_true_r. Qed.

Lemma def_node_shape B s k name sz :
  String.prefix "file:" s = true -> k = KClass \/ k = KFunction ->
  node_shape B (mkNode (s ++ "::" ++ NodeKind_str k ++ ":" ++ name) k name P1st sz).
Proof.
  intros P K. apply prefix_inv in P. destruct P as [r ->]. split.
  - split; [|split]; cbn [id].
    + intros b E. discriminate E.
    + intros x E. discriminate E.
    + intros _ m E M. exfalso. rewrite append_assoc in E.
      apply append_inv_head in E. subst m.
      unfold module_ok in M. rewrite contains_colon_make_id in M. discriminate M.
  - right. apply (prefix_append "file:").
Qed.

Lemma shape_mono ns ms e : edge_shape ns e -> edge_shape (ns ++ ms) e.
Proof. auto. Qed.

Lemma shape_grows B v v' :
  scope_ok v -> file_id v' = file_id v -> _scope v' = _scope v ->
  (exists ns, nodes (graph v') = (nodes (graph v) ++ ns)%list
              /\ Forall (node_shape B) ns) ->
  scope_ok v'.
Proof. intros [A1 A2] F S _. split; [now rewrite F|now rewrite S]. Qed.

Lemma shape_push v k name :
  scope_ok v -> has_node (nodes (graph v)) (_make_id k name v) = true ->
  scope_ok (push (_make_id k name v) v).
Proof. intros H _. apply scope_ok_push; [exact H|now apply _make_id_prefix]. Qed.

Lemma shape_site_import B v m :
  scope_ok v ->
  node_shape B (mkNode ("file:" ++ m) KFile m P3rd 0)
  /\ edge_shape (nodes (graph (on_graph (add_node ("file:" ++ m) KFile m P3rd 0) v)))
                (mkEdge (_current_scope_id v) ("file:" ++ m) Imports).
Proof.
  intros H. split; [split|].
  - split; [|split]; cbn [id].
    + intros b E. discriminate E.
    + intros x E. discriminate E.
    + intros _ m' E _. apply append_inv_head in E. now subst m'.
  - split; [reflexivity|]. split; [discriminate|]. exists m. split; reflexivity.
  - split; [now apply scope_ok_current|]. now exists m.
Qed.

Lemma shape_site_def B v k name sz :
  scope_ok v -> k = KClass \/ k = KFunction ->
  node_shape B (mkNode (_make_id (NodeKind_str k) name v) k name P1st sz)
  /\ edge_shape (nodes (graph (on_graph
                   (add_node (_make_id (NodeKind_str k) name v) k name P1st sz) v)))
                (mkEdge (_current_scope_id v) (_make_id (NodeKind_str k) name v) Has).
Proof.
  intros H K. split.
  - apply def_node_shape; [now apply scope_ok_current|exact K].
  - split; [now apply scope_ok_current|]. exists k, name. split; [exact K|reflexivity].
Qed.

Lemma shape_site_base B v name c b :
  scope_ok v -> has_node (nodes (graph v)) (_make_id "class" name v) = true ->
  node_shape B (mkNode ("class:" ++ String c b) KClass (String c b) P3rd 0)
  /\ edge_shape (nodes (graph (on_graph
                   (add_node ("class:" ++ String c b) KClass (String c b) P3rd 0) v)))
                (mkEdge (_make_id "class" name v) ("class:" ++ String c b) Is).
Proof.
  intros H _. split; [split|].
  - split; [|split]; cbn [id].
    + intros b' E. apply append_inv_head in E. now subst b'.
    + intros x E. discriminate E.
    + intros _ m E. discriminate E.
  - split; [reflexivity|]. split; [discriminate|].
    exists (String c b). split; reflexivity.
  - split; [now apply _make_id_prefix|]. split.
    + exists (_current_scope_id v), name. reflexivity.
    + now exists (String c b).
Qed.

Lemma shape_site_call B v called :
  scope_ok v ->
  node_shape B (mkNode ("function:" ++ called) KFunction
                     (short_name_of called) P3rd 0)
  /\ edge_shape (nodes (graph (snd (_resolve_target called v))))
                (mkEdge (_current_scope_id v) (fst (_resolve_target called v)) Calls).
Proof.
  intros H. split; [split|].
  - split; [|split]; cbn [id].
    + intros b E. discriminate E.
    + intros x E. apply append_inv_head in E. now subst x.
    + intros _ m E. discriminate E.
  - split; [reflexivity|]. split; [discriminate|].
    exists called. split; reflexivity.
  - split; [now apply scope_ok_current|exact Logic.I].
Qed.

Lemma below_root_has_slash f :
  below_root f -> contains_char "/" (rel_str (rel f)) = true.
Proof.
  unfold below_root, rel_str. destruct (rel f) as [|p [|q l]]; simpl; try lia.
  intros _. change (contains_char "/" (p ++ "/" ++ join "/" (q :: l)) = true).
  rewrite contains_char_append. simpl. apply orb_true_r.
Qed.

Lemma shape_site_file (B : Prop) g f :
  (B -> below_root f) -> Forall (node_shape B) (nodes g) ->
  node_shape B (mkNode (file_id_of f) KFile (last (rel f) "") P1st
                     (file_loc (source f)))
  /\ scope_ok (push (file_id_of f)
                 (on_graph (add_node (file_id_of f) KFile (last (rel f) "") P1st
                                     (file_loc (source f)))
                           (CallGraphVisitor g f))).
Proof.
  intros Hb _. split; [split|].
  - split; [|split]; cbn [id]; unfold file_id_of.
    + intros b E. discriminate E.
    + intros x E. discriminate E.
    + intros b m E M. exfalso. apply append_inv_head in E. subst m.
      unfold module_ok in M. rewrite (below_root_has_slash f (Hb b)) in M.
      rewrite andb_false_r in M. discriminate M.
  - right. apply (prefix_append "file:").
  - apply scope_ok_push; [apply CallGraphVisitor_scope_ok|].
    apply (prefix_append "file:").
Qed.

Lemma dir_node_shape B n : dir_node n -> node_shape B n.
Proof.
  intros (K & P & D). pose proof D as D'. apply prefix_inv in D'.
  destruct D' as [r E]. split.
  - split; [|split]; [| |intros _]; intros x X; rewrite E in X; discriminate X.
  - unfold origin_shape. rewrite P. now left.
Qed.

Lemma build_graph_shapes (B : Prop) ast_parse files :
  Forall (fun f => B -> below_root f) files ->
  exists ns es,
    nodes (build_graph ast_parse files) = (nodes (scaffold files) ++ ns)%list
    /\ edges (build_graph ast_parse files) = (edges (scaffold files) ++ es)%list
    /\ Forall (node_shape B) (nodes (build_graph ast_parse files))
    /\ Forall (edge_shape (nodes (build_graph ast_parse files))) es.
Proof.
  intros Hf.
  assert (S : Forall (node_shape B) (nodes (scaffold files))).
  { destruct (scaffold_nodes_edges files) as [D _].
    eapply Forall_impl; [|exact D]. apply dir_node_shape. }
  destruct (build_graph_evolves scope_ok (node_shape B) edge_shape shape_mono
              (shape_grows B) shape_push (shape_site_import B) (shape_site_def B)
              (shape_site_base B) (shape_site_call B) (fun f => B -> below_root f)
              (shape_site_file B) ast_parse files Hf S)
    as (ns & es & N & E & FN & FE).
  exists ns, es. repeat split; auto.
  rewrite N. apply Forall_app. now split.
Qed.
(** ** Containment edges go to longer ids *)

Lemma join_snoc_longer l x :
  l <> [] -> String.length (join "/" l) < String.length (join "/" (l ++ [x])).
Proof.
  intros H. rewrite join_app_last by exact H. rewrite !length_append. simpl. lia.
Qed.

Lemma scaffold_dir_lengthens parts st i :
  i < List.length parts ->
  grows (fun _ => True) lengthens (fst st) (fst (scaffold_dir parts st i)).
Proof.
  intros Hi. destruct st as [g seen]. unfold scaffold_dir.
  destruct (existsb _ seen); [apply grows_refl|]. cbn [fst].
  eapply grows_trans; [now apply grows_add_node|].
  destruct (0 <? i)%nat eqn:Pos; [|apply grows_refl].
  apply Nat.ltb_lt in Pos. apply grows_add_edge.
  unfold lengthens. cbn [src dst]. rewrite !length_append.
  apply Nat.add_lt_mono_l.
  assert (N : firstn (i + 1) parts <> []) by now apply firstn_succ_nonempty.
  rewrite (app_removelast_last "" N).
  replace (i + 1) with (S i) by lia. rewrite removelast_firstn by lia.
  apply join_snoc_longer. intros E. apply (f_equal (@List.length string)) in E.
  rewrite length_firstn in E. simpl in E. lia.
Qed.

Lemma scaffold_file_lengthens st f :
  grows (fun _ => True) lengthens (fst st) (fst (scaffold_file st f)).
Proof.
  unfold scaffold_file. set (parts := removelast (rel f)).
  set (st1 := fold_left _ _ st).
  assert (G : grows (fun _ => True) lengthens (fst st) (fst st1)).
  { unfold st1. generalize st.
    assert (F : Forall (fun i => i < List.length parts) (seq 0 (List.length parts))).
    { apply Forall_forall. intros i Hi. apply in_seq in Hi. lia. }
    induction F as [|i l Hi Hl IH]; intros s; simpl; [apply grows_refl|].
    apply grows_trans with (fst (scaffold_dir parts s i));
      [apply scaffold_dir_lengthens; exact Hi|apply IH]. }
  destruct (join "/" parts) as [|c s] eqn:E; [exact G|].
  eapply grows_trans; [exact G|]. cbn [fst]. apply grows_add_edge.
  unfold lengthens. cbn [src dst]. rewrite <- E.
  assert (Np : parts <> []) by (apply join_nil_parts; rewrite E; discriminate).
  assert (Nr : rel f <> []).
  { intros Z. apply Np. unfold parts. now rewrite Z. }
  unfold rel_str. rewrite (app_removelast_last "" Nr). fold parts.
  pose proof (join_snoc_longer parts (last (rel f) "") Np) as L.
  rewrite !length_append. simpl. lia.
Qed.

Lemma scaffold_lengthens files : Forall lengthens (edges (scaffold files)).
Proof.
  assert (G : forall st, grows (fun _ => True) lengthens (fst st)
                           (fst (fold_left scaffold_file files st))).
  { induction files as [|f l IH]; intros st; simpl; [apply grows_refl|].
    eapply grows_trans; [apply scaffold_file_lengthens|apply IH]. }
  apply (grows_edges_all _ _ _ _ (G (Graph_empty, []))). constructor.
Qed.
(** ** What holds of every store the program builds

    The program changes a store through [add_node] and [add_edge]
    only, so what these two keep holds of the store of a run. *)

Section Through.

Variable P : Graph -> Prop.

Hypothesis P_add_node : forall i k l p sz g, P g -> P (add_node i k l p sz g).
Hypothesis P_add_edge : forall s d k g, P g -> P (add_edge s d k g).

Lemma through_fold {A} (f : Visitor -> A -> Visitor) (Q : A -> Prop) l :
  (forall a v, Q a -> P (graph v) -> P (graph (f v a))) ->
  Forall Q l -> forall v, P (graph v) -> P (graph (fold_left f l v)).
Proof.
  intros Hf HQ. induction HQ as [|a l Ha Hl IH]; intros v Hv; simpl; auto.
Qed.

Lemma _resolve_target_through name v :
  P (graph v) -> P (graph (snd (_resolve_target name v))).
Proof.
  intros H. unfold _resolve_target.
  destruct (find _ (nodes (graph v))); [exact H|].
  destruct (split_matches _ _ _) as [[|i sf] [|j ot]]; try exact H.
  cbn [snd graph on_graph]. now apply P_add_node.
Qed.

Lemma _handle_call_through f v : P (graph v) -> P (graph (_handle_call f v)).
Proof.
  intros H. unfold _handle_call.
  destruct (_resolve_name f) as [called|]; [|exact H].
  pose proof (_resolve_target_through called v H) as R.
  destruct (_resolve_target called v) as [t v1]. cbn [snd] in R.
  cbn [graph on_graph]. now apply P_add_edge.
Qed.

Lemma _walk_body_for_calls_through n v :
  P (graph v) -> P (graph (_walk_body_for_calls n v)).
Proof.
  intros H. rewrite walk_is_handle_calls. unfold handle_calls.
  apply (through_fold _ (fun _ => True)); auto.
  - intros f w _. apply _handle_call_through.
  - apply Forall_forall. auto.
Qed.

Lemma import_through m v :
  P (graph v) ->
  P (graph (on_graph (add_edge (_current_scope_id
                                  (on_graph (add_node ("file:" ++ m) KFile m P3rd 0) v))
                               ("file:" ++ m) Imports)
                     (on_graph (add_node ("file:" ++ m) KFile m P3rd 0) v))).
Proof. intros H. cbn [graph on_graph]. now apply P_add_edge, P_add_node. Qed.

Lemma visit_Import_through names v :
  P (graph v) -> P (graph (visit_Import names v)).
Proof.
  intros H. unfold visit_Import. apply (through_fold _ (fun _ => True)); auto.
  - intros m w _. apply import_through.
  - apply Forall_forall. auto.
Qed.

Lemma visit_base_through cls_id v b :
  P (graph v) -> P (graph (visit_base cls_id v b)).
Proof.
  intros H. unfold visit_base.
  destruct (_resolve_name b) as [[|c s]|]; try exact H.
  cbn [graph on_graph]. now apply P_add_edge, P_add_node.
Qed.

Lemma generic_visit_through cs :
  Forall (fun c => forall v, P (graph v) -> P (graph (visit c v))) cs ->
  forall v, P (graph v) -> P (graph (generic_visit cs v)).
Proof.
  intros IH. unfold generic_visit.
  apply (through_fold (fun v c => visit c v)
           (fun c => forall v, P (graph v) -> P (graph (visit c v)))); auto.
Qed.

Lemma visit_through n : forall v, P (graph v) -> P (graph (visit n v)).
Proof.
  induction n as [n IH] using ast_children_ind. intros v Hv.
  rewrite visit_eq. destruct n.
  - now apply visit_Import_through.
  - destruct module as [m|]; [now apply import_through|exact Hv].
  - cbn zeta. cbn [graph pop]. apply generic_visit_through; [exact IH|].
    cbn [graph push].
    apply (through_fold _ (fun _ => True)).
    + intros b w _. apply visit_base_through.
    + apply Forall_forall. auto.
    + cbn [graph on_graph]. now apply P_add_edge, P_add_node.
  - cbn zeta. cbn [graph pop]. apply generic_visit_through; [exact IH|].
    apply _walk_body_for_calls_through. cbn [graph push on_graph].
    now apply P_add_edge, P_add_node.
  - apply generic_visit_through; auto.
  - exact Hv.
  - apply generic_visit_through; auto.
  - apply generic_visit_through; auto.
Qed.

Variable ast_parse : string -> option ast.

Lemma analyze_through f g : P g -> P (analyze ast_parse f g).
Proof.
  intros H. destruct (ast_parse (source f)) as [tree|] eqn:E.
  - rewrite (analyze_parsed _ _ _ _ E). cbn [graph pop].
    apply visit_through. cbn [graph push on_graph CallGraphVisitor].
    now apply P_add_node.
  - now rewrite analyze_unparsed.
Qed.

Lemma scaffold_dir_through parts st i :
  P (fst st) -> P (fst (scaffold_dir parts st i)).
Proof.
  destruct st as [g seen]. intros H. unfold scaffold_dir.
  destruct (existsb _ seen); [exact H|]. cbn [fst].
  destruct (0 <? i)%nat; [apply P_add_edge|]; now apply P_add_node.
Qed.

Lemma scaffold_file_through st f : P (fst st) -> P (fst (scaffold_file st f)).
Proof.
  intros H. unfold scaffold_file.
  set (st1 := fold_left _ _ st).
  assert (H1 : P (fst st1)).
  { unfold st1. revert H. generalize st.
    induction (seq 0 (List.length (removelast (rel f)))) as [|i l IH];
      intros s Hs; simpl; [exact Hs|].
    apply IH. now apply scaffold_dir_through. }
  destruct (join "/" (removelast (rel f))); [exact H1|].
  cbn [fst]. now apply P_add_edge.
Qed.

Lemma build_graph_through files :
  P Graph_empty -> P (build_graph ast_parse files).
Proof.
  intros H. unfold build_graph.
  assert (S : P (scaffold files)).
  { unfold scaffold.
    assert (G : forall st, P (fst st) -> P (fst (fold_left scaffold_file files st))).
    { induction files as [|f l IH]; intros st Hs; simpl; [exact Hs|].
      apply IH. now apply scaffold_file_through. }
    now apply G. }
  revert S. generalize (scaffold files).
  induction files as [|f l IH]; intros g Hg; simpl; [exact Hg|].
  apply IH. now apply analyze_through.
Qed.

End Through.

(** ** The store as a dict: ids are unique *)

Lemma unique_ids_add_node i k l p sz g :
  unique_ids g -> unique_ids (add_node i k l p sz g).
Proof.
  unfold unique_ids. intros H.
  destruct (add_node_nodes_app i k l p sz g) as (extra & -> & [->|[-> N]]).
  - now rewrite app_nil_r.
  - rewrite map_app. simpl. apply NoDup_app; [exact H|repeat constructor; auto|].
    intros x Hx [<-|[]]. apply in_map_iff in Hx. destruct Hx as (n & E & Hn).
    apply (proj1 (get_node_None _ _) N n Hn E).
Qed.

Lemma unique_ids_add_edge s d k g : unique_ids g -> unique_ids (add_edge s d k g).
Proof. auto. Qed.

Lemma build_graph_unique_ids ast_parse files :
  unique_ids (build_graph ast_parse files).
Proof.
  apply (build_graph_through unique_ids unique_ids_add_node unique_ids_add_edge).
  constructor.
Qed.

Lemma unique_ids_get_node ns n :
  NoDup (map id ns) -> In n ns -> get_node ns (id n) = Some n.
Proof.
  intros N H. destruct (get_node ns (id n)) as [m|] eqn:E.
  - f_equal. apply (NoDup_map_inj id ns m n N).
    + eapply get_node_In; eauto.
    + exact H.
    + eapply get_node_id; eauto.
  - exfalso. apply (proj1 (get_node_None _ _) E n H). reflexivity.
Qed.
(** ** Resolving a name again *)

Lemma find_app' {A} (p : A -> bool) l l' :
  find p (l ++ l') = match find p l with Some x => Some x | None => find p l' end.
Proof.
  induction l as [|a l IH]; simpl; [reflexivity|]. now destruct (p a).
Qed.

Lemma on_graph_same (f : Graph -> Graph) v : f (graph v) = graph v -> on_graph f v = v.
Proof. intros H. unfold on_graph. rewrite H. now destruct v. Qed.

Lemma _resolve_target_again name v :
  _resolve_target name (snd (_resolve_target name v)) = _resolve_target name v.
Proof.
  unfold _resolve_target at 2 3.
  destruct (find _ (nodes (graph v))) as [n|] eqn:F.
  { cbn [snd]. unfold _resolve_target. now rewrite F. }
  destruct (split_matches (file_id v) (short_name_of name) (nodes (graph v)))
    as [sf ot] eqn:SM.
  destruct sf as [|i sf].
  2:{ cbn [snd]. unfold _resolve_target. now rewrite F, SM. }
  destruct ot as [|j ot].
  2:{ cbn [snd]. unfold _resolve_target. now rewrite F, SM. }
  cbn [snd].
  set (pid := "function:" ++ name).
  set (new := mkNode pid KFunction (short_name_of name) P3rd 0).
  set (v1 := on_graph (add_node pid KFunction (short_name_of name) P3rd 0) v).
  destruct (has_node (nodes (graph v)) pid) eqn:H.
  - assert (V1 : v1 = v).
    { apply on_graph_same. unfold add_node. now rewrite H. }
    rewrite V1. unfold _resolve_target. rewrite F, SM. fold pid. fold v1.
    now rewrite V1.
  - assert (N1 : nodes (graph v1) = (nodes (graph v) ++ [new])%list).
    { cbn [v1 graph on_graph]. unfold add_node. now rewrite H. }
    assert (F1 : file_id v1 = file_id v) by reflexivity.
    unfold _resolve_target. rewrite N1, F1, find_app', F.
    cbn [find label kind new is_function_or_class]. rewrite andb_true_r.
    destruct (String.eqb (short_name_of name) name); [reflexivity|].
    rewrite split_matches_filter in SM. injection SM as S1 S2.
    rewrite split_matches_filter, !filter_app, !map_app, S1, S2.
    cbn [filter label kind id new is_function_or_class app map].
    rewrite String.eqb_refl. cbn [andb].
    destruct (String.prefix (file_id v) pid); reflexivity.
Qed.

Lemma _resolve_target_add_edge name s d k v :
  _resolve_target name (on_graph (add_edge s d k) v)
  = (fst (_resolve_target name v),
     on_graph (add_edge s d k) (snd (_resolve_target name v))).
Proof.
  unfold _resolve_target. cbn [graph on_graph add_edge nodes file_id].
  destruct (find _ (nodes (graph v))); [reflexivity|].
  destruct (split_matches _ _ _) as [[|i sf] [|j ot]]; try reflexivity.
  cbn [fst snd]. f_equal. unfold on_graph, add_node.
  cbn [graph nodes edges rel_path file_id _scope add_edge].
  now destruct (has_node (nodes (graph v)) ("function:" ++ name)).
Qed.
(** ** Dotted names *)

Lemma _resolve_name_chain attrs : forall e s,
  _resolve_name e = Some s -> s <> "" ->
  _resolve_name (fold_left Attribute attrs e) = Some (join "." (s :: attrs)).
Proof.
  induction attrs as [|a rest IH]; intros e s H N; [exact H|].
  cbn [fold_left].
  assert (E : _resolve_name (Attribute e a) = Some (s ++ "." ++ a)).
  { cbn [_resolve_name]. rewrite H. destruct s; [now elim N|reflexivity]. }
  rewrite (IH _ _ E) by (destruct s; [now elim N|discriminate]).
  f_equal. destruct rest as [|b r]; [reflexivity|].
  rewrite !join_cons2. now rewrite !append_assoc.
Qed.

(** ** Imports *)

Lemma import_current m v :
  _current_scope_id
    (on_graph (add_edge (_current_scope_id (on_graph (add_node ("file:" ++ m) KFile m P3rd 0) v))
                        ("file:" ++ m) Imports)
              (on_graph (add_node ("file:" ++ m) KFile m P3rd 0) v))
  = _current_scope_id v.
Proof. reflexivity. Qed.

Lemma visit_Import_cons m names v :
  visit_Import (m :: names) v
  = visit_Import names
      (on_graph (add_edge (_current_scope_id v) ("file:" ++ m) Imports)
                (on_graph (add_node ("file:" ++ m) KFile m P3rd 0) v)).
Proof. reflexivity. Qed.

Lemma add_node_length i k l p sz g :
  List.length (nodes (add_node i k l p sz g)) <= List.length (nodes g) + 1.
Proof.
  destruct (add_node_nodes_app i k l p sz g) as (extra & -> & [->|[-> _]]);
    rewrite length_app; simpl; lia.
Qed.

Lemma visit_Import_keeps names : forall v i n,
  get_node (nodes (graph v)) i = Some n ->
  get_node (nodes (graph (visit_Import names v))) i = Some n.
Proof.
  induction names as [|m names IH]; intros v i n H; [exact H|].
  rewrite visit_Import_cons. apply IH.
  cbn [graph on_graph add_edge nodes]. now apply add_node_keeps.
Qed.

(** ** Quoting *)

Lemma escape_quotes_head s :
  match escape_quotes s with
  | String c _ => c <> dquote
  | EmptyString => True
  end.
Proof.
  destruct s as [|c s]; simpl; [exact Logic.I|].
  destruct (Ascii.eqb_spec c dquote) as [E|N]; [discriminate|exact N].
Qed.

Lemma escape_quotes_inj a : forall b,
  escape_quotes a = escape_quotes b -> a = b.
Proof.
  induction a as [|c a IH]; intros [|d b] H.
  - reflexivity.
  - simpl in H. destruct (Ascii.eqb d dquote); discriminate H.
  - simpl in H. destruct (Ascii.eqb c dquote); discriminate H.
  - simpl in H.
    destruct (Ascii.eqb_spec c dquote) as [Ec|Nc],
             (Ascii.eqb_spec d dquote) as [Ed|Nd].
    + injection H as H. subst. f_equal. now apply IH.
    + exfalso. injection H as H1 H2. pose proof (escape_quotes_head b) as Hb.
      rewrite <- H2 in Hb. now apply Hb.
    + exfalso. injection H as H1 H2. pose proof (escape_quotes_head a) as Ha.
      rewrite H2 in Ha. now apply Ha.
    + injection H as H1 H2. subst. f_equal. now apply IH.
Qed.

Lemma append_inv_tail (a b c : string) : a ++ c = b ++ c -> a = b.
Proof.
  intros H. apply list_of_string_inj.
  apply (f_equal list_ascii_of_string) in H. rewrite !list_of_append in H.
  now apply app_inv_tail in H.
Qed.

Lemma escape_quotes_free s : contains_char dquote s = false -> escape_quotes s = s.
Proof.
  induction s as [|c s IH]; simpl; [reflexivity|].
  destruct (Ascii.eqb c dquote); simpl; [discriminate|].
  intros H. now rewrite IH.
Qed.

Lemma escape_quotes_longer s :
  contains_char dquote s = true ->
  String.length s < String.length (escape_quotes s).
Proof.
  assert (L : forall t, String.length t <= String.length (escape_quotes t)).
  { induction t as [|c t IH]; simpl; [lia|].
    destruct (Ascii.eqb c dquote); simpl; lia. }
  induction s as [|c s IH]; simpl; [discriminate|].
  destruct (Ascii.eqb c dquote); simpl.
  - intros _. specialize (L s). lia.
  - intros H. specialize (IH H). lia.
Qed.
(** ** Lists *)

Lemma NoDup_map_injective {A B} (f : A -> B) l :
  (forall a b, f a = f b -> a = b) -> NoDup l -> NoDup (map f l).
Proof.
  intros Hf N. induction N as [|a l Ha Hl IH]; simpl; constructor; [|exact IH].
  intros H. apply in_map_iff in H. destruct H as (b & E & Hb).
  apply Hf in E. now subst b.
Qed.

Lemma NoDup_snoc {A} (l : list A) a : NoDup l -> ~ In a l -> NoDup (l ++ [a]).
Proof.
  intros N H. apply NoDup_app; [exact N|repeat constructor; auto|].
  intros x Hx [<-|[]]. now apply H.
Qed.

Lemma last_firstn_nth {A} (d : A) : forall l i,
  i < List.length l -> last (firstn (S i) l) d = nth i l d.
Proof.
  induction l as [|a l IH]; intros i Hi; [simpl in Hi; lia|].
  destruct i as [|j]; [reflexivity|].
  simpl in Hi. change (firstn (S (S j)) (a :: l)) with (a :: firstn (S j) l).
  destruct l as [|b l]; [simpl in Hi; lia|].
  change (firstn (S j) (b :: l)) with (b :: firstn j l).
  change (last (a :: b :: firstn j l) d) with (last (b :: firstn j l) d).
  change (b :: firstn j l) with (firstn (S j) (b :: l)).
  rewrite IH by (simpl in *; lia). reflexivity.
Qed.

(** ** The scaffolder's directory nodes *)

Lemma scaffold_dir_nodes files f st i :
  In f files -> i < List.length (removelast (rel f)) ->
  grows (dir_node_of files) (fun _ => True) (fst st)
        (fst (scaffold_dir (removelast (rel f)) st i)).
Proof.
  intros Hf Hi. destruct st as [g seen]. unfold scaffold_dir.
  destruct (existsb _ seen); [apply grows_refl|]. cbn [fst].
  set (parts := removelast (rel f)) in *.
  apply grows_trans with
    (add_node ("dir:" ++ join "/" (firstn (i + 1) parts)) KDir (nth i parts "")
              P1st 0 g).
  - apply (grows_add_node (dir_node_of files) (fun _ => True)).
    exists f, (firstn (i + 1) parts), (skipn (i + 1) parts).
    split; [exact Hf|]. split; [now apply firstn_succ_nonempty|].
    split; [now rewrite firstn_skipn|].
    rewrite <- (last_firstn_nth "" parts i Hi).
    now replace (S i) with (i + 1) by lia.
  - destruct (0 <? i)%nat; [now apply grows_add_edge|apply grows_refl].
Qed.

Lemma scaffold_file_nodes files st f :
  In f files ->
  grows (dir_node_of files) (fun _ => True) (fst st) (fst (scaffold_file st f)).
Proof.
  intros Hf. unfold scaffold_file. set (parts := removelast (rel f)).
  set (st1 := fold_left _ _ st).
  assert (G : grows (dir_node_of files) (fun _ => True) (fst st) (fst st1)).
  { unfold st1. generalize st.
    assert (F : Forall (fun i => i < List.length parts) (seq 0 (List.length parts))).
    { apply Forall_forall. intros i Hi. apply in_seq in Hi. lia. }
    induction F as [|i l Hi Hl IH]; intros s; simpl; [apply grows_refl|].
    apply grows_trans with (fst (scaffold_dir parts s i));
      [apply scaffold_dir_nodes; [exact Hf|exact Hi]|apply IH]. }
  destruct (join "/" parts) as [|c s] eqn:E; [exact G|].
  eapply grows_trans; [exact G|]. cbn [fst]. now apply grows_add_edge.
Qed.

Lemma scaffold_dir_nodes_of files : Forall (dir_node_of files) (nodes (scaffold files)).
Proof.
  assert (G : forall l st, incl l files ->
                grows (dir_node_of files) (fun _ => True) (fst st)
                      (fst (fold_left scaffold_file l st))).
  { induction l as [|f l IH]; intros st Hl; simpl; [apply grows_refl|].
    eapply grows_trans.
    - apply scaffold_file_nodes. apply Hl. now left.
    - apply IH. intros x Hx. apply Hl. now right. }
  apply (grows_nodes_all _ _ _ _ (G files (Graph_empty, []) (incl_refl _))).
  constructor.
Qed.

(** ** The scaffolder adds no edge twice *)

Lemma existsb_eqb_false x l : existsb (String.eqb x) l = false -> ~ In x l.
Proof.
  intros H Hx. assert (T : existsb (String.eqb x) l = true).
  { apply existsb_exists. exists x. split; [exact Hx|apply String.eqb_refl]. }
  congruence.
Qed.

Lemma dir_id_not_file_id x f : "dir:" ++ x <> file_id_of f.
Proof. unfold file_id_of. discriminate. Qed.

Lemma scaffold_dir_fresh done parts st i :
  scaffold_fresh done st -> scaffold_fresh done (scaffold_dir parts st i).
Proof.
  destruct st as [g seen]. intros (N & D & H). cbn [fst snd] in *.
  unfold scaffold_dir.
  set (dir_id := "dir:" ++ join "/" (firstn (i + 1) parts)).
  destruct (existsb (String.eqb dir_id) seen) eqn:X; [now repeat split|].
  apply existsb_eqb_false in X.
  assert (D' : Forall (fun d => String.prefix "dir:" d = true) (dir_id :: seen)).
  { constructor; [apply (prefix_append "dir:")|exact D]. }
  destruct (0 <? i)%nat; unfold scaffold_fresh; cbn [fst snd add_edge edges];
    rewrite add_node_edges.
  - split; [|split; [exact D'|]].
    + apply NoDup_snoc; [exact N|]. intros He.
      destruct (H _ He) as [S|(f & _ & E)]; cbn [dst] in *.
      * now apply X.
      * now apply (dir_id_not_file_id _ _ E).
    + intros e He. apply in_app_or in He. destruct He as [He|[<-|[]]].
      * destruct (H e He) as [S|S]; [left; now right|now right].
      * left. now left.
  - split; [exact N|]. split; [exact D'|].
    intros e He. destruct (H e He) as [S|S]; [left; now right|now right].
Qed.

Lemma scaffold_file_fresh done st f :
  ~ In (file_id_of f) (map file_id_of done) ->
  scaffold_fresh done st -> scaffold_fresh (f :: done) (scaffold_file st f).
Proof.
  intros Hf H. unfold scaffold_file. set (parts := removelast (rel f)).
  assert (H1 : scaffold_fresh done
                 (fold_left (scaffold_dir parts) (seq 0 (List.length parts)) st)).
  { revert H. generalize st.
    induction (seq 0 (List.length parts)) as [|i l IH]; intros s Hs; simpl;
      [exact Hs|].
    apply IH. now apply scaffold_dir_fresh. }
  set (st1 := fold_left _ _ st) in *.
  destruct H1 as (N & D & E).
  assert (W : forall e, In e (edges (fst st1)) ->
                In (dst e) (snd st1)
                \/ exists f', In f' (f :: done) /\ dst e = file_id_of f').
  { intros e He. destruct (E e He) as [S|(f' & Hf' & S)]; [now left|].
    right. exists f'. split; [now right|exact S]. }
  destruct (join "/" parts) as [|c s]; [now repeat split|].
  unfold scaffold_fresh. cbn [fst snd add_edge edges]. split; [|split; [exact D|]].
  - apply NoDup_snoc; [exact N|]. intros He.
    destruct (E _ He) as [S|(f' & Hf' & S)]; cbn [dst] in *.
    + rewrite Forall_forall in D. specialize (D _ S).
      eapply dir_not_file; [exact D|apply (prefix_append "file:")].
    + apply Hf. apply in_map_iff. exists f'. split; [|exact Hf'].
      symmetry. exact S.
  - intros e He. apply in_app_or in He. destruct He as [He|[<-|[]]].
    + now apply W.
    + right. exists f. split; [now left|reflexivity].
Qed.

Lemma scaffold_fold_fresh l : forall done st,
  NoDup (map file_id_of (rev done ++ l)) ->
  scaffold_fresh done st ->
  exists done', scaffold_fresh done' (fold_left scaffold_file l st).
Proof.
  induction l as [|f l IH]; intros done st N H; simpl; [now exists done|].
  apply (IH (f :: done)).
  - simpl. now rewrite <- app_assoc.
  - apply scaffold_file_fresh; [|exact H].
    rewrite map_app in N. apply NoDup_remove_2 in N.
    intros Hin. apply N. apply in_or_app. left.
    rewrite map_rev. apply -> in_rev. exact Hin.
Qed.

(** ** The summary of main: counting by kind *)

Section Tally.

Variables (A K : Type) (eqb : K -> K -> bool) (key : A -> K).
Hypothesis eqb_eq : forall a b, eqb a b = true <-> a = b.

Lemma dict_get_set d k c k' z :
  dict_get eqb (dict_set eqb d k c) k' z
  = if eqb k k' then c else dict_get eqb d k' z.
Proof.
  induction d as [|[j x] d IH]; simpl.
  - reflexivity.
  - destruct (eqb j k) eqn:J; simpl.
    + apply eqb_eq in J. subst j. now destruct (eqb k k').
    + rewrite IH. destruct (eqb j k') eqn:J'; [|reflexivity].
      apply eqb_eq in J'. subst j.
      destruct (eqb k k') eqn:Q; [|reflexivity].
      apply eqb_eq in Q. subst k'.
      rewrite (proj2 (eqb_eq k k) eq_refl) in J. discriminate J.
Qed.

Lemma dict_set_keys d k c :
  map fst (dict_set eqb d k c)
  = if existsb (fun j => eqb j k) (map fst d) then map fst d
    else (map fst d ++ [k])%list.
Proof.
  induction d as [|[j x] d IH]; simpl; [reflexivity|].
  destruct (eqb j k); simpl; [reflexivity|].
  rewrite IH. now destruct (existsb _ (map fst d)).
Qed.

Lemma dict_set_total d k c :
  dict_total (dict_set eqb d k c)
  = (dict_total d - dict_get eqb d k 0 + c)%Z.
Proof.
  unfold dict_total. induction d as [|[j x] d IH]; simpl; [lia|].
  destruct (eqb j k); simpl; [lia|]. rewrite IH. lia.
Qed.

Lemma count_by_snoc xs x :
  count_by eqb key (xs ++ [x])
  = dict_set eqb (count_by eqb key xs) (key x)
      (dict_get eqb (count_by eqb key xs) (key x) 0 + 1)%Z.
Proof. unfold count_by. now rewrite fold_left_app. Qed.

Lemma count_by_get xs k :
  dict_get eqb (count_by eqb key xs) k 0
  = Z.of_nat (List.length (filter (fun x => eqb (key x) k) xs)).
Proof.
  induction xs as [|x xs IH] using rev_ind; [reflexivity|].
  rewrite count_by_snoc, dict_get_set, filter_app, length_app. simpl.
  destruct (eqb (key x) k) eqn:E.
  - apply eqb_eq in E. subst k. rewrite IH. simpl. lia.
  - rewrite IH. simpl. lia.
Qed.

Lemma count_by_total xs :
  dict_total (count_by eqb key xs) = Z.of_nat (List.length xs).
Proof.
  induction xs as [|x xs IH] using rev_ind; [reflexivity|].
  rewrite count_by_snoc, dict_set_total, IH, length_app. simpl. lia.
Qed.

Lemma existsb_key_In k l : existsb (fun j => eqb j k) l = true <-> In k l.
Proof.
  rewrite existsb_exists. split.
  - intros (j & Hj & E). apply eqb_eq in E. now subst j.
  - intros H. exists k. split; [exact H|now apply eqb_eq].
Qed.

Lemma count_by_keys xs :
  NoDup (map fst (count_by eqb key xs))
  /\ forall k, In k (map fst (count_by eqb key xs)) <-> In k (map key xs).
Proof.
  induction xs as [|x xs [N I]] using rev_ind.
  - split; [constructor|]. intros k. reflexivity.
  - rewrite count_by_snoc, dict_set_keys, map_app.
    destruct (existsb _ (map fst (count_by eqb key xs))) eqn:X.
    + split; [exact N|]. intros k. rewrite in_app_iff, <- I. simpl.
      apply existsb_key_In in X. intuition (subst; auto).
    + assert (Nx : ~ In (key x) (map fst (count_by eqb key xs))).
      { intros H. apply existsb_key_In in H. congruence. }
      split; [now apply NoDup_snoc|].
      intros k. rewrite !in_app_iff, <- I. reflexivity.
Qed.

End Tally.

Lemma NodeKind_eqb_eq a b : NodeKind_eqb a b = true <-> a = b.
Proof. destruct a, b; simpl; split; intros H; try reflexivity; discriminate H. Qed.

Lemma EdgeKind_eqb_eq a b : EdgeKind_eqb a b = true <-> a = b.
Proof. destruct a, b; simpl; split; intros H; try reflexivity; discriminate H. Qed.
(** ** Resolution by label is kept *)

Lemma find_none_filter {A} (p q : A -> bool) l :
  find p l = None -> filter (fun x => p x && q x) l = [].
Proof.
  induction l as [|a l IH]; simpl; [reflexivity|].
  destruct (p a); [discriminate|]. exact IH.
Qed.

Lemma _resolve_target_labelled name v :
  contains_char "." name = false ->
  (forall p, get_node (nodes (graph v)) ("function:" ++ name) = Some p ->
     label p = name /\ kind p = KFunction) ->
  exists n,
    find (fun n => String.eqb (label n) name && is_function_or_class (kind n))
         (nodes (graph (snd (_resolve_target name v)))) = Some n
    /\ id n = fst (_resolve_target name v).
Proof.
  intros Hd Hp. unfold _resolve_target.
  destruct (find _ (nodes (graph v))) as [n|] eqn:F.
  { exists n. split; [exact F|reflexivity]. }
  rewrite split_matches_filter. unfold short_name_of. rewrite Hd.
  rewrite !(find_none_filter _ _ _ F). cbn [map fst snd graph on_graph].
  destruct (get_node (nodes (graph v)) ("function:" ++ name)) as [p|] eqn:G.
  - exfalso. destruct (Hp p eq_refl) as [L K].
    pose proof (find_none _ _ F p (get_node_In _ _ _ G)) as X.
    cbv beta in X. rewrite L, K, String.eqb_refl in X. discriminate X.
  - rewrite (add_node_absent _ _ _ _ _ _ G). cbn [nodes].
    rewrite find_app', F. cbn [find label kind is_function_or_class].
    rewrite String.eqb_refl. cbn [andb].
    eexists. split; reflexivity.
Qed.

(** ** The file node of a walked file *)

Lemma run_inv ast_parse files l :
  (forall f, In f l -> ends_py (rel_str (rel f)) = true) ->
  (forall f tree, In f l -> ast_parse (source f) = Some tree ->
     names_ok tree = true) ->
  Forall (node_ok (own_ids ast_parse l))
         (nodes (fold_left (fun g f => analyze ast_parse f g) l (scaffold files))).
Proof.
  intros Hpy Hnames. set (own := own_ids ast_parse l).
  assert (G : forall l' g, incl l' l ->
            Forall (node_ok own) (nodes g) /\ calls_ok g ->
            Forall (node_ok own)
              (nodes (fold_left (fun g f => analyze ast_parse f g) l' g))
            /\ calls_ok (fold_left (fun g f => analyze ast_parse f g) l' g)).
  { induction l' as [|f l' IH]; intros g Hl [Hn C]; [now split|]. simpl.
    apply IH; [intros x Hx; apply Hl; now right|].
    apply (analyze_inv own); auto.
    - now apply own_ids_py.
    - intros tree H. assert (In f l) by (apply Hl; now left). split.
      + eapply own_ids_in; eauto.
      + eapply Hnames; eauto. }
  apply G; [apply incl_refl|].
  destruct (scaffold_nodes_edges files) as [N E]. split.
  - eapply Forall_impl; [|exact N]. intros n. apply dir_node_ok.
  - intros e He K. rewrite Forall_forall in E.
    destruct (E e He) as [K' _]. congruence.
Qed.


(** ** The run, with the exceptions the walk lets through *)

Lemma analyze_or_raise_some parse f g :
  parse (source f) <> Raises_other ->
  analyze_or_raise parse f g = Some (analyze (as_option parse) f g).
Proof.
  intros H. unfold analyze_or_raise, analyze, as_option.
  destruct (parse (source f)); [reflexivity|reflexivity|now elim H].
Qed.

Lemma analyze_all_some parse l : forall g,
  (forall f, In f l -> parse (source f) <> Raises_other) ->
  analyze_all parse l g
  = Some (fold_left (fun g f => analyze (as_option parse) f g) l g).
Proof.
  unfold analyze_all. induction l as [|f l IH]; intros g H; [reflexivity|].
  cbn [fold_left]. rewrite analyze_or_raise_some by (apply H; now left).
  apply IH. intros x Hx. apply H. now right.
Qed.

Lemma raised_stays_raised parse l :
  fold_left
    (fun (og : option Graph) f =>
       match og with
       | Some g => analyze_or_raise parse f g
       | None => None
       end) l None = None.
Proof. induction l as [|f l IH]; [reflexivity|exact IH]. Qed.

Lemma analyze_all_raises parse l f : forall g,
  In f l -> parse (source f) = Raises_other -> analyze_all parse l g = None.
Proof.
  unfold analyze_all. induction l as [|x l IH]; intros g Hf H; [destruct Hf|].
  cbn [fold_left]. destruct (analyze_or_raise parse x g) as [g'|] eqn:E.
  - destruct Hf as [->|Hf]; [|now apply IH].
    unfold analyze_or_raise in E. rewrite H in E. discriminate E.
  - apply raised_stays_raised.
Qed.
(** * The claims *)


(** C2. [add_node] inserts a node only when its id is absent from the
    store, and re-adding an existing id is a no-op: whatever [add_node]
    calls come later, with the same id or any other, the kind, label,
    party and loc found under an id stay those of its first insertion. *)
Theorem add_node_first_writer_wins :
  forall (g : Graph) (i : string) (k : NodeKind) (l : string) (p : Party) (sz : Z),
    (* absent: the node is inserted, last, with the given fields *)
    (get_node (nodes g) i = None ->
       add_node i k l p sz g = mkGraph (nodes g ++ [mkNode i k l p sz]) (edges g)
       /\ get_node (nodes (add_node i k l p sz g)) i = Some (mkNode i k l p sz))
    (* present: the call changes nothing *)
    /\ (forall n, get_node (nodes g) i = Some n -> add_node i k l p sz g = g)
    (* a second call with the same id changes nothing *)
    /\ (forall k' l' p' sz',
          add_node i k' l' p' sz' (add_node i k l p sz g) = add_node i k l p sz g)
    (* no later sequence of calls overwrites what is recorded for the id *)
    /\ (forall (later : list add_node_call),
          get_node (nodes (fold_left run_add_node later (add_node i k l p sz g))) i
          = get_node (nodes (add_node i k l p sz g)) i).
Proof.
  intros g i k l p sz.
  assert (Hin : exists n, get_node (nodes (add_node i k l p sz g)) i = Some n).
  { destruct (get_node (nodes g) i) as [n|] eqn:E.
    - exists n. now apply add_node_keeps.
    - eexists. now apply add_node_gets. }
  destruct Hin as [n Hn].
  repeat split.
  - now apply add_node_absent.
  - now apply add_node_gets.
  - intros m H. now apply add_node_present with m.
  - intros k' l' p' sz'. now apply add_node_present with n.
  - intros later. rewrite Hn. now apply run_add_nodes_keep.
Qed.

(** On the empty store: a function node is inserted, and a second
    [add_node] with its id and other fields changes nothing. *)
Lemma add_node_first_writer_wins_example :
  get_node (nodes Graph_empty) "function:f" = None
  /\ get_node (nodes (add_node "function:f" KFunction "f" P3rd 0 Graph_empty))
              "function:f"
     = Some (mkNode "function:f" KFunction "f" P3rd 0)
  /\ add_node "function:f" KClass "g" P1st 3
              (add_node "function:f" KFunction "f" P3rd 0 Graph_empty)
     = add_node "function:f" KFunction "f" P3rd 0 Graph_empty.
Proof.
  destruct (add_node_first_writer_wins Graph_empty "function:f" KFunction "f"
              P3rd 0) as (A & _ & C & _).
  split; [reflexivity|]. split; [apply A; reflexivity|apply C].
Defined.

(** C3. While one function definition is walked, a calls edge from the
    function's node is emitted for every call expression reachable
    from the definition without crossing a nested function or class
    definition whose callee resolves to a dotted name, in the order of
    the walk; the arguments of a call are scanned too, so [f(g())]
    yields an edge for [f] and one for [g]; and the calls inside nested
    definitions yield no calls edge from the outer function: whatever
    the later visit of the nested definitions emits starts elsewhere. *)
Theorem function_body_calls :
  forall (a : bool) (name : string) (l : Z) (e : option Z) (cs : list ast)
         (v : Visitor),
    let fn := FunctionDef a name l e cs in
    let func_id := _make_id "function" name v in
    let v1 := on_graph (add_node func_id KFunction name P1st (def_loc l e)) v in
    let v3 := push func_id
                (on_graph (add_edge (_current_scope_id v) func_id Has) v1) in
    let targets := call_targets (reachable_calls fn) v3 in
    (* the walk of the body handles the reachable calls, in order *)
    _walk_body_for_calls fn v3 = handle_calls (reachable_calls fn) v3
    (* one target per reachable call whose callee resolves *)
    /\ List.length targets = List.length (filter resolvable (reachable_calls fn))
    (* the edges of the whole visit of the definition *)
    /\ (exists later,
          edges (graph (visit fn v)) =
            (edges (graph v) ++ [mkEdge (_current_scope_id v) func_id Has]
             ++ map (fun t => mkEdge func_id t Calls) targets ++ later)%list
          /\ Forall (fun e => ekind e = Calls -> src e <> func_id) later)
    (* a call that is a child is reachable, and so is what is reachable
       from a child that is not a definition: arguments are scanned *)
    /\ (forall n f args, In (Call f args) (iter_child_nodes n) ->
          In f (reachable_calls n))
    /\ (forall n c, In c (iter_child_nodes n) -> is_def c = false ->
          incl (reachable_calls c) (reachable_calls n))
    /\ reachable_calls (Other [Call (Name "f") [Call (Name "g") []]])
       = [Name "f"; Name "g"]
    (* nothing is reachable through a nested definition *)
    /\ (forall d, is_def d = true -> calls_below d = []).
Proof.
  intros a name l e cs v fn func_id v1 v3 targets.
  split; [apply walk_is_handle_calls|].
  split; [apply call_targets_length|].
  split; [|split; [exact reachable_calls_child_call|
           split; [exact reachable_calls_child|
           split; [reflexivity|intros d; destruct d; simpl; congruence]]]].
  assert (SW : step False False (eq func_id) v3 (_walk_body_for_calls fn v3)).
  { pose proof (_walk_body_for_calls_step False False fn v3) as H.
    unfold v3 at 2 in H. rewrite current_push in H. apply H. intros []. }
  assert (C4 : _current_scope_id (_walk_body_for_calls fn v3) = func_id).
  { erewrite step_current; [|exact SW]. apply current_push. }
  assert (SG : step False False
                 (fun s => String.length func_id < String.length s)
                 (_walk_body_for_calls fn v3)
                 (generic_visit cs (_walk_body_for_calls fn v3))).
  { rewrite <- C4. apply generic_visit_step; try (intros []).
    apply Forall_forall. intros c _ w. apply visit_step. }
  destruct SG as (_ & _ & _ & ns & later & _ & E & _ & FE).
  exists later. split.
  - rewrite visit_eq. cbn zeta.
    change (edges (graph (pop ?x))) with (edges (graph x)).
    change (edges (graph (generic_visit cs (_walk_body_for_calls fn v3)))
            = (edges (graph v) ++ [mkEdge (_current_scope_id v) func_id Has]
               ++ map (fun t => mkEdge func_id t Calls) targets ++ later)%list).
    rewrite E, walk_is_handle_calls, handle_calls_edges.
    unfold v3 at 2. rewrite current_push.
    unfold v3 at 1. cbn [push graph on_graph add_edge edges].
    unfold v1. cbn [graph on_graph]. rewrite add_node_edges.
    rewrite <- !app_assoc. reflexivity.
  - eapply Forall_impl; [|exact FE]. intros x [_ H] K Heq.
    specialize (H K). rewrite Heq in H. lia.
Qed.

(** C6. The file node created for a file that parses has as size the
    file's line count, a last line without a trailing newline counting
    as one line; the node created for a class or function definition
    has as size end line - start line + 1. *)
Theorem node_sizes :
  (* the size computed for a file is its number of lines *)
  (forall source, file_loc source = line_count source)
  /\ line_count ("a" ++ String newline "b") = 2%Z
  /\ line_count ("a" ++ String newline ("b" ++ String newline "")) = 2%Z
  (* the file node, when the walk creates it *)
  /\ (forall ast_parse f g tree,
        ast_parse (source f) = Some tree ->
        get_node (nodes g) (file_id_of f) = None ->
        get_node (nodes (analyze ast_parse f g)) (file_id_of f)
        = Some (mkNode (file_id_of f) KFile (last (rel f) "") P1st
                       (line_count (source f))))
  (* the node of a function definition, when the walk creates it *)
  /\ (forall a name l e cs v,
        e <> 0%Z ->
        get_node (nodes (graph v)) (_make_id "function" name v) = None ->
        get_node (nodes (graph (visit (FunctionDef a name l (Some e) cs) v)))
                 (_make_id "function" name v)
        = Some (mkNode (_make_id "function" name v) KFunction name P1st
                       (e - l + 1)))
  (* the node of a class definition, when the walk creates it *)
  /\ (forall name l e bases rest v,
        e <> 0%Z ->
        get_node (nodes (graph v)) (_make_id "class" name v) = None ->
        get_node (nodes (graph (visit (ClassDef name l (Some e) bases rest) v)))
                 (_make_id "class" name v)
        = Some (mkNode (_make_id "class" name v) KClass name P1st
                       (e - l + 1))).
Proof.
  split; [exact file_loc_is_line_count|].
  split; [reflexivity|]. split; [reflexivity|].
  assert (D : forall l e, e <> 0%Z -> def_loc l (Some e) = (e - l + 1)%Z).
  { intros l e H. unfold def_loc. apply Z.eqb_neq in H. now rewrite H. }
  split; [|split].
  - intros ast_parse f g tree HP HN.
    destruct (analyze_rest ast_parse f g tree HP) as (v' & -> & St).
    eapply step_get_node; [exact St|].
    rewrite <- file_loc_is_line_count. now apply add_node_gets.
  - intros a name l e cs v He HN.
    eapply step_get_node; [apply visit_FunctionDef_rest|].
    rewrite <- (D l e He). now apply add_node_gets.
  - intros name l e bases rest v He HN.
    eapply step_get_node; [apply visit_ClassDef_rest|].
    rewrite <- (D l e He). now apply add_node_gets.
Qed.

(** The walk of pkg/good.py, one line holding one function. *)
Lemma node_sizes_example :
  demo_parse (source demo_good) <> None
  /\ get_node (nodes Graph_empty) (file_id_of demo_good) = None
  /\ get_node (nodes (analyze demo_parse demo_good Graph_empty))
              "file:pkg/good.py"
     = Some (mkNode "file:pkg/good.py" KFile "good.py" P1st 1)
  /\ get_node (nodes (analyze demo_parse demo_good Graph_empty))
              "file:pkg/good.py::function:f"
     = Some (mkNode "file:pkg/good.py::function:f" KFunction "f" P1st (1 - 1 + 1)).
Proof.
  destruct node_sizes as (_ & _ & _ & A & B & _).
  split; [discriminate|]. split; [reflexivity|]. split.
  - apply (A demo_parse demo_good Graph_empty
             (Other [FunctionDef false "f" 1%Z (Some 1%Z)
                       [Other []; Other [Call (Name "g") [Call (Name "h") []]]]]));
      reflexivity.
  - apply (B false "f" 1%Z 1%Z
             [Other []; Other [Call (Name "g") [Call (Name "h") []]]]
             (push "file:pkg/good.py"
                (on_graph (add_node "file:pkg/good.py" KFile "good.py" P1st 1)
                          (CallGraphVisitor Graph_empty demo_good))));
      [discriminate|reflexivity].
Defined.

(** C7. Serialization succeeds on every graph store, whatever its
    edges point at: an edge endpoint whose id has no node in the store
    is rendered as the bare quoted id (and one that has a node as that
    node's dot id). *)
Theorem write_dot_missing_endpoint :
  forall (width_text height_text : Z -> string) (g : Graph),
    exists lines,
      write_dot_lines width_text height_text g = Some lines
      /\ write_dot width_text height_text g
         = Some (join (String newline "") lines ++ String newline "")
      /\ forall e, In e (edges g) ->
           exists s d,
             In ("  " ++ s ++ " -> " ++ d ++ " " ++ Edge_dot_attrs e ++ ";") lines
             /\ (get_node (nodes g) (src e) = None -> s = dq ++ src e ++ dq)
             /\ (get_node (nodes g) (dst e) = None -> d = dq ++ dst e ++ dq)
             /\ (forall n, get_node (nodes g) (src e) = Some n -> s = Node_dot_id n)
             /\ (forall n, get_node (nodes g) (dst e) = Some n -> d = Node_dot_id n).
Proof.
  intros width_text height_text g.
  assert (T : forall e, In e (edges g) ->
                exists b, edge_line (nodes g) e = Some b).
  { intros e _. unfold edge_line.
    destruct (endpoint_total (nodes g) (src e)) as (s & -> & _).
    destruct (endpoint_total (nodes g) (dst e)) as (d & -> & _).
    eexists. reflexivity. }
  destruct (mapM_total (edge_line (nodes g)) (edges g) T) as (els & E & Hels).
  unfold write_dot, write_dot_lines. rewrite E.
  eexists. split; [reflexivity|]. split; [reflexivity|].
  intros e He. destruct (Hels e He) as (b & Hb & Ib).
  unfold edge_line in Hb.
  destruct (endpoint_total (nodes g) (src e)) as (s & Es & S1 & S2).
  destruct (endpoint_total (nodes g) (dst e)) as (d & Ed & D1 & D2).
  rewrite Es, Ed in Hb. injection Hb as <-.
  exists s, d. repeat split; auto.
  apply in_or_app. right. apply in_or_app. right.
  apply in_or_app. right. apply in_or_app. now left.
Qed.

(** The run over the one malformed file pkg/bad.py: the edge to the
    file has no node at its end, and is written with the quoted id. *)
Lemma write_dot_missing_endpoint_example :
  In (mkEdge "dir:pkg" "file:pkg/bad.py" Has)
     (edges (build_graph demo_parse [demo_bad]))
  /\ get_node (nodes (build_graph demo_parse [demo_bad])) "file:pkg/bad.py" = None
  /\ exists lines s,
       write_dot_lines (fun _ => "0.50") (fun _ => "0.30")
                       (build_graph demo_parse [demo_bad]) = Some lines
       /\ In ("  " ++ s ++ " -> " ++ (dq ++ "file:pkg/bad.py" ++ dq) ++ " "
              ++ Edge_dot_attrs (mkEdge "dir:pkg" "file:pkg/bad.py" Has) ++ ";")
             lines.
Proof.
  assert (H : In (mkEdge "dir:pkg" "file:pkg/bad.py" Has)
                 (edges (build_graph demo_parse [demo_bad]))) by (now left).
  split; [exact H|]. split; [reflexivity|].
  destruct (write_dot_missing_endpoint (fun _ => "0.50") (fun _ => "0.30")
              (build_graph demo_parse [demo_bad])) as (lines & E & _ & L).
  destruct (L _ H) as (s & d & I1 & _ & D & _).
  exists lines, s. split; [exact E|].
  rewrite (D eq_refl) in I1. exact I1.
Defined.






(** C5, as the claim states it, fails: the file a/b/c.py is discovered
    but does not parse, and the finished store holds no node
    file:a/b/c.py. *)
Lemma unparsed_file_has_no_node :
  In demo_deep_bad [demo_deep_bad]
  /\ rel_str (rel demo_deep_bad) = "a/b/c.py"
  /\ get_node (nodes (build_graph demo_parse [demo_deep_bad])) "file:a/b/c.py"
     = None.
Proof. split; [now left|]. split; reflexivity. Qed.

(** C5, amended. For every discovered file, after the full run the
    store holds a directory node for every prefix of its directory
    parts, the has edge from each of these directories to the next,
    and the has edge from its directory to its file id; it holds the
    file's node when the file parses; and a file directly at the root
    is the target of no edge from a directory. *)
Theorem directory_scaffolding :
  forall (ast_parse : string -> option ast) (files : list SourceFile)
         (f : SourceFile),
    (forall f', In f' files -> Forall slash_free (rel f')) ->
    In f files ->
    let parts := removelast (rel f) in
    let g := build_graph ast_parse files in
    (forall i, i < List.length parts ->
       exists n, get_node (nodes g) ("dir:" ++ join "/" (firstn (i + 1) parts))
                 = Some n /\ kind n = KDir)
    /\ (forall i, 0 < i < List.length parts ->
          In (mkEdge ("dir:" ++ join "/" (firstn i parts))
                     ("dir:" ++ join "/" (firstn (i + 1) parts)) Has)
             (edges g))
    /\ (join "/" parts <> "" ->
          In (mkEdge ("dir:" ++ join "/" parts) (file_id_of f) Has) (edges g))
    /\ (forall tree, ast_parse (source f) = Some tree ->
          exists n, get_node (nodes g) (file_id_of f) = Some n)
    /\ (parts = [] ->
          forall e, In e (edges g) -> dst e = file_id_of f ->
                    String.prefix "dir:" (src e) = false).
Proof.
  intros ast_parse files f Hsl Hf parts g.
  pose proof (build_graph_grows ast_parse files) as G. fold g in G.
  assert (SI : scaffold_inv (Graph_empty, [])).
  { split; [constructor|]. intros d []. }
  destruct (scaffold_fold_inv files (Graph_empty, []) Hsl SI) as [_ D].
  assert (DD : forall i, i < List.length parts ->
                 dir_done g (firstn (i + 1) parts)).
  { intros i Hi. eapply dir_done_grows; [exact G|]. now apply D. }
  split; [|split; [|split; [|split]]].
  - intros i Hi. apply (DD i Hi).
  - intros i [Hi1 Hi2]. destruct (DD i Hi2) as [_ E].
    replace (i + 1) with (S i) in * by lia.
    rewrite removelast_firstn in E by lia. apply E.
    rewrite length_firstn. lia.
  - intros H. eapply grows_edge; [exact G|].
    now apply scaffold_fold_file_edge.
  - intros tree H. eapply build_graph_has_file_node; eauto.
  - intros Hroot e He Hd.
    destruct (String.prefix "dir:" (src e)) eqn:P; [exfalso|reflexivity].
    destruct (build_graph_dir_edges ast_parse files e He P)
      as (_ & _ & [Q|(f' & Hf' & Ef' & Q)]).
    + rewrite Hd in Q. discriminate.
    + rewrite Hd in Ef'. apply append_inv_head in Ef'.
      apply rel_str_has_slash in Q. rewrite <- Ef' in Q.
      rewrite (root_file_no_slash (rel f)) in Q; [discriminate|auto|exact Hroot].
Qed.

(** The run over a/b/c.py and top.py. *)
Lemma directory_scaffolding_example :
  (forall f', In f' [demo_deep; demo_root] -> Forall slash_free (rel f'))
  /\ In demo_deep [demo_deep; demo_root]
  /\ (exists n, get_node (nodes (build_graph demo_parse [demo_deep; demo_root]))
                         "dir:a/b" = Some n /\ kind n = KDir)
  /\ In (mkEdge "dir:a" "dir:a/b" Has)
        (edges (build_graph demo_parse [demo_deep; demo_root]))
  /\ In (mkEdge "dir:a/b" "file:a/b/c.py" Has)
        (edges (build_graph demo_parse [demo_deep; demo_root]))
  /\ (exists n, get_node (nodes (build_graph demo_parse [demo_deep; demo_root]))
                         "file:a/b/c.py" = Some n).
Proof.
  assert (H1 : forall f', In f' [demo_deep; demo_root] ->
                 Forall slash_free (rel f')).
  { intros f' [<-|[<-|[]]]; repeat constructor. }
  assert (H2 : In demo_deep [demo_deep; demo_root]) by (now left).
  split; [exact H1|]. split; [exact H2|].
  destruct (directory_scaffolding demo_parse [demo_deep; demo_root] demo_deep
              H1 H2) as (A & B & C & D & _).
  split; [apply (A 1); simpl; lia|].
  split; [apply (B 1); simpl; lia|].
  split; [apply C; discriminate|].
  apply (D (Other [Import ["os"]])). reflexivity.
Defined.

(** C9. Every calls edge of the store starts at the id of a function
    node that was in the store when the edge was appended: the scan
    that emits calls edges starts with the function's id on top of the
    scope stack and its function node in the store, each edge is
    appended to a store that still holds that node, and so every calls
    edge of the finished graph starts at a function node; the calls
    edges a visit adds are as many as the calls with a resolvable
    callee that lie in the function definitions of the tree, so a call
    at module level or directly in a class body adds none. *)
Theorem calls_edges_start_at_function_nodes :
  forall (ast_parse : string -> option ast) (files : list SourceFile),
    run_ok ast_parse files ->
    (* the finished graph *)
    calls_ok (build_graph ast_parse files)
    (* when the scan of a function body starts *)
    /\ (forall a name l e cs v,
          store_ok (own_ids ast_parse files) v ->
          names_ok (FunctionDef a name l e cs) = true ->
          let fn := FunctionDef a name l e cs in
          let func_id := _make_id "function" name v in
          let v1 := on_graph (add_node func_id KFunction name P1st (def_loc l e)) v in
          let v3 := push func_id
                      (on_graph (add_edge (_current_scope_id v) func_id Has) v1) in
          _current_scope_id v3 = func_id
          /\ is_fun_node (nodes (graph v3)) func_id
          /\ visit fn v = pop (generic_visit cs (handle_calls (reachable_calls fn) v3)))
    (* when one calls edge is appended *)
    /\ (forall func v called,
          _resolve_name func = Some called ->
          graph (_handle_call func v)
          = add_edge (_current_scope_id v) (fst (_resolve_target called v)) Calls
                     (graph (snd (_resolve_target called v)))
          /\ _current_scope_id (_handle_call func v) = _current_scope_id v
          /\ (is_fun_node (nodes (graph v)) (_current_scope_id v) ->
              is_fun_node (nodes (graph (snd (_resolve_target called v))))
                          (_current_scope_id v)))
    /\ (forall func v, _resolve_name func = None -> _handle_call func v = v)
    (* calls edges come from function bodies only *)
    /\ (forall tree v,
          calls_count (graph (visit tree v))
          = calls_count (graph v)
            + List.length (filter resolvable (function_calls tree)))
    /\ (forall tree v, has_function tree = false ->
          calls_count (graph (visit tree v)) = calls_count (graph v)).
Proof.
  intros ast_parse files Hrun.
  split; [apply build_graph_inv; exact Hrun|].
  split; [|split; [|split; [|split]]].
  - intros a name l e cs v Hv Hn fn func_id v1 v3.
    split; [apply current_push|]. split.
    + apply (add_function_node (own_ids ast_parse files) name l e v); auto.
      * apply own_ids_py. apply Hrun.
      * eapply names_ok_FunctionDef; eauto.
    + unfold fn. rewrite visit_eq. cbn zeta. rewrite walk_is_handle_calls.
      reflexivity.
  - intros func v called H.
    split; [now apply _handle_call_graph|].
    split; [apply _handle_call_current|].
    apply (step_is_fun_node False False (fun _ => True)).
    apply _resolve_target_step.
  - intros func v H. unfold _handle_call. now rewrite H.
  - apply calls_count_visit.
  - intros tree v H. rewrite calls_count_visit.
    rewrite (no_function_no_calls tree H). simpl. lia.
Qed.

(** The run over pkg/good.py, whose function holds two calls, and
    top.py, whose one call is at module level. *)
Lemma calls_edges_example :
  run_ok demo_parse [demo_good; demo_root]
  /\ calls_ok (build_graph demo_parse [demo_good; demo_root])
  /\ calls_count (build_graph demo_parse [demo_good; demo_root]) = 2
  /\ calls_count (build_graph demo_parse [demo_root]) = 0.
Proof.
  assert (H : run_ok demo_parse [demo_good; demo_root]).
  { split.
    - intros f [<-|[<-|[]]]; reflexivity.
    - intros f tree [<-|[<-|[]]] E; vm_compute in E;
        injection E as <-; reflexivity. }
  split; [exact H|].
  split; [exact (proj1 (calls_edges_start_at_function_nodes
                          demo_parse [demo_good; demo_root] H))|].
  split; reflexivity.
Defined.

(** C10. A discovered file in a subdirectory whose source fails to
    parse leaves, in the finished store, the has edge from its
    directory to its file id and no node with that file id: the
    serializer renders that endpoint as the bare quoted id. *)
Theorem unparsed_file_dangling_edge :
  forall (ast_parse : string -> option ast) (files : list SourceFile)
         (f : SourceFile),
    run_ok ast_parse files ->
    NoDup (map file_id_of files) ->
    In f files ->
    ast_parse (source f) = None ->
    join "/" (removelast (rel f)) <> "" ->
    let g := build_graph ast_parse files in
    In (mkEdge ("dir:" ++ join "/" (removelast (rel f))) (file_id_of f) Has)
       (edges g)
    /\ get_node (nodes g) (file_id_of f) = None
    /\ endpoint (nodes g) (file_id_of f) = Some (dq ++ file_id_of f ++ dq).
Proof.
  intros ast_parse files f Hrun Hnd Hf Hp Hdir g.
  assert (N : get_node (nodes g) (file_id_of f) = None).
  { apply get_node_None. intros n Hn E.
    destruct (build_graph_inv ast_parse files Hrun) as [Hok _].
    rewrite Forall_forall in Hok.
    apply (unwalked_file_id_free (own_ids ast_parse files) n
             (rel_str (rel f)) (Hok n Hn) E).
    - now apply rel_str_has_slash.
    - now apply Hrun.
    - intros Hin. unfold own_ids in Hin. apply in_map_iff in Hin.
      destruct Hin as (f' & E' & Hf'). apply filter_In in Hf'.
      destruct Hf' as [Hf' P].
      assert (f' = f) by (eapply NoDup_map_inj; eauto). subst f'.
      unfold parses in P. rewrite Hp in P. discriminate. }
  split; [|split; [exact N|]].
  - eapply grows_edge; [apply build_graph_grows|].
    now apply scaffold_fold_file_edge.
  - unfold endpoint, has_node. now rewrite N.
Qed.

(** The run over pkg/bad.py, which does not parse, and pkg/good.py. *)
Lemma unparsed_file_dangling_edge_example :
  run_ok demo_parse [demo_bad; demo_good]
  /\ NoDup (map file_id_of [demo_bad; demo_good])
  /\ demo_parse (source demo_bad) = None
  /\ In (mkEdge "dir:pkg" "file:pkg/bad.py" Has)
        (edges (build_graph demo_parse [demo_bad; demo_good]))
  /\ get_node (nodes (build_graph demo_parse [demo_bad; demo_good]))
              "file:pkg/bad.py" = None.
Proof.
  assert (H : run_ok demo_parse [demo_bad; demo_good]).
  { split.
    - intros f [<-|[<-|[]]]; reflexivity.
    - intros f tree [<-|[<-|[]]] E; vm_compute in E;
        [discriminate|injection E as <-; reflexivity]. }
  assert (N : NoDup (map file_id_of [demo_bad; demo_good])).
  { repeat constructor; simpl; intuition discriminate. }
  split; [exact H|]. split; [exact N|]. split; [reflexivity|].
  destruct (unparsed_file_dangling_edge demo_parse [demo_bad; demo_good]
              demo_bad H N (or_introl eq_refl) eq_refl) as (A & B & _).
  - discriminate.
  - split; [exact A|exact B].
Defined.

(** * Further properties of the analyzer *)

(** X1. No edge of a run starts at an id without a node, and the only
    edges that end at an id without a node are the has edges the
    scaffolder adds from a directory to a file that does not parse;
    a calls edge ends at a function or class node. *)
Theorem no_edge_dangles :
  forall (ast_parse : string -> option ast) (files : list SourceFile),
    let g := build_graph ast_parse files in
    Forall (fun e =>
              has_node (nodes g) (src e) = true
              /\ (has_node (nodes g) (dst e) = true
                  \/ exists f, In f files /\ parses ast_parse f = false
                       /\ e = mkEdge ("dir:" ++ join "/" (removelast (rel f)))
                                     (file_id_of f) Has)
              /\ (ekind e = Calls ->
                  exists n, get_node (nodes g) (dst e) = Some n
                            /\ is_function_or_class (kind n) = true))
           (edges g).
Proof.
  intros ast_parse files g. apply Forall_forall. intros e He.
  destruct (build_graph_anchored ast_parse files e He) as (S & D & C).
  split; [exact S|]. split; [exact D|].
  intros K. destruct (C K) as (n & Hn & E & F). exists n. split; [|exact F].
  rewrite <- E. apply unique_ids_get_node; [|exact Hn].
  apply build_graph_unique_ids.
Qed.

(** X2. Every is edge of a run goes from the id of a class definition
    to the placeholder "class:" + base name, an external class node of
    size 0 labelled with the base name as written: an inheritance edge
    never ends at the node of a class defined in the project, whose id
    starts with "file:". *)
Theorem is_edges_end_at_placeholders :
  forall (ast_parse : string -> option ast) (files : list SourceFile),
    let g := build_graph ast_parse files in
    Forall (fun e =>
              ekind e = Is ->
              String.prefix "file:" (src e) = true
              /\ (exists s name, src e = s ++ "::class:" ++ name)
              /\ exists b, dst e = "class:" ++ b
                   /\ get_node (nodes g) (dst e)
                      = Some (mkNode ("class:" ++ b) KClass b P3rd 0))
           (edges g).
Proof.
  intros ast_parse files g. apply Forall_forall. intros e He K.
  destruct (build_graph_shapes False ast_parse files) as (ns & es & N & E & FN & FE).
  { apply Forall_forall. intros f _ []. }
  destruct (build_graph_anchored ast_parse files e He) as (_ & D & _).
  fold g in N, E, FN, FE, D, He.
  rewrite E in He. apply in_app_or in He. destruct He as [He|He].
  { destruct (scaffold_is_anchored files e He) as (K' & _). congruence. }
  rewrite Forall_forall in FE. destruct (FE e He) as (P & Sh).
  rewrite K in Sh. destruct Sh as (Hs & b & Hb).
  split; [exact P|]. split; [exact Hs|]. exists b. split; [exact Hb|].
  destruct D as [D|(f & _ & _ & Ef)]; [|subst e; discriminate K].
  unfold has_node in D. destruct (get_node (nodes g) (dst e)) as [n|] eqn:G;
    [|discriminate D].
  f_equal. rewrite Forall_forall in FN.
  destruct (FN n (get_node_In _ _ _ G)) as ((C & _) & _).
  apply C. rewrite (get_node_id _ _ _ G). exact Hb.
Qed.

(** X3. In a run over files that lie below the root, every imports
    edge starts at a scope of a walked file and ends at "file:" + the
    module name; for a module name without colon or slash the node at
    that id is the external file node of size 0 labelled with the
    module name, also when the module is a file of the project. *)
Theorem imports_edges_end_at_externals :
  forall (ast_parse : string -> option ast) (files : list SourceFile) (e : Edge),
    Forall below_root files ->
    In e (edges (build_graph ast_parse files)) ->
    ekind e = Imports ->
    String.prefix "file:" (src e) = true
    /\ exists m, dst e = "file:" ++ m
         /\ (module_ok m = true ->
             get_node (nodes (build_graph ast_parse files)) (dst e)
             = Some (mkNode ("file:" ++ m) KFile m P3rd 0)).
Proof.
  intros ast_parse files e Hf He K.
  destruct (build_graph_shapes True ast_parse files) as (ns & es & N & E & FN & FE).
  { eapply Forall_impl; [|exact Hf]. auto. }
  destruct (build_graph_anchored ast_parse files e He) as (_ & D & _).
  rewrite E in He. apply in_app_or in He. destruct He as [He|He].
  { destruct (scaffold_is_anchored files e He) as (K' & _). congruence. }
  rewrite Forall_forall in FE. destruct (FE e He) as (P & Sh).
  rewrite K in Sh. destruct Sh as (m & Hm).
  split; [exact P|]. exists m. split; [exact Hm|]. intros M.
  destruct D as [D|(f & _ & _ & Ef)]; [|subst e; discriminate K].
  unfold has_node in D.
  destruct (get_node (nodes (build_graph ast_parse files)) (dst e)) as [n|] eqn:G;
    [|discriminate D].
  f_equal. rewrite Forall_forall in FN.
  destruct (FN n (get_node_In _ _ _ G)) as ((_ & _ & C) & _).
  apply (C Logic.I); [|exact M]. rewrite (get_node_id _ _ _ G). exact Hm.
Qed.

(** The run over a/b/c.py, which imports os. *)
Lemma imports_edges_end_at_externals_example :
  Forall below_root [demo_deep]
  /\ In (mkEdge "file:a/b/c.py" "file:os" Imports)
        (edges (build_graph demo_parse [demo_deep]))
  /\ get_node (nodes (build_graph demo_parse [demo_deep])) "file:os"
     = Some (mkNode "file:os" KFile "os" P3rd 0).
Proof.
  assert (F : Forall below_root [demo_deep]).
  { constructor; [|constructor]. unfold below_root. simpl. lia. }
  assert (I : In (mkEdge "file:a/b/c.py" "file:os" Imports)
                 (edges (build_graph demo_parse [demo_deep]))).
  { vm_compute. auto. }
  split; [exact F|]. split; [exact I|].
  destruct (imports_edges_end_at_externals demo_parse [demo_deep]
              (mkEdge "file:a/b/c.py" "file:os" Imports) F I eq_refl)
    as (_ & m & Hm & G).
  cbn [dst] in Hm, G. apply (append_inv_head "file:") in Hm. subst m.
  apply G. reflexivity.
Defined.

(** X4. Every has edge of a run goes to a strictly longer id: the
    edge from a directory to a subdirectory or a file, and the edge
    from a scope to a definition in it, whose id is the scope's id
    followed by "::", the kind, a colon and the name.  The containment
    edges therefore hold no cycle. *)
Theorem has_edges_lengthen :
  forall (ast_parse : string -> option ast) (files : list SourceFile),
    Forall (fun e =>
              ekind e = Has ->
              String.length (src e) < String.length (dst e)
              /\ (String.prefix "file:" (src e) = true ->
                  exists k name, (k = KClass \/ k = KFunction)
                    /\ dst e = src e ++ "::" ++ NodeKind_str k ++ ":" ++ name))
           (edges (build_graph ast_parse files)).
Proof.
  intros ast_parse files. apply Forall_forall. intros e He K.
  destruct (build_graph_shapes False ast_parse files) as (ns & es & N & E & FN & FE).
  { apply Forall_forall. intros f _ []. }
  rewrite E in He. apply in_app_or in He. destruct He as [He|He].
  - pose proof (scaffold_lengthens files) as L. rewrite Forall_forall in L.
    split; [exact (L e He)|]. intros P. exfalso.
    destruct (scaffold_nodes_edges files) as [_ D]. rewrite Forall_forall in D.
    destruct (D e He) as (_ & Q & _). eapply dir_not_file; eauto.
  - rewrite Forall_forall in FE. destruct (FE e He) as (P & Sh).
    rewrite K in Sh. destruct Sh as (k & name & Hk & Hd).
    split; [|intros _; now exists k, name].
    rewrite Hd, length_append. simpl. lia.
Qed.

(** X5. The nodes of a run, by party: an own node has an id that
    starts with "dir:" or "file:"; an external node is never a
    directory, has size 0, and its id is its kind, a colon and the
    name it stands for, its label being that name, or the last dotted
    segment of it for a function. *)
Theorem nodes_by_party :
  forall (ast_parse : string -> option ast) (files : list SourceFile),
    Forall (fun n =>
              match party n with
              | P1st => String.prefix "dir:" (id n) = true
                        \/ String.prefix "file:" (id n) = true
              | P3rd =>
                  loc n = 0%Z /\ kind n <> KDir
                  /\ exists x, id n = NodeKind_str (kind n) ++ ":" ++ x
                       /\ label n = match kind n with
                                    | KFunction => last_dotted_segment x
                                    | _ => x
                                    end
              end)
           (nodes (build_graph ast_parse files)).
Proof.
  intros ast_parse files.
  destruct (build_graph_shapes False ast_parse files) as (ns & es & N & E & FN & FE).
  { apply Forall_forall. intros f _ []. }
  eapply Forall_impl; [|exact FN]. intros n (_ & O). unfold origin_shape in O.
  destruct (party n); [exact O|].
  destruct O as (L & K & x & Hx & Hl). repeat split; auto.
  exists x. split; [exact Hx|]. rewrite Hl.
  destruct (kind n); try reflexivity. apply short_name_is_last_segment.
Qed.

(** X6. Resolving a name a second time gives the same id and leaves
    the store as the first resolution left it, whichever rule
    resolved it; so a call handled twice from the same scope adds the
    same calls edge twice, and the placeholder, if one was needed,
    once. *)
Theorem resolve_target_settles :
  forall (name : string) (v : Visitor),
    _resolve_target name (snd (_resolve_target name v)) = _resolve_target name v
    /\ forall f, _resolve_name f = Some name ->
         _handle_call f (_handle_call f v)
         = on_graph (add_edge (_current_scope_id v)
                              (fst (_resolve_target name v)) Calls)
                    (_handle_call f v).
Proof.
  intros name v. split; [apply _resolve_target_again|].
  intros f H. unfold _handle_call. rewrite H.
  pose proof (_resolve_target_again name v) as A.
  destruct (_resolve_target_frame name v) as (_ & Fi & Sc).
  destruct (_resolve_target name v) as [t v1]. cbn [fst snd] in *.
  rewrite _resolve_target_add_edge, A. cbn [fst snd].
  unfold _current_scope_id. cbn [on_graph file_id _scope].
  now rewrite Fi, Sc.
Qed.

(** X7. The dotted name of a callee or base expression: a chain of
    attribute accesses on a name resolves to the name and the
    attributes joined by dots; on any other expression (a call, a
    subscript, ...) the expression is dropped and the chain resolves
    to its attributes alone. *)
Theorem resolve_name_dotted :
  forall (x : string) (attrs : list string) (base : ast),
    (x <> "" ->
     _resolve_name (fold_left Attribute attrs (Name x))
     = Some (join "." (x :: attrs)))
    /\ (_resolve_name base = None ->
        forall a, a <> "" ->
          _resolve_name (fold_left Attribute (a :: attrs) base)
          = Some (join "." (a :: attrs))).
Proof.
  intros x attrs base. split.
  - intros N. now apply _resolve_name_chain.
  - intros H a N. cbn [fold_left]. apply _resolve_name_chain; [|exact N].
    cbn [_resolve_name]. now rewrite H.
Qed.

(** X8. An import statement adds, in order, one imports edge per
    alias from the current scope to "file:" + the alias's module name,
    repeated names included; afterwards each of these ids has a node,
    the nodes that were there are unchanged, and at most one node per
    alias was added.  A from-import without a module name (a relative
    import from the package itself) changes nothing. *)
Theorem visit_Import_edges :
  forall (names : list string) (v : Visitor),
    edges (graph (visit_Import names v))
    = (edges (graph v)
       ++ map (fun a => mkEdge (_current_scope_id v) ("file:" ++ a) Imports) names)%list
    /\ (forall a, In a names ->
          has_node (nodes (graph (visit_Import names v))) ("file:" ++ a) = true)
    /\ (forall i n, get_node (nodes (graph v)) i = Some n ->
          get_node (nodes (graph (visit_Import names v))) i = Some n)
    /\ List.length (nodes (graph (visit_Import names v)))
       <= List.length (nodes (graph v)) + List.length names
    /\ visit_ImportFrom None v = v.
Proof.
  intros names v. split; [|split; [|split; [|split; [|reflexivity]]]].
  - revert v. induction names as [|m names IH]; intros v.
    + simpl. now rewrite app_nil_r.
    + rewrite visit_Import_cons, IH. cbn [graph on_graph add_edge edges map].
      rewrite add_node_edges, <- app_assoc. reflexivity.
  - revert v. induction names as [|m names IH]; intros v a Ha; [destruct Ha|].
    rewrite visit_Import_cons. destruct Ha as [<-|Ha]; [|now apply IH].
    destruct (add_node_has ("file:" ++ m) KFile m P3rd 0 (graph v)) as [n Hn].
    unfold has_node. rewrite (visit_Import_keeps names _ ("file:" ++ m) n);
      [reflexivity|exact Hn].
  - intros i n. apply visit_Import_keeps.
  - revert v. induction names as [|m names IH]; intros v.
    + simpl. lia.
    + rewrite visit_Import_cons. etransitivity; [apply IH|].
      cbn [graph on_graph add_edge nodes List.length].
      pose proof (add_node_length ("file:" ++ m) KFile m P3rd 0 (graph v)). lia.
Qed.

(** X9. Quoting of ids in the DOT text: escaping is injective, so
    two nodes are written with the same DOT id only if they have the
    same id; an id without a double quote is written between quotes
    as it is, and one with a double quote gets longer. *)
Theorem dot_id_injective :
  forall (n1 n2 : Node),
    (Node_dot_id n1 = Node_dot_id n2 <-> id n1 = id n2)
    /\ (contains_char dquote (id n1) = false -> Node_dot_id n1 = dq ++ id n1 ++ dq)
    /\ (contains_char dquote (id n1) = true ->
        String.length (dq ++ id n1 ++ dq) < String.length (Node_dot_id n1)).
Proof.
  intros n1 n2. unfold Node_dot_id. split; [split|split].
  - intros H. apply append_inv_head in H. apply append_inv_tail in H.
    now apply escape_quotes_inj.
  - intros H. now rewrite H.
  - intros H. now rewrite escape_quotes_free.
  - intros H. apply escape_quotes_longer in H. rewrite !length_append. simpl. lia.
Qed.

(** X10. The walk of a tree only appends: it leaves the visitor's
    file id, path and scope stack as it found them, the nodes and
    edges of the store before the walk are an initial segment of
    those after it, no node it adds is a directory, and every id
    that had a node keeps that node. *)
Theorem visit_only_appends :
  forall (n : ast) (v : Visitor),
    file_id (visit n v) = file_id v
    /\ rel_path (visit n v) = rel_path v
    /\ _scope (visit n v) = _scope v
    /\ (exists ns es,
          nodes (graph (visit n v)) = (nodes (graph v) ++ ns)%list
          /\ edges (graph (visit n v)) = (edges (graph v) ++ es)%list
          /\ Forall (fun x => kind x <> KDir) ns)
    /\ (forall i x, get_node (nodes (graph v)) i = Some x ->
          get_node (nodes (graph (visit n v))) i = Some x).
Proof.
  intros n v. pose proof (visit_free n v) as St.
  pose proof (fun i x => step_get_node _ _ _ _ _ i x St) as G.
  destruct St as (F & R & S & ns & es & N & E & FN & _).
  repeat split; auto. exists ns, es. repeat split; auto.
  eapply Forall_impl; [|exact FN]. intros x [H _]. exact H.
Qed.

(** X11. The store of a run is a dict: no two of its nodes have the
    same id, every node is the one its id looks up, and the DOT ids
    of its nodes are pairwise distinct. *)
Theorem store_ids_unique :
  forall (ast_parse : string -> option ast) (files : list SourceFile),
    let g := build_graph ast_parse files in
    NoDup (map id (nodes g))
    /\ Forall (fun n => get_node (nodes g) (id n) = Some n) (nodes g)
    /\ NoDup (map Node_dot_id (nodes g)).
Proof.
  intros ast_parse files g.
  pose proof (build_graph_unique_ids ast_parse files) as U. fold g in U.
  unfold unique_ids in U. split; [exact U|]. split.
  - apply Forall_forall. intros n Hn. now apply unique_ids_get_node.
  - replace (map Node_dot_id (nodes g))
      with (map (fun i => dq ++ escape_quotes i ++ dq) (map id (nodes g)))
      by (rewrite map_map; reflexivity).
    apply NoDup_map_injective; [|exact U].
    intros a b H. apply append_inv_head in H. apply append_inv_tail in H.
    now apply escape_quotes_inj.
Qed.

(** X12. Every directory node of a run is the node of a directory
    above some discovered file: its id is "dir:" and the path of the
    directory, its label the last part of that path, its party 1st
    and its size 0. *)
Theorem directory_nodes :
  forall (ast_parse : string -> option ast) (files : list SourceFile),
    Forall (fun n =>
              kind n = KDir ->
              exists f l rest,
                In f files /\ l <> [] /\ removelast (rel f) = (l ++ rest)%list
                /\ n = mkNode ("dir:" ++ join "/" l) KDir (last l "") P1st 0)
           (nodes (build_graph ast_parse files)).
Proof.
  intros ast_parse files.
  destruct (build_graph_grows ast_parse files) as (ns & es & N & _ & FN & _).
  rewrite N. apply Forall_app. split.
  - eapply Forall_impl; [|apply scaffold_dir_nodes_of]. intros n H _. exact H.
  - eapply Forall_impl; [|exact FN]. intros n H K. contradiction.
Qed.

(** X13. Over files with distinct ids the scaffolder adds no has
    edge twice: a directory shared by several files is linked from
    its parent once. *)
Theorem scaffold_edges_once :
  forall (files : list SourceFile),
    NoDup (map file_id_of files) -> NoDup (edges (scaffold files)).
Proof.
  intros files N.
  destruct (scaffold_fold_fresh files [] (Graph_empty, [])) as (done & H & _).
  - exact N.
  - split; [constructor|]. split; [constructor|]. intros e [].
  - exact H.
Qed.

(** The scaffold of a/b/c.py and pkg/good.py and pkg/bad.py. *)
Lemma scaffold_edges_once_example :
  NoDup (map file_id_of [demo_deep; demo_bad; demo_good])
  /\ NoDup (edges (scaffold [demo_deep; demo_bad; demo_good]))
  /\ edges (scaffold [demo_deep; demo_bad; demo_good])
     = [mkEdge "dir:a" "dir:a/b" Has; mkEdge "dir:a/b" "file:a/b/c.py" Has;
        mkEdge "dir:pkg" "file:pkg/bad.py" Has;
        mkEdge "dir:pkg" "file:pkg/good.py" Has].
Proof.
  assert (N : NoDup (map file_id_of [demo_deep; demo_bad; demo_good])).
  { repeat constructor; simpl; intuition discriminate. }
  split; [exact N|]. split; [|reflexivity].
  exact (scaffold_edges_once [demo_deep; demo_bad; demo_good] N).
Defined.

(** X14. The summary main prints: for each kind the count recorded
    is the number of nodes (edges) of that kind, a kind is a key of
    the dict exactly when some node (edge) has it, no key occurs
    twice, and the counts add up to the number of nodes (edges). *)
Theorem summary_counts :
  forall (g : Graph),
    ((forall k, dict_get NodeKind_eqb (n_by_kind g) k 0
                = Z.of_nat (List.length
                              (filter (fun n => NodeKind_eqb (kind n) k) (nodes g))))
     /\ (forall k, In k (map fst (n_by_kind g))
                   <-> exists n, In n (nodes g) /\ kind n = k)
     /\ NoDup (map fst (n_by_kind g))
     /\ dict_total (n_by_kind g) = Z.of_nat (List.length (nodes g)))
    /\ ((forall k, dict_get EdgeKind_eqb (e_by_kind g) k 0
                   = Z.of_nat (List.length
                                 (filter (fun e => EdgeKind_eqb (ekind e) k) (edges g))))
        /\ (forall k, In k (map fst (e_by_kind g))
                      <-> exists e, In e (edges g) /\ ekind e = k)
        /\ NoDup (map fst (e_by_kind g))
        /\ dict_total (e_by_kind g) = Z.of_nat (List.length (edges g))).
Proof.
  intros g. split.
  - destruct (count_by_keys Node NodeKind NodeKind_eqb kind NodeKind_eqb_eq (nodes g))
      as [N I].
    split; [intros k; now apply count_by_get, NodeKind_eqb_eq|].
    split; [|split; [exact N|apply count_by_total]].
    intros k. unfold n_by_kind. rewrite I, in_map_iff.
    split; intros (n & A & B); exists n; auto.
  - destruct (count_by_keys Edge EdgeKind EdgeKind_eqb ekind EdgeKind_eqb_eq (edges g))
      as [N I].
    split; [intros k; now apply count_by_get, EdgeKind_eqb_eq|].
    split; [|split; [exact N|apply count_by_total]].
    intros k. unfold e_by_kind. rewrite I, in_map_iff.
    split; intros (e & A & B); exists e; auto.
Qed.

(** X15. Once a name without a dot has been resolved, every later
    resolution of it, from any file and whatever nodes have been
    added since, gives the same id and adds nothing: the first node
    labelled with the name keeps the name.  In particular a function
    that is called before the walk reaches its definition stays
    linked to the placeholder "function:" + name. *)
Theorem resolution_is_sticky :
  forall (name : string) (v w : Visitor) (ns : list Node),
    contains_char "." name = false ->
    (forall p, get_node (nodes (graph v)) ("function:" ++ name) = Some p ->
       label p = name /\ kind p = KFunction) ->
    nodes (graph w) = (nodes (graph (snd (_resolve_target name v))) ++ ns)%list ->
    _resolve_target name w = (fst (_resolve_target name v), w).
Proof.
  intros name v w ns Hd Hp N.
  destruct (_resolve_target_labelled name v Hd Hp) as (n & F & E).
  unfold _resolve_target at 1. rewrite N, find_app', F. now rewrite E.
Qed.

(** A call of b before any node is labelled b, then the definition
    of b in x.py, then a call of b again. *)
Lemma resolution_is_sticky_example :
  fst (_resolve_target "b" (CallGraphVisitor Graph_empty demo_root)) = "function:b"
  /\ fst (_resolve_target "b"
            (on_graph (add_node "file:top.py::function:b" KFunction "b" P1st 2)
               (snd (_resolve_target "b" (CallGraphVisitor Graph_empty demo_root)))))
     = "function:b".
Proof.
  split; [reflexivity|].
  rewrite (resolution_is_sticky "b" (CallGraphVisitor Graph_empty demo_root)
             (on_graph (add_node "file:top.py::function:b" KFunction "b" P1st 2)
                (snd (_resolve_target "b" (CallGraphVisitor Graph_empty demo_root))))
             [mkNode "file:top.py::function:b" KFunction "b" P1st 2]).
  - reflexivity.
  - reflexivity.
  - intros p G. discriminate G.
  - reflexivity.
Defined.

(** X16. In a run over ".py" files with distinct ids whose trees carry
    parser names, a file below the root that parses has, at its file
    id, its own file node: kind file, party 1st, labelled with the
    file's name, its size the line count of the source; no import of
    an earlier file and no definition takes that id. *)
Theorem parsed_file_has_own_node :
  forall (ast_parse : string -> option ast) (files : list SourceFile)
         (f : SourceFile) (tree : ast),
    run_ok ast_parse files -> NoDup (map file_id_of files) ->
    In f files -> below_root f -> ast_parse (source f) = Some tree ->
    get_node (nodes (build_graph ast_parse files)) (file_id_of f)
    = Some (mkNode (file_id_of f) KFile (last (rel f) "") P1st
                   (file_loc (source f))).
Proof.
  intros ast_parse files f tree [Hpy Hnames] Nd Hf Hb Hp.
  destruct (in_split _ _ Hf) as (l1 & l2 & E).
  unfold build_graph. rewrite E at 1. rewrite fold_left_app. cbn [fold_left].
  set (g1 := fold_left (fun g f => analyze ast_parse f g) l1 (scaffold files)).
  assert (I1 : forall x, In x l1 -> In x files).
  { intros x Hx. rewrite E. apply in_or_app. now left. }
  assert (N1 : get_node (nodes g1) (file_id_of f) = None).
  { apply get_node_None. intros n Hn En.
    assert (Ok : Forall (node_ok (own_ids ast_parse l1)) (nodes g1)).
    { apply run_inv; [intros x Hx; apply Hpy; auto|].
      intros x t Hx. apply Hnames; auto. }
    rewrite Forall_forall in Ok.
    apply (unwalked_file_id_free (own_ids ast_parse l1) n (rel_str (rel f))
             (Ok n Hn) En).
    - now apply below_root_has_slash.
    - now apply Hpy.
    - intros Hin. unfold own_ids in Hin. apply in_map_iff in Hin.
      destruct Hin as (f' & E' & Hf'). apply filter_In in Hf'.
      destruct Hf' as [Hf' _]. rewrite E, map_app in Nd. cbn [map] in Nd.
      apply NoDup_remove_2 in Nd. apply Nd. apply in_or_app. left.
      change ("file:" ++ rel_str (rel f)) with (file_id_of f) in E'.
      rewrite <- E'. now apply in_map. }
  eapply grows_get_node; [apply run_grows|].
  destruct (analyze_rest ast_parse f g1 tree Hp) as (v' & -> & St).
  eapply step_get_node; [exact St|]. now apply add_node_gets.
Qed.

(** The run over pkg/bad.py, which does not parse, and pkg/good.py. *)
Lemma parsed_file_has_own_node_example :
  run_ok demo_parse [demo_bad; demo_good]
  /\ NoDup (map file_id_of [demo_bad; demo_good])
  /\ get_node (nodes (build_graph demo_parse [demo_bad; demo_good]))
              "file:pkg/good.py"
     = Some (mkNode "file:pkg/good.py" KFile "good.py" P1st 1).
Proof.
  assert (H : run_ok demo_parse [demo_bad; demo_good]).
  { split.
    - intros f [<-|[<-|[]]]; reflexivity.
    - intros f tree [<-|[<-|[]]] E; vm_compute in E;
        [discriminate|injection E as <-; reflexivity]. }
  assert (N : NoDup (map file_id_of [demo_bad; demo_good])).
  { repeat constructor; simpl; intuition discriminate. }
  split; [exact H|]. split; [exact N|].
  refine (parsed_file_has_own_node demo_parse [demo_bad; demo_good] demo_good _
            H N (or_intror (or_introl eq_refl)) _ eq_refl).
  unfold below_root. simpl. lia.
Defined.
